(** * Mini-LISP interpreter (minilisp.py): a shallow embedding and its properties

    The development follows the layout of the Python source:
    - [PyNum]: the host arithmetic the interpreter relies on (arbitrary
      precision [int], binary64 [float], [int / int], [math.fmod], [int(float)]);
    - [Interp]: values, environments ([Env], a dict with a parent pointer,
      kept in a heap because closures alias it), the AST nodes and their
      [eval] methods;
    - [Reader]: [tokenize], [read_sexp], [parse_stmt], [parse_exp],
      [parse_prog] and the main program;
    - the properties of the language proved on these definitions. *)

From Stdlib Require Import ZArith List String Ascii Lia Bool DecimalString.
From Stdlib Require Import DecimalFacts DecimalPos.
From stdpp Require Import base option gmap strings list fin_maps.

Set Warnings "-register-all".
Local Open Scope Z_scope.

(** ** Host arithmetic *)

Module PyNum.

(** [str(i)] for a Python [int]. *)
Definition str_of_int (z : Z) : string := NilZero.string_of_int (Z.to_int z).

(** Quotient of [n] by [d] (both positive) rounded to the nearest integer,
    ties to even: the rounding of IEEE 754 binary64. *)
Definition round_half_even (n d : Z) : Z :=
  let q := n / d in
  let r := n mod d in
  if 2 * r <? d then q
  else if d <? 2 * r then q + 1
  else if Z.even q then q else q + 1.

(** A finite binary64 number is [mant * 2 ^ expo]. *)
Record float := Float { mant : Z; expo : Z }.

Definition max_float_bound : Z := 2 ^ 1024.

(** [float(i)] for an [int] (CPython [PyLong_AsDouble]): the nearest
    binary64, ties to even; [None] is [OverflowError]. The result is an
    integer, returned as such. *)
Definition float_of_int (a : Z) : option Z :=
  let n := Z.abs a in
  if n <? 2 ^ 53 then Some a
  else
    let s := Z.log2 n - 52 in
    let m := round_half_even n (2 ^ s) in
    if max_float_bound <=? m * 2 ^ s then None
    else Some (Z.sgn a * (m * 2 ^ s)).

(** The exponent [ex] of the quotient of two positive integers:
    [2 ^ ex <= n / d < 2 ^ (ex + 1)]. *)
Definition quotient_exponent (n d : Z) : Z :=
  let dl := Z.log2 n - Z.log2 d in
  let ge := if 0 <=? dl then d * 2 ^ dl <=? n else d <=? n * 2 ^ (- dl) in
  if ge then dl else dl - 1.

(** [n / (d * 2 ^ s)] rounded to an integer, ties to even. *)
Definition round_scaled (n d s : Z) : Z :=
  if 0 <=? s then round_half_even n (d * 2 ^ s)
  else round_half_even (n * 2 ^ (- s)) d.

(** [a / b] for two [int]s, [b <> 0] (CPython [long_true_divide]): the
    binary64 nearest to the exact quotient, ties to even: 53 significant
    bits, or a multiple of [2 ^ -1074] for a subnormal; [None] is
    [OverflowError]. *)
Definition truediv (a b : Z) : option float :=
  if a =? 0 then Some (Float 0 0)
  else
    let n := Z.abs a in
    let d := Z.abs b in
    let s := Z.max (quotient_exponent n d - 52) (-1074) in
    let m := round_scaled n d s in
    if (0 <=? s) && (max_float_bound <=? m * 2 ^ s) then None
    else Some (Float (Z.sgn a * Z.sgn b * m) s).

(** [int(x)] for a finite [float]: truncation toward zero. *)
Definition int_of_float (x : float) : Z :=
  if 0 <=? expo x then mant x * 2 ^ expo x
  else Z.quot (mant x) (2 ^ (- expo x)).

(** [math.fmod(x, y)] on two integer-valued floats, [y <> 0]: C [fmod] is
    exact, the result has the sign of [x]. *)
Definition fmod (x y : Z) : Z := Z.rem x y.

End PyNum.

(** ** Values, environments and the evaluator *)

Module Interp.

Local Open Scope string_scope.

(** What [read_sexp] returns: [True]/[False], an [int], a [str], or a list. *)
Inductive sexp :=
| SBool (b : bool)
| SInt (z : Z)
| SSym (s : string)
| SList (l : list sexp).

(** The constant held by a [Val] node: an [int] or a [bool]. *)
Inductive const := CInt (z : Z) | CBool (b : bool).

(** AST nodes, one constructor per class of the source. The name of a [Def]
    and the parameters of a [Fun] are stored by the parser unchecked, so they
    are s-expressions. *)
Inductive node :=
| Val (v : const)
| Var (n : string)
| Def (n : sexp) (v : node)
| If (t a b : node)
| Fun (args : list sexp) (body : list node)
| Call (f : node) (args : list node)
| Op (op : string) (args : list node)
| Print (is_n : bool) (exp : node).

(** Environments live in a heap; a reference to one is its index. *)
Abbreviation loc := nat.

(** Python values met at run time. [VNone] is what [Def.eval], [Print.eval]
    and an empty body return. *)
Inductive value :=
| VInt (z : Z)
| VBool (b : bool)
| VClosure (args : list sexp) (body : list node) (env : loc)
| VNone.

(** Keys of the [Env] dict: a [str] ([inl]) or a number ([inr]; as dict keys
    [True] is [1] and [False] is [0]). A list is unhashable. *)
Abbreviation key := (string + Z)%type.

Definition key_of (n : sexp) : option key :=
  match n with
  | SSym s => Some (inl s)
  | SInt z => Some (inr z)
  | SBool b => Some (inr (if b then 1 else 0)%Z)
  | SList _ => None
  end.

Definition join (sep : string) (l : list string) : string :=
  match l with
  | [] => ""
  | x :: r => fold_left (fun acc y => acc +:+ sep +:+ y) r x
  end.

(** [repr(s)] and [str(s)], as used by f-strings. *)
Fixpoint repr_sexp (s : sexp) : string :=
  match s with
  | SBool b => if b then "True" else "False"
  | SInt z => PyNum.str_of_int z
  | SSym x => "'" +:+ x +:+ "'"
  | SList l => "[" +:+ join ", " (map repr_sexp l) +:+ "]"
  end.

Definition str_sexp (s : sexp) : string :=
  match s with
  | SSym x => x
  | _ => repr_sexp s
  end.

(** class Env(dict): the bindings and the parent pointer [par]. *)
Record Env := { vars : gmap key value; par : option loc }.

(** [bool(env)]: an [Env] is a dict, so it is falsy when it has no binding. *)
Definition truthy (fr : Env) : bool := negb (Nat.eqb (size (vars fr)) 0).

(** The interpreter state: the heap of environments and the lines printed. *)
Record state := { heap : list Env; out : list string }.

(** How a computation ends: normally; by [sys.exit(0)] after an error message
    ([Exit], with everything printed); by an uncaught Python exception
    ([Raise]); the last two are the model's own: a reference outside the heap
    and recursion deeper than the fuel. *)
Inductive result (A : Type) :=
| Ok (a : A) (st : state)
| Exit (o : list string)
| Raise (exn : string) (o : list string)
| Stuck
| OutOfFuel.
Arguments Ok {A} a st.
Arguments Exit {A} o.
Arguments Raise {A} exn o.
Arguments Stuck {A}.
Arguments OutOfFuel {A}.

Definition M (A : Type) : Type := state -> result A.

Definition ret {A} (a : A) : M A := fun st => Ok a st.

Definition bind {A B} (c : M A) (k : A -> M B) : M B :=
  fun st =>
    match c st with
    | Ok a st' => k a st'
    | Exit o => Exit o
    | Raise x o => Raise x o
    | Stuck => Stuck
    | OutOfFuel => OutOfFuel
    end.

Notation "'let*' x ':=' c 'in' k" := (bind c (fun x => k))
  (at level 10, x name, c at level 100, k at level 200).

(** [error_runtime(m)]: print the message, then [sys.exit(0)]. *)
Definition error_runtime {A} (m : string) : M A :=
  fun st => Exit (out st ++ [m]).

Definition raise {A} (exn : string) : M A :=
  fun st => Raise exn (out st).

Definition out_of_fuel {A} : M A := fun _ => OutOfFuel.

Definition print (line : string) : M unit :=
  fun st => Ok tt {| heap := heap st; out := out st ++ [line] |}.

Definition get_frame (e : loc) : M Env :=
  fun st => match heap st !! e with Some fr => Ok fr st | None => Stuck end.

(** [e[k] = v] *)
Definition set_item (e : loc) (k : key) (v : value) : M unit :=
  fun st =>
    match heap st !! e with
    | Some fr =>
        Ok tt {| heap := <[e := {| vars := <[k := v]> (vars fr); par := par fr |}]> (heap st);
                 out := out st |}
    | None => Stuck
    end.

(** [Env(p)]: a fresh, empty dict whose parent is [p]. *)
Definition new_env (p : option loc) : M loc :=
  fun st => Ok (length (heap st))
               {| heap := heap st ++ [{| vars := ∅; par := p |}]; out := out st |}.

Definition typeof (v : value) : string :=
  match v with
  | VInt _ => "number"
  | VBool _ => "boolean"
  | _ => "function"
  end.

Definition check_num (v : value) : M Z :=
  match v with
  | VInt z => ret z
  | _ => error_runtime ("Type Error: Expect 'number' but got '" +:+ typeof v +:+ "'.")
  end.

Definition check_bool (v : value) : M bool :=
  match v with
  | VBool b => ret b
  | _ => error_runtime ("Type Error: Expect 'boolean' but got '" +:+ typeof v +:+ "'.")
  end.

Definition str_of_nat (n : nat) : string := PyNum.str_of_int (Z.of_nat n).

(** Env.find *)
Fixpoint find (fuel : nat) (n : string) (e : loc) : M value :=
  match fuel with
  | O => out_of_fuel
  | S fuel =>
      let* fr := get_frame e in
      match vars fr !! inl n with
      | Some v => ret v
      | None =>
          match par fr with
          | Some p =>
              let* pf := get_frame p in
              if truthy pf then find fuel n p
              else error_runtime ("Error: Variable " +:+ n +:+ " not defined")
          | None => error_runtime ("Error: Variable " +:+ n +:+ " not defined")
          end
      end
  end.

(** Loops of the source, over an evaluation function. *)

(** [[f(a) for a in l]] *)
Fixpoint mapM {A B} (f : A -> M B) (l : list A) : M (list B) :=
  match l with
  | [] => ret []
  | a :: r => let* b := f a in let* bs := mapM f r in ret (b :: bs)
  end.

(** [all(f(a) for a in l)]: the generator is consumed up to the first false. *)
Fixpoint all_gen {A} (f : A -> M bool) (l : list A) : M bool :=
  match l with
  | [] => ret true
  | a :: r => let* b := f a in if b then all_gen f r else ret false
  end.

(** [any(f(a) for a in l)] *)
Fixpoint any_gen {A} (f : A -> M bool) (l : list A) : M bool :=
  match l with
  | [] => ret false
  | a :: r => let* b := f a in if b then ret true else any_gen f r
  end.

(** [for n, arg in zip(ps, args): new_e[n] = arg.eval(e)]: the right-hand
    side is evaluated before the key is hashed. *)
Fixpoint bind_args (ev : node -> M value) (new_e : loc) (l : list (sexp * node)) : M unit :=
  match l with
  | [] => ret tt
  | (n, arg) :: r =>
      let* v := ev arg in
      match key_of n with
      | Some k => let* _ := set_item new_e k v in bind_args ev new_e r
      | None => raise "TypeError: unhashable type: 'list'"
      end
  end.

(** [res = None; for stmt in body: res = stmt.eval(new_e); return res] *)
Fixpoint run_body (ev : node -> M value) (res : value) (body : list node) : M value :=
  match body with
  | [] => ret res
  | stmt :: r => let* v := ev stmt in run_body ev v r
  end.

(** The arity check at the head of [Op.eval]. *)
Definition mem (s : string) (l : list string) : bool := existsb (String.eqb s) l.

Definition arity_check (op : string) (cnt : nat) : M unit :=
  if mem op ["+"; "*"; "="; "and"; "or"] then
    if (cnt <? 2)%nat
    then error_runtime ("Error: Need at least 2 arguments, but got " +:+ str_of_nat cnt +:+ ".")
    else ret tt
  else if mem op ["-"; "/"; "mod"; ">"; "<"] then
    if negb (cnt =? 2)%nat
    then error_runtime ("Error: Need 2 arguments, but got " +:+ str_of_nat cnt +:+ ".")
    else ret tt
  else if op =? "not" then
    if negb (cnt =? 1)%nat
    then error_runtime ("Error: Need 1 argument, but got " +:+ str_of_nat cnt +:+ ".")
    else ret tt
  else ret tt.

(** [sum(check_num(x) for x in vs)] *)
Fixpoint sum_nums (acc : Z) (vs : list value) : M Z :=
  match vs with
  | [] => ret acc
  | x :: r => let* n := check_num x in sum_nums (acc + n) r
  end.

(** [r = 1; for x in vs: r *= check_num(x)] *)
Fixpoint prod_nums (acc : Z) (vs : list value) : M Z :=
  match vs with
  | [] => ret acc
  | x :: r => let* n := check_num x in prod_nums (acc * n) r
  end.

(** [vs[i]] *)
Definition index (vs : list value) (i : nat) : M value :=
  match vs !! i with
  | Some v => ret v
  | None => raise "IndexError: list index out of range"
  end.

(** The part of [Op.eval] that follows [vs = [a.eval(e) for a in self.args]]. *)
Definition prim (op : string) (vs : list value) : M value :=
  if op =? "not" then let* v := index vs 0 in let* b := check_bool v in ret (VBool (negb b))
  else if op =? "+" then let* n := sum_nums 0 vs in ret (VInt n)
  else if op =? "*" then let* n := prod_nums 1 vs in ret (VInt n)
  else
    let* v1 := index vs 0 in
    let* v2 := index vs 1 in
    if op =? "-" then
      let* a := check_num v1 in let* b := check_num v2 in ret (VInt (a - b))
    else if op =? "/" then
      let* b := check_num v2 in
      let* _ := (if (b =? 0)%Z then error_runtime "Error: Division by zero" else ret tt) in
      let* a := check_num v1 in
      match PyNum.truediv a b with
      | Some x => ret (VInt (PyNum.int_of_float x))
      | None => raise "OverflowError: integer division result too large for a float"
      end
    else if op =? "mod" then
      let* a := check_num v1 in
      let* b := check_num v2 in
      match PyNum.float_of_int a, PyNum.float_of_int b with
      | Some x, Some y =>
          if (y =? 0)%Z then raise "ValueError: math domain error"
          else ret (VInt (PyNum.fmod x y))
      | _, _ => raise "OverflowError: int too large to convert to float"
      end
    else if op =? ">" then
      let* a := check_num v1 in let* b := check_num v2 in ret (VBool (b <? a)%Z)
    else if op =? "<" then
      let* a := check_num v1 in let* b := check_num v2 in ret (VBool (a <? b)%Z)
    else if op =? "=" then
      let* r := all_gen (fun x => let* a := check_num x in let* v0 := index vs 0 in
                                  let* b := check_num v0 in ret (a =? b)%Z) vs in
      ret (VBool r)
    else ret VNone.

Definition value_of_const (c : const) : value :=
  match c with CInt z => VInt z | CBool b => VBool b end.

(** The [eval] methods of the node classes. [e] is the environment the node
    is evaluated in. *)
Fixpoint eval (fuel : nat) (nd : node) (e : loc) {struct fuel} : M value :=
  match fuel with
  | O => out_of_fuel
  | S fuel =>
      match nd with
      | Val v => ret (value_of_const v)
      | Var n => find fuel n e
      | Def n v =>
          match key_of n with
          | None => raise "TypeError: unhashable type: 'list'"
          | Some k =>
              let* fr := get_frame e in
              match vars fr !! k with
              | Some _ =>
                  error_runtime ("Error: Redefining " +:+ str_sexp n +:+ " is not allowed.")
              | None =>
                  let* r := eval fuel v e in
                  let* _ := set_item e k r in
                  ret VNone
              end
          end
      | If t a b =>
          let* c := eval fuel t e in
          let* cb := check_bool c in
          if cb then eval fuel a e else eval fuel b e
      | Fun args body => ret (VClosure args body e)
      | Call f args =>
          let* fn := eval fuel f e in
          match fn with
          | VClosure ps body cenv =>
              if negb (length args =? length ps)%nat then
                error_runtime ("Need " +:+ str_of_nat (length ps) +:+ " arguments, but got "
                               +:+ str_of_nat (length args) +:+ ".")
              else
                let* new_e := new_env (Some cenv) in
                let* _ := bind_args (fun a => eval fuel a e) new_e (zip ps args) in
                run_body (fun s => eval fuel s new_e) VNone body
          | _ =>
              error_runtime ("Type Error: Expect 'function' but got '" +:+ typeof fn +:+ "'.")
          end
      | Op op args =>
          let* _ := arity_check op (length args) in
          if op =? "and" then
            let* r := all_gen (fun a => let* v := eval fuel a e in check_bool v) args in
            ret (VBool r)
          else if op =? "or" then
            let* r := any_gen (fun a => let* v := eval fuel a e in check_bool v) args in
            ret (VBool r)
          else
            let* vs := mapM (fun a => eval fuel a e) args in
            prim op vs
      | Print is_n exp =>
          let* v := eval fuel exp e in
          let* line := (if is_n then let* n := check_num v in ret (PyNum.str_of_int n)
                        else let* b := check_bool v in ret (if b then "#t" else "#f")) in
          let* _ := print line in
          ret VNone
      end
  end.

(** The evaluation phase of the main program: a global [Env()], then every
    top-level node in order. *)
Definition init : state := {| heap := [{| vars := ∅; par := None |}]; out := [] |}.

Fixpoint run_nodes (fuel : nat) (nodes : list node) : M unit :=
  match nodes with
  | [] => ret tt
  | n :: r => let* _ := eval fuel n 0%nat in run_nodes fuel r
  end.

End Interp.

(** ** Lexer, s-expression reader, AST builder and main program *)

Module Reader.

Import Interp.
Local Open Scope string_scope.
Local Open Scope char_scope.

(** *** tokenize *)

Definition in_range (lo hi c : ascii) : bool :=
  (nat_of_ascii lo <=? nat_of_ascii c)%nat && (nat_of_ascii c <=? nat_of_ascii hi)%nat.

(** [\d] (on ASCII text), [[1-9]], [[a-z]], [[a-z0-9\-]], [[\+\*/<>=]] *)
Definition is_digit (c : ascii) : bool := in_range "0" "9" c.
Definition is_pos_digit (c : ascii) : bool := in_range "1" "9" c.
Definition is_lower (c : ascii) : bool := in_range "a" "z" c.
Definition is_id_char (c : ascii) : bool := is_lower c || is_digit c || (c =? "-").
Definition is_op_char (c : ascii) : bool :=
  (c =? "+") || (c =? "*") || (c =? "/") || (c =? "<") || (c =? ">") || (c =? "=").

(** The greedy [p*]: the longest prefix of characters in [p], and the rest. *)
Fixpoint span (p : ascii -> bool) (s : string) : string * string :=
  match s with
  | String c r =>
      if p c then let '(a, b) := span p r in (String c a, b)
      else (EmptyString, s)
  | EmptyString => (EmptyString, EmptyString)
  end.

(** A matcher tries one alternative of the regular expression at the head of
    the text and returns the lexeme and what follows it. *)
Definition matcher := string -> option (string * string).

Fixpoint lit (p : string) : matcher :=
  fun s =>
    match p with
    | EmptyString => Some (EmptyString, s)
    | String c p' =>
        match s with
        | String d s' =>
            if c =? d then
              match lit p' s' with
              | Some (t, rest) => Some (String c t, rest)
              | None => None
              end
            else None
        | EmptyString => None
        end
    end.

(** [-?[1-9]\d*] *)
Definition number : matcher :=
  fun s =>
    match s with
    | String c r =>
        if is_pos_digit c then
          let '(ds, rest) := span is_digit r in Some (String c ds, rest)
        else if c =? "-" then
          match r with
          | String d r' =>
              if is_pos_digit d then
                let '(ds, rest) := span is_digit r' in Some (String c (String d ds), rest)
              else None
          | EmptyString => None
          end
        else None
    | EmptyString => None
    end.

(** [[a-z][a-z0-9\-]*] *)
Definition ident : matcher :=
  fun s =>
    match s with
    | String c r =>
        if is_lower c then
          let '(cs, rest) := span is_id_char r in Some (String c cs, rest)
        else None
    | EmptyString => None
    end.

(** [[\+\*/<>=]] *)
Definition op_char : matcher :=
  fun s =>
    match s with
    | String c r => if is_op_char c then Some (String c EmptyString, r) else None
    | EmptyString => None
    end.

(** The alternatives of the pattern of [tokenize], in the order written:
    [\(|\)|#t|#f|0|-?[1-9]\d*|[a-z][a-z0-9\-]*|[\+\*/<>=]|mod|and|or|not|-] *)
Definition alternatives : list matcher :=
  [lit "("; lit ")"; lit "#t"; lit "#f"; lit "0"; number; ident; op_char;
   lit "mod"; lit "and"; lit "or"; lit "not"; lit "-"]%string.

(** The first alternative that matches wins. *)
Fixpoint first_match (alts : list matcher) (s : string) : option (string * string) :=
  match alts with
  | [] => None
  | m :: r => match m s with Some x => Some x | None => first_match r s end
  end.

(** [re.findall]: scan from the left; at each position take the match if
    there is one and go on after it, otherwise move one character on. *)
Fixpoint findall (fuel : nat) (s : string) : list string :=
  match fuel with
  | O => []
  | S fuel =>
      match s with
      | EmptyString => []
      | String _ r =>
          match first_match alternatives s with
          | Some (t, rest) => t :: findall fuel rest
          | None => findall fuel r
          end
      end
  end.

Definition tokenize (s : string) : list string := findall (String.length s) s.

(** *** read_sexp *)

(** The parsing phase ends with the AST, with [error_syntax] (a message is
    printed, then [sys.exit(0)]), or with a Python exception, which the main
    program turns into [error_syntax()]. [PFuel] is the model's own. *)
Inductive presult (A : Type) :=
| POk (a : A)
| PExit (msg : string)
| PExn (exn : string)
| PFuel.
Arguments POk {A} a.
Arguments PExit {A} msg.
Arguments PExn {A} exn.
Arguments PFuel {A}.

Definition pbind {A B} (c : presult A) (k : A -> presult B) : presult B :=
  match c with
  | POk a => k a
  | PExit m => PExit m
  | PExn x => PExn x
  | PFuel => PFuel
  end.

Notation "'let+' x ':=' c 'in' k" := (pbind c (fun x => k))
  (at level 10, x name, c at level 100, k at level 200).

(** [bool(s)] *)
Definition truthy_sexp (s : sexp) : bool :=
  match s with
  | SBool b => b
  | SInt z => negb (z =? 0)%Z
  | SSym x => negb (x =? "")%string
  | SList l => match l with [] => false | _ => true end
  end.

Definition error_syntax {A} (unexpected_token : option sexp) : presult A :=
  match unexpected_token with
  | Some t =>
      if truthy_sexp t then PExit ("syntax error, unexpected '" +:+ str_sexp t +:+ "'")
      else PExit "syntax error"
  | None => PExit "syntax error"
  end.

Definition all_digits (s : string) : bool :=
  forallb is_digit (list_ascii_of_string s).

(** [re.match(r'0|-?[1-9]\d*$', t)]: the [$] belongs to the second
    alternative only; a token holds no line break, so [$] is its end. *)
Definition is_int_token (t : string) : bool :=
  match t with
  | String c r =>
      if c =? "0" then true
      else if is_pos_digit c then all_digits r
      else if c =? "-" then
        match r with
        | String d r' => is_pos_digit d && all_digits r'
        | EmptyString => false
        end
      else false
  | EmptyString => false
  end.

Definition digit_val (c : ascii) : Z := Z.of_nat (nat_of_ascii c) - 48.

Definition decimal (s : string) : Z :=
  fold_left (fun acc c => 10 * acc + digit_val c)%Z (list_ascii_of_string s) 0%Z.

(** [int(t)] on a token that passed [is_int_token]: an optional sign and
    decimal digits; anything else is [ValueError] (of the lexemes of
    [tokenize], only ["0"] itself starts with [0]). *)
Definition int_of_token (t : string) : option Z :=
  match t with
  | String c r =>
      if (c =? "-") && negb (r =? "")%string && all_digits r then Some (- decimal r)%Z
      else if all_digits t then Some (decimal t)
      else None
  | EmptyString => None
  end.

Fixpoint read_sexp (fuel : nat) (tokens : list string) : presult (sexp * list string) :=
  match fuel with
  | O => PFuel
  | S fuel =>
      match tokens with
      | [] => error_syntax None
      | t :: tokens =>
          if (t =? "(")%string then read_list fuel [] tokens
          else if (t =? ")")%string then error_syntax (Some (SSym t))
          else if (t =? "#t")%string then POk (SBool true, tokens)
          else if (t =? "#f")%string then POk (SBool false, tokens)
          else if is_int_token t then
            match int_of_token t with
            | Some z => POk (SInt z, tokens)
            | None => PExn "ValueError: invalid literal for int()"
            end
          else POk (SSym t, tokens)
      end
  end
(** the [while] loop that fills the list [L] *)
with read_list (fuel : nat) (L : list sexp) (tokens : list string)
  : presult (sexp * list string) :=
  match fuel with
  | O => PFuel
  | S fuel =>
      match tokens with
      | [] => error_syntax None
      | t :: rest =>
          if (t =? ")")%string then POk (SList L, rest)
          else
            let+ r := read_sexp fuel tokens in
            read_list fuel (L ++ [fst r]) (snd r)
      end
  end.

(** *** parse_stmt and parse_exp *)

Definition operators : list string :=
  ["not"; "-"; "/"; "mod"; ">"; "<"; "+"; "*"; "="; "and"; "or"]%string.

(** [s == name] for an s-expression [s] and a [str] *)
Definition sym_is (s : sexp) (name : string) : bool :=
  match s with SSym x => (x =? name)%string | _ => false end.

Definition is_operator (s : sexp) : option string :=
  match s with
  | SSym x => if mem x operators then Some x else None
  | _ => None
  end.

(** [parse_stmt], over the expression parser. *)
Definition parse_stmt_with (parse_exp : sexp -> presult node) (s : sexp) : presult node :=
  match s with
  | SList (head :: tl) =>
      if sym_is head "define" then
        match tl with
        | [n; v] => let+ v' := parse_exp v in POk (Def n v')
        | _ => error_syntax (Some head)
        end
      else if sym_is head "print-num" then
        match tl with
        | [x] => let+ x' := parse_exp x in POk (Print true x')
        | _ => error_syntax (Some head)
        end
      else if sym_is head "print-bool" then
        match tl with
        | [x] => let+ x' := parse_exp x in POk (Print false x')
        | _ => error_syntax (Some head)
        end
      else parse_exp s
  | _ => parse_exp s
  end.

Fixpoint parse_exp (s : sexp) : presult node :=
  match s with
  | SBool b => POk (Val (CBool b))
  | SInt z => POk (Val (CInt z))
  | SSym x =>
      if mem x ["+"; "-"; "*"; "/"; "mod"; ">"; "<"; "="; "and"; "or"; "not"]%string
      then error_syntax (Some s)
      else POk (Var x)
  | SList [] => error_syntax None
  | SList (head :: tl) =>
      let exps :=
        fix exps (l : list sexp) : presult (list node) :=
          match l with
          | [] => POk []
          | x :: r => let+ n := parse_exp x in let+ ns := exps r in POk (n :: ns)
          end in
      let stmts :=
        fix stmts (l : list sexp) : presult (list node) :=
          match l with
          | [] => POk []
          | x :: r =>
              let+ n := parse_stmt_with parse_exp x in
              let+ ns := stmts r in POk (n :: ns)
          end in
      if sym_is head "if" then
        match tl with
        | [t; a; b] =>
            let+ t' := parse_exp t in
            let+ a' := parse_exp a in
            let+ b' := parse_exp b in
            POk (If t' a' b')
        | _ => error_syntax (Some head)
        end
      else if sym_is head "fun" then
        match tl with
        | params :: (_ :: _) as body =>
            match params with
            | SList ps => let+ b := stmts body in POk (Fun ps b)
            | _ => error_syntax (Some params)
            end
        | _ => error_syntax (Some head)
        end
      else
        match is_operator head with
        | Some op => let+ args := exps tl in POk (Op op args)
        | None =>
            let+ f := parse_exp head in
            let+ args := exps tl in
            POk (Call f args)
        end
  end.

Definition parse_stmt (s : sexp) : presult node := parse_stmt_with parse_exp s.

(** *** parse_prog and the main program *)

Fixpoint parse_prog_from (fuel : nat) (tokens : list string) : presult (list node) :=
  match fuel with
  | O => PFuel
  | S fuel =>
      match tokens with
      | [] => POk []
      | _ =>
          let+ r := read_sexp (2 * length tokens + 2) tokens in
          let+ n := parse_stmt (fst r) in
          let+ ns := parse_prog_from fuel (snd r) in
          POk (n :: ns)
      end
  end.

Definition parse_prog (tokens : list string) : presult (list node) :=
  parse_prog_from (S (length tokens)) tokens.

(** The main program on the text of the source file. *)
Definition main (fuel : nat) (src : string) : result unit :=
  match parse_prog (tokenize src) with
  | POk nodes => run_nodes fuel nodes init
  | PExit msg => Exit [msg]
  | PExn _ => Exit ["syntax error"%string]
  | PFuel => OutOfFuel
  end.

(** What the process wrote on standard output, when it ended. *)
Definition stdout (r : result unit) : option (list string) :=
  match r with
  | Ok _ st => Some (out st)
  | Exit o => Some o
  | Raise _ o => Some o
  | _ => None
  end.

End Reader.

Import Interp Reader.

(** * Notions used in the statements *)

(** [st'] has every frame of [st], each with the parent it had. *)
Definition extends (st st' : state) : Prop :=
  (length (heap st) <= length (heap st'))%nat /\
  forall l fr, heap st !! l = Some fr ->
    exists fr', heap st' !! l = Some fr' /\ par fr' = par fr.

(** [c2] ends as [c1] does, wherever [c1] does not run out of fuel. *)
Definition refines {A} (c1 c2 : M A) : Prop :=
  forall st, c1 st <> OutOfFuel -> c2 st = c1 st.

(** The operands [l] are evaluated in [e] one after the other, each to the
    Bool [b]; [st'] is the state after the last one. *)
Fixpoint evals_to_bool (fuel : nat) (e : loc) (b : bool) (l : list node)
    (st st' : state) : Prop :=
  match l with
  | [] => st' = st
  | a :: r =>
      exists s1, eval fuel a e st = Ok (VBool b) s1 /\ evals_to_bool fuel e b r s1 st'
  end.

(** The state after [Env(ce)]: one more frame, empty, whose parent is [ce]. *)
Definition alloc (st : state) (ce : loc) : state :=
  {| heap := heap st ++ [{| vars := ∅; par := Some ce |}]; out := out st |}.

(** What [Call.eval] does once the callee is a closure of the right arity:
    the new frame, the parameters bound to the arguments, the body. *)
Definition invoke (fuel : nat) (ps : list sexp) (body : list node) (ce : loc)
    (args : list node) (e : loc) : M value :=
  let* new_e := new_env (Some ce) in
  let* _ := bind_args (fun a => eval fuel a e) new_e (zip ps args) in
  run_body (fun s => eval fuel s new_e) VNone body.

(** The message of [Call.eval] on an arity mismatch. *)
Definition need_message (n m : nat) : string :=
  "Need " +:+ str_of_nat n +:+ " arguments, but got " +:+ str_of_nat m +:+ ".".

(** The arguments are evaluated in the caller's environment [e], from the
    left, and each value is bound to its parameter in the frame [new_e]. *)
Inductive args_bound (fuel : nat) (e new_e : loc) :
    list sexp -> list node -> state -> state -> Prop :=
| args_bound_nil st : args_bound fuel e new_e [] [] st st
| args_bound_cons p ps a args k v st s1 s2 s3 :
    eval fuel a e st = Ok v s1 ->
    key_of p = Some k ->
    set_item new_e k v s1 = Ok tt s2 ->
    args_bound fuel e new_e ps args s2 s3 ->
    args_bound fuel e new_e (p :: ps) (a :: args) st s3.

(** The message of [check_num]. *)
Definition number_expected (got : string) : string :=
  "Type Error: Expect 'number' but got '" +:+ got +:+ "'.".

(** The characters that occur in some lexeme of the pattern. *)
Definition recognized (c : ascii) : bool :=
  (c =? "(")%char || (c =? ")")%char || (c =? "#")%char || is_digit c || is_lower c
  || is_op_char c || (c =? "-")%char.

(** The character [c] does not occur in the literal [p]. *)
Fixpoint avoids (c : ascii) (p : string) : bool :=
  match p with
  | EmptyString => true
  | String x p' => negb (x =? c)%char && avoids c p'
  end.

(** What a match on [s1] becomes when text is appended to [s1]. *)
Definition shift (s' : string) (r : option (string * string)) : option (string * string) :=
  match r with
  | Some (t, rest) => Some (t, rest +:+ s')
  | None => None
  end.

(** A matcher that cannot read the character [c]: a match never extends
    over it, and none starts at it. *)
Definition stops_at (c : ascii) (m : matcher) : Prop :=
  forall s1 s2, m (s1 +:+ String c s2) = shift (String c s2) (m s1).

(** A matcher that consumes at least one character. *)
Definition consuming (m : matcher) : Prop :=
  forall s t rest, m s = Some (t, rest) -> (String.length rest < String.length s)%nat.

(** ** Notions used in the further properties *)

(** A node the AST builder can return for an expression: operators are the
    eleven primitive ones, a variable is not an operator spelling, a [fun]
    has a body, and [Def] and [Print] nodes stand only directly in a [fun]
    body, over an expression. *)
Fixpoint wf_exp (n : node) : bool :=
  match n with
  | Val _ => true
  | Var x => negb (mem x operators)
  | Def _ _ => false
  | Print _ _ => false
  | If t a b => wf_exp t && wf_exp a && wf_exp b
  | Fun _ body =>
      match body with [] => false | _ => true end &&
      forallb (fun s => match s with
                        | Def _ x => wf_exp x
                        | Print _ x => wf_exp x
                        | _ => wf_exp s
                        end) body
  | Call f args => wf_exp f && forallb wf_exp args
  | Op op args => mem op operators && forallb wf_exp args
  end.

(** A node the AST builder can return for a statement. *)
Definition wf_stmt (s : node) : bool :=
  match s with
  | Def _ x => wf_exp x
  | Print _ x => wf_exp x
  | _ => wf_exp s
  end.

(** The two list loops of [parse_exp]. *)
Fixpoint parse_exps (l : list sexp) : presult (list node) :=
  match l with
  | [] => POk []
  | x :: r => let+ n := parse_exp x in let+ ns := parse_exps r in POk (n :: ns)
  end.
Fixpoint parse_stmts (l : list sexp) : presult (list node) :=
  match l with
  | [] => POk []
  | x :: r => let+ n := parse_stmt x in let+ ns := parse_stmts r in POk (n :: ns)
  end.

(** What the AST builder returns for [s] is such a node. *)
Definition parses_wf (s : sexp) : Prop :=
  (forall n, parse_exp s = POk n -> wf_exp n = true) /\
  (forall n, parse_stmt s = POk n -> wf_stmt n = true).

(** A closure holds a body the AST builder can return. *)
Definition wf_value (v : value) : Prop :=
  match v with
  | VClosure _ body _ => body <> [] /\ forallb wf_stmt body = true
  | _ => True
  end.

(** Every value bound in a frame is such a value. *)
Definition wf_state (st : state) : Prop :=
  forall l fr k v, heap st !! l = Some fr -> vars fr !! k = Some v -> wf_value v.

(** Every frame of [st] is in [st'] as it was. *)
Definition untouched (st st' : state) : Prop :=
  forall l fr, heap st !! l = Some fr -> heap st' !! l = Some fr.

(** Every frame of [st] other than [e] is in [st'] as it was; frame [e] has
    its parent and its bindings, and possibly new bindings. *)
Definition kept (e : loc) (st st' : state) : Prop :=
  forall l fr, heap st !! l = Some fr ->
    exists fr', heap st' !! l = Some fr' /\ par fr' = par fr /\
                vars fr ⊆ vars fr' /\ (l <> e -> fr' = fr).

(** Frames below [n] are in [st'] as they were. *)
Definition untouched_below (n : nat) (st st' : state) : Prop :=
  forall l fr, (l < n)%nat -> heap st !! l = Some fr -> heap st' !! l = Some fr.

(** An evaluation function under which an expression leaves the frames as
    they are. *)
Definition exp_ok (ev : node -> M value) : Prop :=
  forall a st v st', wf_state st -> wf_exp a = true -> ev a st = Ok v st' ->
    wf_value v /\ wf_state st' /\ untouched st st'.

(** An evaluation function under which a statement only adds bindings, to
    frame [e]. *)
Definition stmt_ok (e : loc) (ev : node -> M value) : Prop :=
  forall s st v st', wf_state st -> wf_stmt s = true -> ev s st = Ok v st' ->
    wf_value v /\ wf_state st' /\ kept e st st'.

(** What a computation leaves on standard output, when it ends. *)
Definition final_out {A} (r : result A) : option (list string) :=
  match r with
  | Ok _ st => Some (out st)
  | Exit o => Some o
  | Raise _ o => Some o
  | _ => None
  end.

(** A computation that only appends to the output, however it ends. *)
Definition appends {A} (c : M A) : Prop :=
  forall st o, final_out (c st) = Some o -> out st `prefix_of` o.

(** The three messages of the arity check of [Op.eval]. *)
Definition at_least_2_message (c : nat) : string :=
  "Error: Need at least 2 arguments, but got " +:+ str_of_nat c +:+ ".".
Definition exactly_2_message (c : nat) : string :=
  "Error: Need 2 arguments, but got " +:+ str_of_nat c +:+ ".".
Definition exactly_1_message (c : nat) : string :=
  "Error: Need 1 argument, but got " +:+ str_of_nat c +:+ ".".

(** The message of [check_num] and [check_bool]. *)
Definition type_error (expected : string) (v : value) : string :=
  "Type Error: Expect '" +:+ expected +:+ "' but got '" +:+ typeof v +:+ "'.".

(** [type(v) is int], [type(v) is bool] *)
Definition is_int (v : value) : bool := match v with VInt _ => true | _ => false end.
Definition is_bool (v : value) : bool := match v with VBool _ => true | _ => false end.

(** A text made of characters that occur in lexemes. *)
Definition all_recognized (t : string) : bool :=
  forallb recognized (list_ascii_of_string t).

(** A token that is one lexeme, whole: lexed alone, it is matched to its end. *)
Definition lexeme (t : string) : Prop :=
  t <> EmptyString /\ all_recognized t = true /\
  first_match alternatives t = Some (t, EmptyString).

(** The tokens, separated by blanks. *)
Fixpoint unwords (l : list string) : string :=
  match l with
  | [] => EmptyString
  | t :: r => t +:+ String " " (unwords r)
  end.

(** What the lexer needs of a matcher: a match is a non-empty prefix made of
    recognized characters; it is found again in the lexeme alone; and a
    matcher that fails on a text fails on its prefixes. *)
Definition sound (m : matcher) : Prop :=
  (forall s t rest, m s = Some (t, rest) ->
     s = t +:+ rest /\ t <> EmptyString /\ all_recognized t = true /\
     m t = Some (t, EmptyString)) /\
  (forall t rest, m (t +:+ rest) = None -> m t = None).

(** The two forms of [error_syntax]. *)
Definition syntax_message (msg : string) : Prop :=
  msg = "syntax error"%string \/
  exists t, msg = ("syntax error, unexpected '" +:+ t +:+ "'")%string.

(** How a parsing function may end on tokens [toks]: with a result that
    satisfies [P], with a syntax error, or with the [ValueError] of [int] on
    a token of [toks]; it does not run out of fuel. *)
Definition parse_outcome {A} (toks : list string) (P : A -> Prop) (r : presult A) : Prop :=
  match r with
  | POk a => P a
  | PExit msg => syntax_message msg
  | PExn _ => exists t, In t toks /\ is_int_token t = true /\ int_of_token t = None
  | PFuel => False
  end.

(** The tokens read are a non-empty prefix: [rest] is what follows them. *)
Definition consumed (toks : list string) (r : sexp * list string) : Prop :=
  exists used, used <> [] /\ toks = used ++ r.2.

(** The AST builder ends with a node or with a syntax error. *)
Definition builds (r : presult node) : Prop :=
  match r with
  | POk _ => True
  | PExit msg => syntax_message msg
  | _ => False
  end.
Definition builds_list (r : presult (list node)) : Prop :=
  match r with
  | POk _ => True
  | PExit msg => syntax_message msg
  | _ => False
  end.

(** The digits of a decimal numeral, and [int] on digits, from an
    accumulator. *)
Definition digits (d : Decimal.uint) : string := NilEmpty.string_of_uint d.
Definition decimal_from (acc : Z) (s : string) : Z :=
  fold_left (fun acc c => 10 * acc + digit_val c)%Z (list_ascii_of_string s) acc.

(** * Properties *)

(** ** Reasoning about monadic code *)

Lemma bind_Ok {A B} (c : M A) (k : A -> M B) st a st1 :
  c st = Ok a st1 -> bind c k st = k a st1.
Proof. intros H. unfold bind. now rewrite H. Qed.

Lemma bind_Ok_inv {A B} (c : M A) (k : A -> M B) st b st' :
  bind c k st = Ok b st' -> exists a st1, c st = Ok a st1 /\ k a st1 = Ok b st'.
Proof.
  unfold bind. destruct (c st) as [a st1| | | |] eqn:E; try discriminate.
  intros H. now exists a, st1.
Qed.

Lemma ret_Ok_inv {A} (a b : A) st st' : ret a st = Ok b st' -> a = b /\ st = st'.
Proof. unfold ret. intros H. now inversion H. Qed.

Lemma check_num_Ok_inv v st n st' : check_num v st = Ok n st' -> v = VInt n /\ st' = st.
Proof. destruct v; simpl; unfold ret, error_runtime; intros H; now inversion H. Qed.

Lemma check_bool_Ok_inv v st b st' : check_bool v st = Ok b st' -> v = VBool b /\ st' = st.
Proof. destruct v; simpl; unfold ret, error_runtime; intros H; now inversion H. Qed.

Lemma index_Ok_inv vs i st v st' : index vs i st = Ok v st' -> vs !! i = Some v /\ st' = st.
Proof.
  unfold index. destruct (vs !! i); unfold ret, raise; intros H; now inversion H.
Qed.

Lemma get_frame_Ok_inv e st fr st' :
  get_frame e st = Ok fr st' -> heap st !! e = Some fr /\ st' = st.
Proof. unfold get_frame. destruct (heap st !! e); intros H; now inversion H. Qed.

(** Splits a successful monadic computation into its steps. *)
Ltac minv H :=
  lazymatch type of H with
  | bind _ _ _ = Ok _ _ =>
      let a := fresh "a" in let s := fresh "st" in
      let H1 := fresh "Hc" in let H2 := fresh "Hk" in
      apply bind_Ok_inv in H; destruct H as (a & s & H1 & H2); cbv beta in H2
  | ret _ _ = Ok _ _ =>
      apply ret_Ok_inv in H; destruct H as [? ?]; subst
  | check_num _ _ = Ok _ _ =>
      apply check_num_Ok_inv in H; destruct H as [? ?]; subst
  | check_bool _ _ = Ok _ _ =>
      apply check_bool_Ok_inv in H; destruct H as [? ?]; subst
  | index _ _ _ = Ok _ _ =>
      apply index_Ok_inv in H; destruct H as [? ?]; subst
  | get_frame _ _ = Ok _ _ =>
      apply get_frame_Ok_inv in H; destruct H as [? ?]; subst
  | error_runtime _ _ = Ok _ _ => discriminate H
  | raise _ _ = Ok _ _ => discriminate H
  | out_of_fuel _ = Ok _ _ => discriminate H
  end.

(** ** The heap only grows, and a frame keeps its parent

    Evaluation allocates frames and adds bindings to them; it never removes
    a frame and never reassigns a parent pointer. *)

Lemma extends_refl st : extends st st.
Proof. split; [lia | eauto]. Qed.

Lemma extends_trans st1 st2 st3 : extends st1 st2 -> extends st2 st3 -> extends st1 st3.
Proof.
  intros [L1 P1] [L2 P2]. split; [lia |].
  intros l fr H. destruct (P1 _ _ H) as (fr' & H' & E').
  destruct (P2 _ _ H') as (fr'' & H'' & E''). exists fr''. split; [done | congruence].
Qed.

Lemma set_item_extends e k v st st' : set_item e k v st = Ok tt st' -> extends st st'.
Proof.
  unfold set_item. destruct (heap st !! e) as [fr|] eqn:E; [|discriminate].
  intros H. inversion H; subst; clear H. split; cbn [heap].
  - rewrite length_insert. lia.
  - intros l fr0 Hl. destruct (decide (l = e)) as [->|Hne].
    + rewrite list_lookup_insert_eq by (eapply lookup_lt_Some; eauto).
      eexists; split; [reflexivity|]. cbn [par]. congruence.
    + rewrite list_lookup_insert_ne by congruence. eauto.
Qed.

Lemma new_env_extends p st l st' : new_env p st = Ok l st' -> extends st st'.
Proof.
  unfold new_env. intros H. inversion H; subst; clear H. split; cbn [heap].
  - rewrite length_app. lia.
  - intros l fr Hl. exists fr. split; [|done]. now apply lookup_app_l_Some.
Qed.

Lemma print_extends line st st' : print line st = Ok tt st' -> extends st st'.
Proof. unfold print. intros H. inversion H; subst. split; cbn [heap]; eauto. Qed.

Lemma find_extends fuel n e st v st' : find fuel n e st = Ok v st' -> st' = st.
Proof.
  revert e. induction fuel as [|fuel IH]; intros e H; simpl in H; [discriminate|].
  minv H. minv Hc. destruct (vars a !! inl n).
  - now minv Hk.
  - destruct (par a); [|discriminate]. minv Hk. minv Hc.
    destruct (truthy a0); [eauto | discriminate].
Qed.

Section Loops.
(** The loops preserve what their evaluation function preserves. *)
Context {A : Type} (ev : A -> M value).
Hypothesis ev_extends : forall a st v st', ev a st = Ok v st' -> extends st st'.

Lemma mapM_extends l st vs st' : mapM ev l st = Ok vs st' -> extends st st'.
Proof.
  revert st vs. induction l as [|a l IH]; intros st vs H; simpl in H.
  - minv H. apply extends_refl.
  - minv H. minv Hk. minv Hk0. eapply extends_trans; eauto.
Qed.

Lemma all_gen_extends l st b st' :
  all_gen (fun a => let* v := ev a in check_bool v) l st = Ok b st' -> extends st st'.
Proof.
  revert st. induction l as [|a l IH]; intros st H; simpl in H.
  - minv H. apply extends_refl.
  - minv H. minv Hc. minv Hk0. destruct a0.
    + eapply extends_trans; eauto.
    + minv Hk. eauto.
Qed.

Lemma any_gen_extends l st b st' :
  any_gen (fun a => let* v := ev a in check_bool v) l st = Ok b st' -> extends st st'.
Proof.
  revert st. induction l as [|a l IH]; intros st H; simpl in H.
  - minv H. apply extends_refl.
  - minv H. minv Hc. minv Hk0. destruct a0.
    + minv Hk. eauto.
    + eapply extends_trans; eauto.
Qed.
End Loops.

Lemma bind_args_extends ev new_e l st st' :
  (forall a st v st', ev a st = Ok v st' -> extends st st') ->
  bind_args ev new_e l st = Ok tt st' -> extends st st'.
Proof.
  intros Hev. revert st. induction l as [|[n arg] l IH]; intros st H; simpl in H.
  - minv H. apply extends_refl.
  - minv H. destruct (key_of n); [|discriminate]. minv Hk. destruct a0.
    eapply extends_trans; [eauto|]. eapply extends_trans; [eapply set_item_extends; eauto|eauto].
Qed.

Lemma run_body_extends ev res body st v st' :
  (forall a st v st', ev a st = Ok v st' -> extends st st') ->
  run_body ev res body st = Ok v st' -> extends st st'.
Proof.
  intros Hev. revert res st. induction body as [|s body IH]; intros res st H; simpl in H.
  - minv H. apply extends_refl.
  - minv H. eapply extends_trans; eauto.
Qed.

Lemma sum_nums_state acc vs st n st' : sum_nums acc vs st = Ok n st' -> st' = st.
Proof.
  revert acc st. induction vs as [|x vs IH]; intros acc st H; simpl in H.
  - now minv H.
  - minv H. minv Hc. eauto.
Qed.

Lemma prod_nums_state acc vs st n st' : prod_nums acc vs st = Ok n st' -> st' = st.
Proof.
  revert acc st. induction vs as [|x vs IH]; intros acc st H; simpl in H.
  - now minv H.
  - minv H. minv Hc. eauto.
Qed.

Lemma all_gen_state {A} (f : A -> M bool) l st b st' :
  (forall a st b st', f a st = Ok b st' -> st' = st) ->
  all_gen f l st = Ok b st' -> st' = st.
Proof.
  intros Hf. revert st. induction l as [|a l IH]; intros st H; simpl in H.
  - now minv H.
  - minv H. apply Hf in Hc. subst. destruct a0; [eauto | now minv Hk].
Qed.

Lemma arity_check_state op cnt st u st' : arity_check op cnt st = Ok u st' -> st' = st.
Proof.
  unfold arity_check. intros H.
  repeat match type of H with
         | (if ?c then _ else _) _ = Ok _ _ => destruct c
         end; try discriminate; now minv H.
Qed.

Ltac minv_all :=
  repeat match goal with
         | H : bind _ _ _ = Ok _ _ |- _ => minv H
         | H : ret _ _ = Ok _ _ |- _ => minv H
         | H : check_num _ _ = Ok _ _ |- _ => minv H
         | H : check_bool _ _ = Ok _ _ |- _ => minv H
         | H : index _ _ _ = Ok _ _ |- _ => minv H
         | H : get_frame _ _ = Ok _ _ |- _ => minv H
         | H : error_runtime _ _ = Ok _ _ |- _ => discriminate H
         | H : raise _ _ = Ok _ _ |- _ => discriminate H
         end.

Ltac mcase :=
  match goal with
  | H : (if ?c then _ else _) _ = Ok _ _ |- _ => destruct c eqn:?
  | H : match ?o with Some _ => _ | None => _ end _ = Ok _ _ |- _ => destruct o eqn:?
  end.

Ltac mauto := repeat (first [progress minv_all | mcase]); try discriminate.

(** Once the operands are values, a primitive neither touches the heap nor
    prints. *)
Lemma prim_state op vs st v st' : prim op vs st = Ok v st' -> st' = st.
Proof.
  unfold prim. intros H.
  repeat match type of H with
         | (if ?c then _ else _) _ = Ok _ _ => destruct c
         end;
  try (minv H;
       match goal with
       | Hs : sum_nums _ _ _ = Ok _ _ |- _ => apply sum_nums_state in Hs; subst
       | Hs : prod_nums _ _ _ = Ok _ _ |- _ => apply prod_nums_state in Hs; subst
       | _ => idtac
       end);
  mauto; try reflexivity.
  match goal with
  | Hs : all_gen _ _ _ = Ok _ _ |- _ => apply all_gen_state in Hs; [now subst|]
  end.
  intros x s1 b' s2 Hf. now mauto.
Qed.

Theorem eval_extends fuel : forall nd e st v st',
  eval fuel nd e st = Ok v st' -> extends st st'.
Proof.
  induction fuel as [|fuel IH]; intros nd e st v st' H; simpl in H; [discriminate|].
  destruct nd as [c|x|n d|t a b|ps body|f args|op args|is_n x].
  - minv H. apply extends_refl.
  - apply find_extends in H. subst. apply extends_refl.
  - destruct (key_of n) as [k|]; [|discriminate].
    apply bind_Ok_inv in H as (fr & s1 & Hfr & H). minv Hfr.
    destruct (vars fr !! k); [discriminate|].
    apply bind_Ok_inv in H as (r & s2 & Hr & H).
    apply bind_Ok_inv in H as ([] & s3 & Hset & H). minv H.
    eapply extends_trans; [eauto | eapply set_item_extends; eauto].
  - apply bind_Ok_inv in H as (c & s1 & Hc & H).
    apply bind_Ok_inv in H as (cb & s2 & Hcb & H). minv Hcb.
    eapply extends_trans; [eauto|]. destruct cb; eauto.
  - minv H. apply extends_refl.
  - apply bind_Ok_inv in H as (fn & s1 & Hfn & H).
    destruct fn as [| |ps body cenv|]; try discriminate.
    destruct (negb _); [discriminate|].
    apply bind_Ok_inv in H as (new_e & s2 & Hnew & H).
    apply bind_Ok_inv in H as ([] & s3 & Hargs & H).
    eapply extends_trans; [eauto|].
    eapply extends_trans; [eapply new_env_extends; eauto|].
    eapply extends_trans; [eapply bind_args_extends; [|eauto]; intros ? ? ? ? Hx; eapply IH, Hx|].
    eapply run_body_extends; [|eauto]; intros ? ? ? ? Hx; eapply IH, Hx.
  - apply bind_Ok_inv in H as (u & s1 & Har & H).
    apply arity_check_state in Har. subst.
    destruct (op =? "and")%string; [|destruct (op =? "or")%string].
    + apply bind_Ok_inv in H as (r & s2 & Hr & H). minv H.
      eapply (all_gen_extends (fun a => eval fuel a e)); [intros ? ? ? ? Hx; eapply IH, Hx | exact Hr].
    + apply bind_Ok_inv in H as (r & s2 & Hr & H). minv H.
      eapply (any_gen_extends (fun a => eval fuel a e)); [intros ? ? ? ? Hx; eapply IH, Hx | exact Hr].
    + apply bind_Ok_inv in H as (vs & s2 & Hvs & H).
      apply prim_state in H. subst. eapply (mapM_extends (fun a => eval fuel a e)); [intros ? ? ? ? Hx; eapply IH, Hx | exact Hvs].
  - apply bind_Ok_inv in H as (w & s1 & Hw & H).
    apply bind_Ok_inv in H as (line & s2 & Hline & H).
    apply bind_Ok_inv in H as ([] & s3 & Hpr & H). minv H.
    eapply extends_trans; [eauto|]. eapply extends_trans; [|eapply print_extends; eauto].
    destruct is_n; mauto; apply extends_refl.
Qed.

(** ** More fuel, same outcome

    [OutOfFuel] is the only outcome that depends on the fuel: whatever a
    computation gives with some fuel, it gives with more. *)

Lemma refines_refl {A} (c : M A) : refines c c.
Proof. now intros st _. Qed.

Lemma bind_refines {A B} (c1 c2 : M A) (k1 k2 : A -> M B) :
  refines c1 c2 -> (forall a, refines (k1 a) (k2 a)) ->
  refines (bind c1 k1) (bind c2 k2).
Proof.
  intros Hc Hk st Hne. unfold bind in *.
  destruct (c1 st) as [a s1| | | |] eqn:E; [| | | |now destruct Hne];
    rewrite (Hc st) by (rewrite E; discriminate); rewrite E;
    [now apply Hk | reflexivity..].
Qed.

Section LoopsFuel.
Context {A : Type} (f1 f2 : A -> M value).
Hypothesis f_refines : forall a, refines (f1 a) (f2 a).

Lemma mapM_refines l : refines (mapM f1 l) (mapM f2 l).
Proof.
  induction l as [|a l IH]; simpl; [apply refines_refl|].
  apply bind_refines; [apply f_refines|]. intros b.
  apply bind_refines; [apply IH|]. intros bs. apply refines_refl.
Qed.

Lemma all_gen_refines l :
  refines (all_gen (fun a => let* v := f1 a in check_bool v) l)
          (all_gen (fun a => let* v := f2 a in check_bool v) l).
Proof.
  induction l as [|a l IH]; simpl; [apply refines_refl|].
  apply bind_refines.
  - apply bind_refines; [apply f_refines|]. intros v. apply refines_refl.
  - intros []; [apply IH | apply refines_refl].
Qed.

Lemma any_gen_refines l :
  refines (any_gen (fun a => let* v := f1 a in check_bool v) l)
          (any_gen (fun a => let* v := f2 a in check_bool v) l).
Proof.
  induction l as [|a l IH]; simpl; [apply refines_refl|].
  apply bind_refines.
  - apply bind_refines; [apply f_refines|]. intros v. apply refines_refl.
  - intros []; [apply refines_refl | apply IH].
Qed.
End LoopsFuel.

Lemma bind_args_refines ev1 ev2 new_e l :
  (forall a, refines (ev1 a) (ev2 a)) ->
  refines (bind_args ev1 new_e l) (bind_args ev2 new_e l).
Proof.
  intros Hev. induction l as [|[n arg] l IH]; simpl; [apply refines_refl|].
  apply bind_refines; [apply Hev|]. intros v.
  destruct (key_of n); [|apply refines_refl].
  apply bind_refines; [apply refines_refl|]. intros _. apply IH.
Qed.

Lemma run_body_refines ev1 ev2 res body :
  (forall a, refines (ev1 a) (ev2 a)) ->
  refines (run_body ev1 res body) (run_body ev2 res body).
Proof.
  intros Hev. revert res. induction body as [|s body IH]; intros res; simpl;
    [apply refines_refl|].
  apply bind_refines; [apply Hev|]. intros v. apply IH.
Qed.

Lemma find_refines fuel : forall n e, refines (find fuel n e) (find (S fuel) n e).
Proof.
  induction fuel as [|fuel IH]; intros n e; [intros st H; now destruct H|].
  cbn [find]. apply bind_refines; [apply refines_refl|]. intros fr.
  destruct (vars fr !! inl n); [apply refines_refl|].
  destruct (par fr) as [p|]; [|apply refines_refl].
  apply bind_refines; [apply refines_refl|]. intros pf.
  destruct (truthy pf); [apply IH | apply refines_refl].
Qed.

Theorem eval_refines fuel : forall nd e, refines (eval fuel nd e) (eval (S fuel) nd e).
Proof.
  induction fuel as [|fuel IH]; intros nd e; [intros st H; now destruct H|].
  destruct nd as [c|x|n d|t a b|ps body|f args|op args|is_n x]; cbn [eval].
  - apply refines_refl.
  - apply find_refines.
  - destruct (key_of n) as [k|]; [|apply refines_refl].
    apply bind_refines; [apply refines_refl|]. intros fr.
    destruct (vars fr !! k); [apply refines_refl|].
    apply bind_refines; [apply IH|]. intros r. apply refines_refl.
  - apply bind_refines; [apply IH|]. intros c.
    apply bind_refines; [apply refines_refl|]. intros []; apply IH.
  - apply refines_refl.
  - apply bind_refines; [apply IH|]. intros fn.
    destruct fn as [| |ps body cenv|]; try apply refines_refl.
    destruct (negb _); [apply refines_refl|].
    apply bind_refines; [apply refines_refl|]. intros new_e.
    apply bind_refines.
    + apply bind_args_refines. intros a0. apply IH.
    + intros _. apply run_body_refines. intros s. apply IH.
  - apply bind_refines; [apply refines_refl|]. intros _.
    destruct (op =? "and")%string; [|destruct (op =? "or")%string].
    + apply bind_refines; [|intros r; apply refines_refl].
      apply (all_gen_refines (fun a => eval fuel a e) (fun a => eval (S fuel) a e)).
      intros a0. apply IH.
    + apply bind_refines; [|intros r; apply refines_refl].
      apply (any_gen_refines (fun a => eval fuel a e) (fun a => eval (S fuel) a e)).
      intros a0. apply IH.
    + apply bind_refines; [|intros vs; apply refines_refl].
      apply (mapM_refines (fun a => eval fuel a e) (fun a => eval (S fuel) a e)).
      intros a0. apply IH.
  - apply bind_refines; [apply IH|]. intros v. apply refines_refl.
Qed.

(** A result obtained with some fuel is obtained with any larger fuel. *)
Corollary eval_fuel_mono fuel fuel' nd e st v st' :
  (fuel <= fuel')%nat ->
  eval fuel nd e st = Ok v st' -> eval fuel' nd e st = Ok v st'.
Proof.
  induction 1 as [|m _ IH]; [trivial|].
  intros H. rewrite (eval_refines m nd e st); rewrite (IH H); [reflexivity | discriminate].
Qed.

(** ** Integer arithmetic *)

Lemma mapM_length {A B} (f : A -> M B) l st bs st' :
  mapM f l st = Ok bs st' -> length bs = length l.
Proof.
  revert st bs. induction l as [|a l IH]; intros st bs H; simpl in H.
  - minv H. reflexivity.
  - apply bind_Ok_inv in H as (b & s1 & Hb & H).
    apply bind_Ok_inv in H as (bs' & s2 & Hbs & H). minv H.
    simpl. f_equal. eauto.
Qed.

Lemma sum_nums_ints acc zs st :
  sum_nums acc (map VInt zs) st = Ok (acc + foldr Z.add 0 zs) st.
Proof.
  revert acc. induction zs as [|z zs IH]; intros acc; simpl.
  - unfold ret. f_equal. lia.
  - unfold bind at 1. simpl. rewrite IH. f_equal. lia.
Qed.

Lemma prod_nums_ints acc zs st :
  prod_nums acc (map VInt zs) st = Ok (acc * foldr Z.mul 1 zs) st.
Proof.
  revert acc. induction zs as [|z zs IH]; intros acc; simpl.
  - unfold ret. f_equal. lia.
  - unfold bind at 1. simpl. rewrite IH. f_equal. lia.
Qed.

(** An operator other than [and]/[or] with a legal number of operands
    evaluates them all, then applies [prim]. *)
Lemma eval_Op_prim fuel op args e st vs st' :
  arity_check op (length args) st = Ok tt st ->
  (op =? "and")%string = false -> (op =? "or")%string = false ->
  mapM (fun a => eval fuel a e) args st = Ok vs st' ->
  eval (S fuel) (Op op args) e st = prim op vs st'.
Proof.
  intros Har Hand Hor Hvs. simpl.
  rewrite (bind_Ok _ _ _ _ _ Har), Hand, Hor. now rewrite (bind_Ok _ _ _ _ _ Hvs).
Qed.

(** C10: [+], [-] and [*] on Int operands give the exact sum, difference and
    product in Z: Python's [int] is unbounded, nothing wraps at 64 bits and
    no overflow is reported, whatever the magnitude of the result. *)
Theorem int_arith_exact fuel e st st' args zs :
  mapM (fun a => eval fuel a e) args st = Ok (map VInt zs) st' ->
  (2 <= length args)%nat ->
  eval (S fuel) (Op "+" args) e st = Ok (VInt (foldr Z.add 0 zs)) st' /\
  eval (S fuel) (Op "*" args) e st = Ok (VInt (foldr Z.mul 1 zs)) st' /\
  (forall a b, zs = [a; b] ->
     eval (S fuel) (Op "-" args) e st = Ok (VInt (a - b)) st').
Proof.
  intros Hvs Hlen.
  assert (Hl : length zs = length args).
  { apply mapM_length in Hvs. now rewrite length_map in Hvs. }
  assert (Hlt : (length args <? 2)%nat = false) by (apply Nat.ltb_ge; lia).
  assert (Har : forall op, mem op ["+"; "*"; "="; "and"; "or"] = true ->
                 arity_check op (length args) st = Ok tt st).
  { intros op Hop. unfold arity_check. now rewrite Hop, Hlt. }
  split; [|split].
  - rewrite (eval_Op_prim fuel "+" args e st (map VInt zs) st');
      [|now apply Har|reflexivity|reflexivity|exact Hvs].
    unfold prim. simpl. now rewrite (bind_Ok _ _ _ _ _ (sum_nums_ints 0 zs st')).
  - rewrite (eval_Op_prim fuel "*" args e st (map VInt zs) st');
      [|now apply Har|reflexivity|reflexivity|exact Hvs].
    unfold prim. simpl. rewrite (bind_Ok _ _ _ _ _ (prod_nums_ints 1 zs st')).
    unfold ret. f_equal. f_equal. lia.
  - intros a b ->. simpl in Hl.
    rewrite (eval_Op_prim fuel "-" args e st [VInt a; VInt b] st');
      [reflexivity| |reflexivity|reflexivity|exact Hvs].
    unfold arity_check. simpl. now rewrite <- Hl.
Qed.

(** At the edge of the 64-bit range: 9223372036854775807 + 1,
    4611686018427387904 * 4 and -9223372036854775808 - 1. *)
Lemma int_arith_exact_witness :
  eval 2 (Op "+" [Val (CInt 9223372036854775807); Val (CInt 1)]) 0%nat init
    = Ok (VInt 9223372036854775808) init /\
  eval 2 (Op "*" [Val (CInt 4611686018427387904); Val (CInt 4)]) 0%nat init
    = Ok (VInt 18446744073709551616) init /\
  eval 2 (Op "-" [Val (CInt (-9223372036854775808)); Val (CInt 1)]) 0%nat init
    = Ok (VInt (-9223372036854775809)) init.
Proof.
  split; [|split].
  - refine (proj1 (int_arith_exact 1 0%nat init init
             [Val (CInt 9223372036854775807); Val (CInt 1)] [9223372036854775807; 1] _ _));
      [reflexivity | simpl; lia].
  - refine (proj1 (proj2 (int_arith_exact 1 0%nat init init
             [Val (CInt 4611686018427387904); Val (CInt 4)] [4611686018427387904; 4] _ _)));
      [reflexivity | simpl; lia].
  - refine (proj2 (proj2 (int_arith_exact 1 0%nat init init
             [Val (CInt (-9223372036854775808)); Val (CInt 1)] [-9223372036854775808; 1] _ _))
             _ _ eq_refl);
      [reflexivity | simpl; lia].
Defined.

(** ** Short-circuit evaluation of [and] and [or] *)

Lemma all_gen_stops fuel e pre a post st st1 st2 :
  evals_to_bool fuel e true pre st st1 ->
  eval fuel a e st1 = Ok (VBool false) st2 ->
  all_gen (fun x => let* v := eval fuel x e in check_bool v) (pre ++ a :: post) st
    = Ok false st2.
Proof.
  revert st. induction pre as [|p pre IH]; intros st Hpre Ha; simpl in *.
  - subst. unfold bind at 1. unfold bind at 1. now rewrite Ha.
  - destruct Hpre as (s1 & Hp & Hpre).
    unfold bind at 1. unfold bind at 1. rewrite Hp. simpl. eauto.
Qed.

Lemma any_gen_stops fuel e pre a post st st1 st2 :
  evals_to_bool fuel e false pre st st1 ->
  eval fuel a e st1 = Ok (VBool true) st2 ->
  any_gen (fun x => let* v := eval fuel x e in check_bool v) (pre ++ a :: post) st
    = Ok true st2.
Proof.
  revert st. induction pre as [|p pre IH]; intros st Hpre Ha; simpl in *.
  - subst. unfold bind at 1. unfold bind at 1. now rewrite Ha.
  - destruct Hpre as (s1 & Hp & Hpre).
    unfold bind at 1. unfold bind at 1. rewrite Hp. simpl. eauto.
Qed.

(** C9: [and] and [or] evaluate their operands from the left and stop at the
    first false (for [and]) or true (for [or]) operand: whatever the later
    operands [post] are, they are not evaluated; the result is that Bool and
    the state (heap and output) is the one left by the deciding operand. *)
Theorem and_or_short_circuit fuel e pre a post st st1 st2 :
  (2 <= length (pre ++ a :: post))%nat ->
  (evals_to_bool fuel e true pre st st1 ->
   eval fuel a e st1 = Ok (VBool false) st2 ->
   eval (S fuel) (Op "and" (pre ++ a :: post)) e st = Ok (VBool false) st2) /\
  (evals_to_bool fuel e false pre st st1 ->
   eval fuel a e st1 = Ok (VBool true) st2 ->
   eval (S fuel) (Op "or" (pre ++ a :: post)) e st = Ok (VBool true) st2).
Proof.
  intros Hlen.
  assert (Hlt : (length (pre ++ a :: post) <? 2)%nat = false) by (apply Nat.ltb_ge; lia).
  split; intros Hpre Ha; cbn [eval]; unfold arity_check; simpl mem; cbv iota;
    rewrite Hlt; unfold bind at 1; unfold ret at 1; cbn [String.eqb Ascii.eqb Bool.eqb].
  - now rewrite (bind_Ok _ _ _ _ _ (all_gen_stops _ _ _ _ post _ _ _ Hpre Ha)).
  - now rewrite (bind_Ok _ _ _ _ _ (any_gen_stops _ _ _ _ post _ _ _ Hpre Ha)).
Qed.

(** [(and #t (< 2 1) (print-num 1) (/ 1 0) x)] is false and
    [(or #f #t (print-num 1) (/ 1 0) x)] is true: nothing is printed, no
    error is raised. *)
Lemma and_or_short_circuit_witness :
  let post := [Print true (Val (CInt 1)); Op "/" [Val (CInt 1); Val (CInt 0)]; Var "x"] in
  eval 3 (Op "and" ([Val (CBool true)] ++ Op "<" [Val (CInt 2); Val (CInt 1)] :: post))
       0%nat init = Ok (VBool false) init /\
  eval 3 (Op "or" ([Val (CBool false)] ++ Val (CBool true) :: post))
       0%nat init = Ok (VBool true) init.
Proof.
  intros post. split.
  - refine (proj1 (and_or_short_circuit 2 0%nat [Val (CBool true)]
                     (Op "<" [Val (CInt 2); Val (CInt 1)]) post init init init _) _ _).
    + simpl; lia.
    + exists init. split; reflexivity.
    + reflexivity.
  - refine (proj2 (and_or_short_circuit 2 0%nat [Val (CBool false)]
                     (Val (CBool true)) post init init init _) _ _).
    + simpl; lia.
    + exists init. split; reflexivity.
    + reflexivity.
Defined.

(** ** Define *)

(** C8: [Define(n, e)] where [n] is bound in the current frame ends with
    [Error: Redefining n is not allowed.] whatever [e] is ([e] is not
    evaluated: the output is that of the state before, plus the message).
    Where [n] is not bound in the current frame (bound in an ancestor or
    nowhere) the define is not refused: [e] is evaluated; when it evaluates
    to [r], the binding is added to the current frame, whose parent is
    unchanged, and a lookup of [n] through this frame gives [r], whatever the
    ancestors bind; when [e] ends otherwise, so does the define. *)
Theorem define_semantics fuel n k v e st fr :
  key_of n = Some k ->
  heap st !! e = Some fr ->
  (forall x, vars fr !! k = Some x ->
     eval (S fuel) (Def n v) e st
       = Exit (out st ++ ["Error: Redefining " +:+ str_sexp n +:+ " is not allowed."])) /\
  (forall r st1, vars fr !! k = None ->
     eval fuel v e st = Ok r st1 ->
     exists fr1, heap st1 !! e = Some fr1 /\ par fr1 = par fr /\
       let st2 := {| heap := <[e := {| vars := <[k := r]> (vars fr1); par := par fr1 |}]>
                               (heap st1);
                     out := out st1 |} in
       eval (S fuel) (Def n v) e st = Ok VNone st2 /\
       forall s f', n = SSym s -> find (S f') s e st2 = Ok r st2) /\
  (vars fr !! k = None ->
     (forall r st1, eval fuel v e st <> Ok r st1) ->
     eval (S fuel) (Def n v) e st = eval fuel v e st).
Proof.
  intros Hk Hfr. split; [|split].
  - intros x Hx. simpl. rewrite Hk. unfold bind, get_frame. rewrite Hfr, Hx. reflexivity.
  - intros r st1 Hnone Hv.
    destruct (eval_extends _ _ _ _ _ _ Hv) as [_ Hext].
    destruct (Hext _ _ Hfr) as (fr1 & Hfr1 & Hpar).
    exists fr1. split; [done|]. split; [done|]. intros st2. split.
    + simpl. rewrite Hk. unfold bind at 1. unfold get_frame at 1. rewrite Hfr, Hnone.
      rewrite (bind_Ok _ _ _ _ _ Hv). unfold bind, set_item. rewrite Hfr1. reflexivity.
    + intros s f' ->. simpl in Hk. inversion Hk; subst k. simpl.
      unfold bind, get_frame. subst st2. cbn [heap].
      rewrite list_lookup_insert_eq by (eapply lookup_lt_Some; eauto).
      cbn [vars]. now rewrite lookup_insert_eq.
  - intros Hnone Hv. simpl. rewrite Hk. unfold bind at 1. unfold get_frame at 1.
    rewrite Hfr, Hnone. unfold bind at 1.
    destruct (eval fuel v e st) as [r s1| | | |]; [now destruct (Hv r s1) | reflexivity..].
Qed.

(** A global frame binding [x] and an empty child frame: [(define x ...)] is
    refused in the first without printing 7, and accepted in the second,
    where [x] is then 2; [(define x (/ 1 0))] in the second ends as the
    division does. *)
Lemma define_semantics_witness :
  let st := {| heap := [ {| vars := {[ inl "x" := VInt 1 ]}; par := None |};
                         {| vars := ∅; par := Some 0%nat |} ];
               out := [] |} in
  eval 3 (Def (SSym "x") (Print true (Val (CInt 7)))) 0%nat st
    = Exit ["Error: Redefining x is not allowed."] /\
  (exists st2, eval 3 (Def (SSym "x") (Val (CInt 2))) 1%nat st = Ok VNone st2 /\
               find 1 "x" 1%nat st2 = Ok (VInt 2) st2) /\
  eval 3 (Def (SSym "x") (Op "/" [Val (CInt 1); Val (CInt 0)])) 1%nat st
    = Exit ["Error: Division by zero"].
Proof.
  intros st. split; [|split].
  - refine (proj1 (define_semantics 2 (SSym "x") (inl "x") _ 0%nat st
                     {| vars := {[ inl "x" := VInt 1 ]}; par := None |} _ _) (VInt 1) _);
      reflexivity.
  - destruct (proj1 (proj2 (define_semantics 2 (SSym "x") (inl "x") (Val (CInt 2)) 1%nat st
                              {| vars := ∅; par := Some 0%nat |} eq_refl eq_refl))
                    (VInt 2) st eq_refl eq_refl) as (fr1 & _ & _ & Hdef & Hfind).
    eexists. split; [exact Hdef | exact (Hfind "x" 0%nat eq_refl)].
  - rewrite (proj2 (proj2 (define_semantics 2 (SSym "x") (inl "x")
                             (Op "/" [Val (CInt 1); Val (CInt 0)]) 1%nat st
                             {| vars := ∅; par := Some 0%nat |} eq_refl eq_refl)) eq_refl);
      [reflexivity | discriminate].
Defined.

(** ** Calls: arity and lexical scope *)

Lemma eval_Call_closure fuel f args e st ps body ce st1 :
  eval fuel f e st = Ok (VClosure ps body ce) st1 ->
  eval (S fuel) (Call f args) e st =
    if (length args =? length ps)%nat then invoke fuel ps body ce args e st1
    else Exit (out st1 ++ [need_message (length ps) (length args)]).
Proof.
  intros Hf. cbn [eval]. rewrite (bind_Ok _ _ _ _ _ Hf).
  destruct (length args =? length ps)%nat; reflexivity.
Qed.

(** C7, as the code has it: with [M <> N] the call ends with exactly
    [Need N arguments, but got M.], and the output before the message is the
    one left by the callee expression, whatever the arguments are (none is
    evaluated); with [M = N] the outcome of the call is the outcome of binding
    the arguments and running the body; so a result implies [M = N]. *)
Theorem call_arity fuel f args e st ps body ce st1 :
  eval fuel f e st = Ok (VClosure ps body ce) st1 ->
  (length args <> length ps ->
     eval (S fuel) (Call f args) e st
       = Exit (out st1 ++ [need_message (length ps) (length args)])) /\
  (length args = length ps ->
     eval (S fuel) (Call f args) e st = invoke fuel ps body ce args e st1) /\
  (forall r st', eval (S fuel) (Call f args) e st = Ok r st' ->
     length args = length ps).
Proof.
  intros Hf. rewrite (eval_Call_closure _ _ _ _ _ _ _ _ _ Hf).
  destruct (length args =? length ps)%nat eqn:E.
  - apply Nat.eqb_eq in E. repeat split; [congruence | auto].
  - apply Nat.eqb_neq in E. repeat split; [congruence | discriminate].
Qed.

(** [((fun (x) x) 1 2)]: the message is [Need 1 arguments, but got 2.];
    [((fun (x) x) (print-num 5))] with a printing argument and two
    parameters missing: nothing but the message is printed. *)
Lemma call_arity_witness :
  eval 2 (Call (Fun [SSym "x"] [Var "x"]) [Val (CInt 1); Val (CInt 2)]) 0%nat init
    = Exit ["Need 1 arguments, but got 2."] /\
  eval 2 (Call (Fun [SSym "x"; SSym "y"; SSym "z"] [Var "x"]) [Print true (Val (CInt 5))])
       0%nat init
    = Exit ["Need 3 arguments, but got 1."] /\
  eval 4 (Call (Fun [SSym "x"] [Var "x"]) [Val (CInt 1)]) 0%nat init
    = Ok (VInt 1) {| heap := [ {| vars := ∅; par := None |};
                               {| vars := {[ inl "x" := VInt 1 ]}; par := Some 0%nat |} ];
                     out := [] |} /\
  length [Val (CInt 1)] = length [SSym "x"].
Proof.
  split; [|split; [|split]].
  - refine (proj1 (call_arity 1 (Fun [SSym "x"] [Var "x"]) [Val (CInt 1); Val (CInt 2)]
                     0%nat init [SSym "x"] [Var "x"] 0%nat init _) _);
      [reflexivity | simpl; lia].
  - refine (proj1 (call_arity 1 (Fun [SSym "x"; SSym "y"; SSym "z"] [Var "x"])
                     [Print true (Val (CInt 5))]
                     0%nat init [SSym "x"; SSym "y"; SSym "z"] [Var "x"] 0%nat init _) _);
      [reflexivity | simpl; lia].
  - rewrite (proj1 (proj2 (call_arity 3 (Fun [SSym "x"] [Var "x"]) [Val (CInt 1)]
                     0%nat init [SSym "x"] [Var "x"] 0%nat init eq_refl)) eq_refl).
    reflexivity.
  - refine (proj2 (proj2 (call_arity 3 (Fun [SSym "x"] [Var "x"]) [Val (CInt 1)]
                     0%nat init [SSym "x"] [Var "x"] 0%nat init eq_refl))
                  (VInt 1) _ _).
    reflexivity.
Defined.

(** C7 as the specification states it: its "if and only if" fails from
    right to left. In
    [((fun (x) (/ x 0)) 1)] one argument meets one parameter, and the call
    ends with [Error: Division by zero]; no amount of fuel gives a result. *)
Lemma call_arity_not_sufficient :
  let body := [Op "/" [Var "x"; Val (CInt 0)]] in
  let call := Call (Fun [SSym "x"] body) [Val (CInt 1)] in
  length [Val (CInt 1)] = length [SSym "x"] /\
  eval 5 call 0%nat init = Exit ["Error: Division by zero"] /\
  ~ exists fuel r st', eval fuel call 0%nat init = Ok r st'.
Proof.
  intros body call. split; [reflexivity|]. split; [reflexivity|].
  intros (fuel & r & st' & H).
  do 5 (destruct fuel as [|fuel]; [discriminate H|]).
  vm_compute in H. discriminate H.
Qed.

Lemma args_bound_length fuel e new_e ps args st st' :
  args_bound fuel e new_e ps args st st' -> length args = length ps.
Proof. induction 1; simpl; congruence. Qed.

Lemma args_bound_bind_args fuel e new_e ps args st st' :
  args_bound fuel e new_e ps args st st' ->
  bind_args (fun a => eval fuel a e) new_e (zip ps args) st = Ok tt st'.
Proof.
  induction 1 as [st|p ps a args k v st s1 s2 s3 Ha Hk Hset _ IH]; simpl; [reflexivity|].
  rewrite (bind_Ok _ _ _ _ _ Ha), Hk. now rewrite (bind_Ok _ _ _ _ _ Hset).
Qed.

Lemma alloc_lookup st ce :
  heap (alloc st ce) !! length (heap st) = Some {| vars := ∅; par := Some ce |}.
Proof. unfold alloc. cbn [heap]. now rewrite list_lookup_middle. Qed.

Lemma truthy_lookup fr k (v : value) : vars fr !! k = Some v -> truthy fr = true.
Proof.
  intros H. unfold truthy. apply negb_true_iff, Nat.eqb_neq.
  apply map_size_ne_0_lookup. eauto.
Qed.

(** What [Fun.eval] and [Call.eval] build: a [fun] evaluates, without
    touching the state, to a closure that holds the reference [e] of the
    environment it is evaluated in. A call of a closure that holds [ce], made
    in any environment [e], evaluates the arguments in [e] from the left,
    binds them in a fresh frame whose parent is [ce] and stays [ce], and runs
    the body in that frame. *)
Lemma call_frame fuel :
  (forall ps body e st,
     eval (S fuel) (Fun ps body) e st = Ok (VClosure ps body e) st) /\
  (forall f args e st ps body ce st1 st2,
     eval fuel f e st = Ok (VClosure ps body ce) st1 ->
     args_bound fuel e (length (heap st1)) ps args (alloc st1 ce) st2 ->
     (exists fr, heap st2 !! length (heap st1) = Some fr /\ par fr = Some ce) /\
     eval (S fuel) (Call f args) e st
       = run_body (fun s => eval fuel s (length (heap st1))) VNone body st2).
Proof.
  split; [reflexivity|].
  intros f args e st ps body ce st1 st2 Hf Hargs. split.
  - pose proof (args_bound_bind_args _ _ _ _ _ _ _ Hargs) as Hb.
    apply bind_args_extends in Hb; [|intros ? ? ? ?; apply eval_extends].
    destruct Hb as [_ Hb]. destruct (Hb _ _ (alloc_lookup st1 ce)) as (fr & Hfr & Hp).
    exists fr. split; [exact Hfr | exact Hp].
  - rewrite (eval_Call_closure _ _ _ _ _ _ _ _ _ Hf).
    rewrite (args_bound_length _ _ _ _ _ _ _ Hargs), Nat.eqb_refl.
    unfold invoke. unfold bind at 1. unfold new_env at 1. fold (alloc st1 ce).
    now rewrite (bind_Ok _ _ _ _ _ (args_bound_bind_args _ _ _ _ _ _ _ Hargs)).
Qed.

(** C1, where the code departs from it. The frame of a call is built as the
    claim says, with the captured environment as its parent, but the body
    does not always see that environment's chain: [Env] is a dict, and
    [if self.par:] in [Env.find] tests the truth value of the parent frame,
    so a lookup stops at a parent that holds no binding, whatever the frames
    beyond it bind, and goes on in a parent that holds one. The frame of a
    call without parameters and defines is empty, and a closure built in it
    is cut off from the outer bindings.

    In the first program [f] is built in the frame of the call [(mk)], which
    is empty and whose parent is the global frame, where [x] is 1; [f] is
    called from the frame of [g], where [x] is 2. By the claim the body of
    [f] sees 1 through the chain of its definition site; the interpreter ends
    with [Error: Variable x not defined]. The second program differs in that
    the frame of [mk] holds bindings: there the body sees the [x] and the
    [y] of the definition site, through two frames, and 11 is printed (the
    [x] of the call site would give 12). *)
Theorem closure_scope_stops_at_empty_frame :
  let failing :=
    "(define x 1) (define mk (fun () (fun () x))) (define f (mk)) (define g (fun (x) (f))) (print-num (g 2))" in
  let sibling :=
    "(define x 1) (define mk (fun (u) (define y 10) (fun () (+ x y)))) (define f (mk 0)) (define g (fun (x) (f))) (print-num (g 2))" in
  (forall fuel n e st fr p pfr,
     heap st !! e = Some fr -> vars fr !! inl n = None ->
     par fr = Some p -> heap st !! p = Some pfr -> vars pfr = ∅ ->
     find (S fuel) n e st
       = Exit (out st ++ ["Error: Variable " +:+ n +:+ " not defined"])) /\
  (forall fuel n e st fr p pfr k v,
     heap st !! e = Some fr -> vars fr !! inl n = None ->
     par fr = Some p -> heap st !! p = Some pfr -> vars pfr !! k = Some v ->
     find (S fuel) n e st = find fuel n p st) /\
  stdout (main 8 failing) = Some ["Error: Variable x not defined"] /\
  (exists defs st fr0,
     parse_prog (tokenize failing)
       = POk (defs ++ [Print true (Call (Var "g") [Val (CInt 2)])]) /\
     run_nodes 8 defs init = Ok tt st /\
     heap st !! 0%nat = Some fr0 /\
     vars fr0 !! inl "x" = Some (VInt 1) /\
     vars fr0 !! inl "f" = Some (VClosure [] [Var "x"] 1%nat) /\
     heap st !! 1%nat = Some {| vars := ∅; par := Some 0%nat |}) /\
  stdout (main 8 sibling) = Some ["11"].
Proof.
  cbv zeta. split; [|split; [|split; [|split]]].
  - intros fuel n e st fr p pfr Hfr Hn Hpar Hp Hempty.
    cbn [find]. unfold bind at 1. unfold get_frame at 1. rewrite Hfr, Hn, Hpar.
    unfold bind at 1. unfold get_frame at 1. rewrite Hp.
    unfold truthy. rewrite Hempty. reflexivity.
  - intros fuel n e st fr p pfr k v Hfr Hn Hpar Hp Hk.
    cbn [find]. unfold bind at 1. unfold get_frame at 1. rewrite Hfr, Hn, Hpar.
    unfold bind at 1. unfold get_frame at 1. rewrite Hp.
    now rewrite (truthy_lookup _ _ _ Hk).
  - vm_compute. reflexivity.
  - exists [Def (SSym "x") (Val (CInt 1));
            Def (SSym "mk") (Fun [] [Fun [] [Var "x"]]);
            Def (SSym "f") (Call (Var "mk") []);
            Def (SSym "g") (Fun [SSym "x"] [Call (Var "f") []])].
    eexists. eexists. split; [vm_compute; reflexivity|].
    split; [vm_compute; reflexivity|].
    split; [reflexivity|]. split; [vm_compute; reflexivity|].
    split; [vm_compute; reflexivity | reflexivity].
  - vm_compute. reflexivity.
Qed.

(** The lookup of [x] from the frame in which the body of [f] runs in the
    first program: frame 2, empty, whose parent is the captured frame 1;
    frame 1 is empty and its parent, the global frame, binds [x]. *)
Lemma closure_scope_stops_at_empty_frame_witness :
  let st := {| heap := [ {| vars := {[ inl "x" := VInt 1 ]}; par := None |};
                         {| vars := ∅; par := Some 0%nat |};
                         {| vars := ∅; par := Some 1%nat |} ];
               out := [] |} in
  find 3 "x" 2%nat st = Exit ["Error: Variable x not defined"] /\
  find 3 "x" 1%nat st = Ok (VInt 1) st.
Proof.
  intros st. split.
  - apply (proj1 closure_scope_stops_at_empty_frame 2%nat "x"%string 2%nat st
             {| vars := ∅; par := Some 1%nat |} 1%nat {| vars := ∅; par := Some 0%nat |});
      reflexivity.
  - rewrite (proj1 (proj2 closure_scope_stops_at_empty_frame) 2%nat "x"%string 1%nat st
               {| vars := ∅; par := Some 0%nat |} 0%nat
               {| vars := {[ inl "x" := VInt 1 ]}; par := None |} (inl "x") (VInt 1));
      [reflexivity | reflexivity | reflexivity | reflexivity | reflexivity | vm_compute; reflexivity].
Defined.

(** ** Division and remainder *)

(** A zero divisor is reported before the dividend is looked at. *)
Lemma div_by_zero v1 st :
  prim "/" [v1; VInt 0] st = Exit (out st ++ ["Error: Division by zero"]).
Proof. reflexivity. Qed.

(** C2, at an input where the code departs from it: [(/ 13510798882111490 3)].
    The exact quotient is 4503599627370496.66..., truncated 4503599627370496;
    [a / b] is the binary64 nearest to it, 4503599627370497.0 (between 2^52
    and 2^53 the binary64 numbers are the integers), and [int] of that is
    what the interpreter returns. Both operands fit in 64 bits. *)
Theorem div_rounds_through_float :
  eval 2 (Op "/" [Val (CInt 13510798882111490); Val (CInt 3)]) 0%nat init
    = Ok (VInt 4503599627370497) init /\
  Z.quot 13510798882111490 3 = 4503599627370496 /\
  stdout (main 3 "(print-num (/ 13510798882111490 3))") = Some ["4503599627370497"] /\
  eval 2 (Op "/" [Val (CInt 9007199254740993); Val (CInt 1)]) 0%nat init
    = Ok (VInt 9007199254740992) init.
Proof. repeat split; vm_compute; reflexivity. Qed.

(** *** Where the division is exact

    The rounding of [a / b] cannot reach the next integer as long as the
    dividend has at most 53 bits. *)

Lemma round_half_even_bounds n d :
  0 < d ->
  let m := PyNum.round_half_even n d in
  n / d <= m <= n / d + 1 /\ (m = n / d + 1 -> d <= 2 * (n mod d)).
Proof.
  intros Hd m. subst m. unfold PyNum.round_half_even.
  destruct (2 * (n mod d) <? d) eqn:E1; [lia|].
  apply Z.ltb_ge in E1.
  destruct (d <? 2 * (n mod d)); [lia|].
  destruct (Z.even (n / d)); lia.
Qed.

(** Rounding [n * 2^k / d] to an integer does not reach the next multiple
    of [2^k] when [d < 2^(k+1)]. *)
Lemma round_scaled_floor n d k :
  0 <= n -> 0 < d -> 0 < k -> d < 2 ^ (k + 1) ->
  PyNum.round_half_even (n * 2 ^ k) d / 2 ^ k = n / d.
Proof.
  intros Hn Hd Hk Hlt.
  assert (HP : 0 < 2 ^ k) by (apply Z.pow_pos_nonneg; lia).
  replace (2 ^ (k + 1)) with (2 * 2 ^ k) in Hlt by (rewrite Z.pow_add_r by lia; lia).
  set (P := 2 ^ k) in *.
  destruct (round_half_even_bounds (n * P) d Hd) as [[Hlo Hhi] Hup].
  set (m := PyNum.round_half_even (n * P) d) in *.
  pose proof (Z.div_mod n d ltac:(lia)) as En.
  pose proof (Z.mod_pos_bound n d Hd) as Br.
  pose proof (Z.div_mod (n * P) d ltac:(lia)) as EN.
  pose proof (Z.mod_pos_bound (n * P) d Hd) as BR.
  set (q := n / d) in *. set (r := n mod d) in *.
  set (Q := n * P / d) in *. set (R := (n * P) mod d) in *.
  assert (HQlo : q * P <= Q).
  { apply Z.div_le_lower_bound; [lia|]. nia. }
  assert (HQhi : Q < (q + 1) * P).
  { apply Z.div_lt_upper_bound; [lia|]. nia. }
  symmetry. apply (Z.div_unique m P q (m - P * q)); [|lia].
  left. split; [nia|].
  destruct (Z.eq_dec m (Q + 1)) as [Em|Em]; [|nia].
  specialize (Hup Em).
  destruct (Z.eq_dec (Q + 1) ((q + 1) * P)) as [Eb|Eb]; [|nia].
  exfalso.
  assert (H1 : d * Q = d * ((q + 1) * P) - d) by nia.
  assert (H2 : (d - r) * P <= d - R) by nia.
  assert (H3 : P <= (d - r) * P) by nia.
  lia.
Qed.

Lemma pow2_split a b : 0 <= a -> 0 <= b -> 2 ^ (a + b) = 2 ^ a * 2 ^ b.
Proof. intros. now apply Z.pow_add_r. Qed.

Lemma log2_bounds n : 0 < n -> 2 ^ Z.log2 n <= n < 2 * 2 ^ Z.log2 n.
Proof.
  intros Hn. pose proof (Z.log2_spec n Hn) as H. pose proof (Z.log2_nonneg n).
  unfold Z.succ in H. rewrite pow2_split in H by lia. lia.
Qed.

(** [quotient_exponent] is the exponent of the quotient: from below ... *)
Lemma quotient_exponent_lower n d :
  0 < n -> 0 < d ->
  let ex := PyNum.quotient_exponent n d in
  (0 <= ex -> d * 2 ^ ex <= n) /\ (ex < 0 -> d <= n * 2 ^ (- ex)).
Proof.
  intros Hn Hd. unfold PyNum.quotient_exponent.
  pose proof (log2_bounds n Hn) as Bn. pose proof (log2_bounds d Hd) as Bd.
  pose proof (Z.log2_nonneg n) as Ln. pose proof (Z.log2_nonneg d) as Ld.
  set (ln := Z.log2 n) in *. set (ld := Z.log2 d) in *.
  assert (Pn : 0 < 2 ^ ln) by (apply Z.pow_pos_nonneg; lia).
  assert (Pd : 0 < 2 ^ ld) by (apply Z.pow_pos_nonneg; lia).
  destruct (0 <=? ln - ld) eqn:E0.
  - apply Z.leb_le in E0.
    destruct (d * 2 ^ (ln - ld) <=? n) eqn:E1.
    + apply Z.leb_le in E1. split; [intros _; exact E1 | lia].
    + apply Z.leb_gt in E1. split.
      * intros Hex.
        assert (Hs : 2 ^ ln = 2 * 2 ^ ld * 2 ^ (ln - ld - 1)).
        { replace ln with ((ld + 1) + (ln - ld - 1)) at 1 by lia.
          rewrite pow2_split by lia. rewrite (pow2_split ld 1) by lia. lia. }
        assert (0 < 2 ^ (ln - ld - 1)) by (apply Z.pow_pos_nonneg; lia).
        nia.
      * intros Hex. assert (E : ln - ld = 0) by lia.
        replace (- (ln - ld - 1)) with 1 by lia.
        assert (2 ^ ln = 2 ^ ld) by (f_equal; lia). change (2 ^ 1) with 2. lia.
  - apply Z.leb_gt in E0.
    destruct (d <=? n * 2 ^ (- (ln - ld))) eqn:E1.
    + apply Z.leb_le in E1. split; [lia | intros _; exact E1].
    + split; [lia|]. intros _.
      assert (Hs : 2 ^ ln * 2 ^ (- (ln - ld - 1)) = 2 * 2 ^ ld).
      { rewrite <- pow2_split by lia. replace (ln + - (ln - ld - 1)) with (ld + 1) by lia.
        rewrite pow2_split by lia. lia. }
      assert (0 < 2 ^ (- (ln - ld - 1))) by (apply Z.pow_pos_nonneg; lia).
      nia.
Qed.

(** ... and from above, for a quotient below 1. *)
Lemma quotient_exponent_upper n d :
  0 < n -> 0 < d ->
  let ex := PyNum.quotient_exponent n d in
  ex < 0 -> n * 2 ^ (- ex) < 2 * d.
Proof.
  intros Hn Hd. unfold PyNum.quotient_exponent.
  pose proof (log2_bounds n Hn) as Bn. pose proof (log2_bounds d Hd) as Bd.
  pose proof (Z.log2_nonneg n) as Ln. pose proof (Z.log2_nonneg d) as Ld.
  set (ln := Z.log2 n) in *. set (ld := Z.log2 d) in *.
  destruct (0 <=? ln - ld) eqn:E0.
  - apply Z.leb_le in E0.
    destruct (d * 2 ^ (ln - ld) <=? n) eqn:E1; [simpl; lia|].
    apply Z.leb_gt in E1. simpl. intros Hex.
    assert (E : ln - ld = 0) by lia. rewrite E in *.
    replace (- (0 - 1)) with 1 by lia. change (2 ^ 1) with 2. change (2 ^ 0) with 1 in E1. lia.
  - apply Z.leb_gt in E0.
    assert (Hs : 2 * 2 ^ ln * 2 ^ (- (ln - ld)) = 2 * 2 ^ ld).
    { rewrite <- Z.mul_assoc, <- pow2_split by lia. do 2 f_equal. lia. }
    assert (0 < 2 ^ (- (ln - ld))) by (apply Z.pow_pos_nonneg; lia).
    destruct (d <=? n * 2 ^ (- (ln - ld))) eqn:E1; simpl; intros _.
    + nia.
    + apply Z.leb_gt in E1.
      replace (- (ln - ld - 1)) with (1 + - (ln - ld)) by lia.
      rewrite pow2_split by lia. change (2 ^ 1) with 2. lia.
Qed.

Lemma round_half_even_nonneg n d : 0 <= n -> 0 < d -> 0 <= PyNum.round_half_even n d.
Proof.
  intros Hn Hd. destruct (round_half_even_bounds n d Hd) as [[Hlo _] _].
  pose proof (Z.div_pos n d Hn Hd). lia.
Qed.

Lemma round_half_even_1 n : PyNum.round_half_even n 1 = n.
Proof.
  unfold PyNum.round_half_even. rewrite Z.mod_1_r, Z.div_1_r. reflexivity.
Qed.

(** The magnitude of the binary64 quotient of a dividend below [2 ^ 53],
    truncated, is the integer quotient. *)
Lemma round_scaled_small n d :
  0 < n < 2 ^ 53 -> 0 < d ->
  let s := Z.max (PyNum.quotient_exponent n d - 52) (-1074) in
  let m := PyNum.round_scaled n d s in
  0 <= m /\ (0 <= s -> s = 0 /\ m = n / d) /\ (s < 0 -> m / 2 ^ (- s) = n / d).
Proof.
  intros [Hn Hn53] Hd.
  pose proof (quotient_exponent_lower n d Hn Hd) as [Hlo0 Hlo1].
  pose proof (quotient_exponent_upper n d Hn Hd) as Hup.
  assert (Hle : PyNum.quotient_exponent n d <= Z.log2 n - Z.log2 d).
  { unfold PyNum.quotient_exponent.
    destruct (if 0 <=? _ then _ else _); lia. }
  assert (Hln : Z.log2 n < 53) by (apply Z.log2_lt_pow2; lia).
  pose proof (Z.log2_nonneg d) as Hld.
  pose proof (log2_bounds d Hd) as Bd.
  cbv zeta in *. set (ex := PyNum.quotient_exponent n d) in *.
  unfold PyNum.round_scaled.
  destruct (Z.max_spec (ex - 52) (-1074)) as [[Hc ->]|[Hc ->]].
  - (* the subnormal range *)
    change (0 <=? -1074) with false. cbv iota. change (- -1074) with 1074.
    assert (Hex : ex < 0) by lia. specialize (Hup Hex).
    assert (Hp : 2 <= 2 ^ (- ex)).
    { change 2 with (2 ^ 1) at 1. apply Z.pow_le_mono_r; lia. }
    assert (Hq : n / d = 0) by (apply Z.div_small; nia).
    assert (Hm : PyNum.round_half_even (n * 2 ^ 1074) d <= 2 ^ 52).
    { destruct (round_half_even_bounds (n * 2 ^ 1074) d Hd) as [[_ Hhi] _].
      assert (n * 2 ^ 1074 / d < 2 ^ 52); [|lia].
      apply Z.div_lt_upper_bound; [lia|].
      assert (2 ^ 1074 <= 2 ^ (- ex) * 2 ^ 51).
      { rewrite <- pow2_split by lia. apply Z.pow_le_mono_r; lia. }
      change (2 ^ 52) with (2 * 2 ^ 51). nia. }
    pose proof (round_half_even_nonneg (n * 2 ^ 1074) d ltac:(lia) Hd) as Hm0.
    split; [exact Hm0|]. split; [lia|]. intros _.
    rewrite Hq. apply Z.div_small. split; [exact Hm0|].
    assert (2 ^ 52 < 2 ^ 1074) by (apply Z.pow_lt_mono_r; lia). lia.
  - destruct (0 <=? ex - 52) eqn:Es.
    + (* 2^52 <= n / d: the divisor is 1 *)
      apply Z.leb_le in Es.
      assert (Eex : ex = 52) by lia. assert (Eld : Z.log2 d = 0) by lia.
      rewrite Eld in Bd. change (2 ^ 0) with 1 in Bd.
      assert (d = 1) by lia. subst d. rewrite Eex. change (52 - 52) with 0.
      change (1 * 2 ^ 0) with 1. rewrite round_half_even_1, Z.div_1_r.
      split; [lia|]. split; [auto | lia].
    + apply Z.leb_gt in Es.
      assert (Hk : 0 < - (ex - 52)) by lia.
      assert (Hd53 : d < 2 ^ (- (ex - 52) + 1)).
      { replace (- (ex - 52) + 1) with (53 - ex) by lia.
        destruct (Z_lt_le_dec ex 0) as [Hneg|Hpos].
        - specialize (Hlo1 Hneg).
          replace (53 - ex) with (53 + - ex) by lia. rewrite pow2_split by lia.
          assert (0 < 2 ^ (- ex)) by (apply Z.pow_pos_nonneg; lia). nia.
        - specialize (Hlo0 Hpos).
          assert (E : 2 ^ 53 = 2 ^ ex * 2 ^ (53 - ex)).
          { rewrite <- pow2_split by lia. f_equal. lia. }
          assert (0 < 2 ^ ex) by (apply Z.pow_pos_nonneg; lia).
          assert (0 < 2 ^ (53 - ex)) by (apply Z.pow_pos_nonneg; lia). nia. }
      split; [apply round_half_even_nonneg; [|exact Hd];
              apply Z.mul_nonneg_nonneg; [lia | apply Z.pow_nonneg; lia]|].
      split; [lia|]. intros _.
      apply round_scaled_floor; [lia | exact Hd | exact Hk | exact Hd53].
Qed.

(** Within 53 bits the division is exact: for a dividend below [2 ^ 53] in
    magnitude, [int(a / b)] is the quotient truncated toward zero. *)
Lemma truediv_small a b :
  Z.abs a < 2 ^ 53 -> b <> 0 ->
  exists x, PyNum.truediv a b = Some x /\ PyNum.int_of_float x = Z.quot a b.
Proof.
  intros Ha Hb. unfold PyNum.truediv.
  destruct (a =? 0) eqn:Ea.
  - apply Z.eqb_eq in Ea. subst a. eexists. split; [reflexivity|].
    unfold PyNum.int_of_float. simpl. now rewrite Z.quot_0_l.
  - apply Z.eqb_neq in Ea.
    destruct (round_scaled_small (Z.abs a) (Z.abs b) ltac:(lia) ltac:(lia))
      as (Hm0 & Hs0 & Hs1).
    cbv zeta in *.
    set (s := Z.max (PyNum.quotient_exponent (Z.abs a) (Z.abs b) - 52) (-1074)) in *.
    set (m := PyNum.round_scaled (Z.abs a) (Z.abs b) s) in *.
    rewrite (Z.quot_div a b Hb).
    assert (Hq : 0 <= Z.abs a / Z.abs b <= Z.abs a).
    { split; [apply Z.div_pos; lia|]. apply Z.div_le_upper_bound; nia. }
    destruct (0 <=? s) eqn:Es.
    + apply Z.leb_le in Es. destruct (Hs0 Es) as [E0 Em]. rewrite E0.
      change (2 ^ 0) with 1. rewrite Z.mul_1_r.
      destruct (PyNum.max_float_bound <=? m) eqn:Eo.
      { apply Z.leb_le in Eo. unfold PyNum.max_float_bound in Eo.
        assert (2 ^ 53 < 2 ^ 1024) by (apply Z.pow_lt_mono_r; lia). lia. }
      eexists. split; [reflexivity|].
      unfold PyNum.int_of_float. simpl. rewrite Em. lia.
    + apply Z.leb_gt in Es. specialize (Hs1 Es). simpl.
      eexists. split; [reflexivity|].
      unfold PyNum.int_of_float. cbn [PyNum.expo PyNum.mant].
      apply Z.leb_gt in Es. rewrite Es. apply Z.leb_gt in Es.
      assert (HP : 0 < 2 ^ (- s)) by (apply Z.pow_pos_nonneg; lia).
      rewrite <- Hs1.
      assert (Hsg : Z.sgn a * Z.sgn b = 1 \/ Z.sgn a * Z.sgn b = -1).
      { destruct a, b; simpl; try lia; contradiction. }
      destruct Hsg as [-> | ->].
      * rewrite !Z.mul_1_l. apply Z.quot_div_nonneg; lia.
      * replace (-1 * m) with (- m) by lia. rewrite Z.quot_opp_l by lia.
        rewrite Z.quot_div_nonneg by lia. lia.
Qed.

(** On dividends below [2 ^ 53] in magnitude, [/] is the quotient truncated
    toward zero. *)
Lemma div_small a b st :
  Z.abs a < 2 ^ 53 -> b <> 0 ->
  prim "/" [VInt a; VInt b] st = Ok (VInt (Z.quot a b)) st.
Proof.
  intros Ha Hb. destruct (truediv_small a b Ha Hb) as (x & Hx & Hi).
  unfold prim. simpl. unfold bind, ret. simpl.
  apply Z.eqb_neq in Hb. rewrite Hb, Hx, Hi. reflexivity.
Qed.

(** [float(a)] keeps the sign of [a]. *)
Lemma round_half_even_lower n d : 0 < d -> n / d <= PyNum.round_half_even n d.
Proof.
  intros Hd. unfold PyNum.round_half_even.
  repeat match goal with |- context [if ?c then _ else _] => destruct c end; lia.
Qed.

Lemma float_of_int_sgn a x : PyNum.float_of_int a = Some x -> Z.sgn x = Z.sgn a.
Proof.
  unfold PyNum.float_of_int.
  destruct (Z.abs a <? 2 ^ 53) eqn:E; [now intros [= ->]|].
  apply Z.ltb_ge in E.
  destruct (PyNum.max_float_bound <=? _); [discriminate|]. intros [= <-].
  set (s := Z.log2 (Z.abs a) - 52).
  assert (Hlog : 53 <= Z.log2 (Z.abs a)) by (apply Z.log2_le_pow2; lia).
  assert (Hs : 0 <= s) by (unfold s; lia).
  assert (Hp : 0 < 2 ^ s) by (apply Z.pow_pos_nonneg; lia).
  assert (Hq : 1 <= Z.abs a / 2 ^ s).
  { apply Z.div_le_lower_bound; [lia|].
    assert (2 ^ s <= 2 ^ Z.log2 (Z.abs a)) by (apply Z.pow_le_mono_r; unfold s; lia).
    pose proof (Z.log2_spec (Z.abs a)). lia. }
  pose proof (round_half_even_lower (Z.abs a) (2 ^ s) Hp) as Hm.
  rewrite Z.sgn_mul. rewrite (Z.sgn_pos (_ * _)) by nia.
  rewrite Z.sgn_sgn. lia.
Qed.

(** The half of C6 that holds for all operands: when [(mod a b)] has a
    result, it is zero or has the sign of the dividend. *)
Lemma mod_sign a b st r st' :
  prim "mod" [VInt a; VInt b] st = Ok (VInt r) st' ->
  r = 0 \/ Z.sgn r = Z.sgn a.
Proof.
  unfold prim. simpl. unfold bind, ret. simpl.
  destruct (PyNum.float_of_int a) as [x|] eqn:Ex; [|discriminate].
  destruct (PyNum.float_of_int b) as [y|] eqn:Ey; [|discriminate].
  destruct (y =? 0) eqn:Ez; [discriminate|]. intros [= <- _].
  apply float_of_int_sgn in Ex. unfold PyNum.fmod.
  destruct (Z.eq_dec (Z.rem x y) 0) as [|Hne]; [now left|right].
  rewrite Z.rem_sign_nz by (try assumption; apply Z.eqb_neq in Ez; assumption).
  exact Ex.
Qed.

(** Operands below 2^53 in magnitude are binary64 numbers themselves, and
    there [mod] is the remainder of truncated division. *)
Lemma mod_small a b st :
  Z.abs a < 2 ^ 53 -> Z.abs b < 2 ^ 53 -> b <> 0 ->
  prim "mod" [VInt a; VInt b] st = Ok (VInt (Z.rem a b)) st /\
  Z.rem a b = a - b * Z.quot a b.
Proof.
  intros Ha Hb Hnz. split.
  - unfold prim. simpl. unfold bind, ret. simpl. unfold PyNum.float_of_int.
    apply Z.ltb_lt in Ha, Hb. rewrite Ha, Hb.
    apply Z.eqb_neq in Hnz. now rewrite Hnz.
  - pose proof (Z.quot_rem' a b). lia.
Qed.

(** C6, at an input where the code departs from it: [(mod 9007199254740993 2)].
    The dividend 2^53 + 1 is odd, its remainder by 2 is 1; [math.fmod] works
    on [float(a)], which is 2^53, and the interpreter returns 0. *)
Theorem mod_rounds_through_float :
  eval 2 (Op "mod" [Val (CInt 9007199254740993); Val (CInt 2)]) 0%nat init
    = Ok (VInt 0) init /\
  Z.rem 9007199254740993 2 = 1 /\
  9007199254740993 - 2 * Z.quot 9007199254740993 2 = 1 /\
  stdout (main 3 "(print-num (mod 9007199254740993 2))") = Some ["0"].
Proof. repeat split; vm_compute; reflexivity. Qed.

(** ** Operand types *)

Lemma check_num_bool b st :
  check_num (VBool b) st = Exit (out st ++ [number_expected "boolean"]).
Proof. reflexivity. Qed.

Lemma sum_nums_bool zs b rest st acc :
  sum_nums acc (map VInt zs ++ VBool b :: rest) st
    = Exit (out st ++ [number_expected "boolean"]).
Proof.
  revert acc. induction zs as [|z zs IH]; intros acc; simpl; [reflexivity|].
  unfold bind at 1. simpl. apply IH.
Qed.

Lemma prod_nums_bool zs b rest st acc :
  prod_nums acc (map VInt zs ++ VBool b :: rest) st
    = Exit (out st ++ [number_expected "boolean"]).
Proof.
  revert acc. induction zs as [|z zs IH]; intros acc; simpl; [reflexivity|].
  unfold bind at 1. simpl. apply IH.
Qed.

(** [+] and [*] check every operand: a Bool after any number of Ints is the
    type error. *)
Lemma sum_prod_reject_bool zs b rest st :
  prim "+" (map VInt zs ++ VBool b :: rest) st = Exit (out st ++ [number_expected "boolean"]) /\
  prim "*" (map VInt zs ++ VBool b :: rest) st = Exit (out st ++ [number_expected "boolean"]).
Proof.
  split; unfold prim; simpl; unfold bind;
    [now rewrite sum_nums_bool | now rewrite prod_nums_bool].
Qed.

(** C4, at an input where the code departs from it: [(= 1 2 #t)]. The
    operands are compared through [all(...)] over a generator, which stops at
    the first operand that differs from the first one; the Bool after it is
    never passed to [check_num] and the result is [#f], not the type error.
    With the operands in another order, [(= 1 #t 2)], the error is raised.
    In [(/ #t 0)] the divisor is examined first and the error reported is
    the division by zero. *)
Theorem eq_skips_type_check :
  eval 2 (Op "=" [Val (CInt 1); Val (CInt 2); Val (CBool true)]) 0%nat init
    = Ok (VBool false) init /\
  stdout (main 3 "(print-bool (= 1 2 #t))") = Some ["#f"] /\
  eval 2 (Op "=" [Val (CInt 1); Val (CBool true); Val (CInt 2)]) 0%nat init
    = Exit [number_expected "boolean"] /\
  eval 2 (Op "/" [Val (CBool true); Val (CInt 0)]) 0%nat init
    = Exit ["Error: Division by zero"].
Proof. repeat split; vm_compute; reflexivity. Qed.

(** ** The lexer *)

Lemma unrecognized_classes c :
  recognized c = false ->
  is_digit c = false /\ is_pos_digit c = false /\ is_lower c = false /\
  is_id_char c = false /\ is_op_char c = false /\ (c =? "-")%char = false /\
  forallb (avoids c) ["("; ")"; "#t"; "#f"; "0"; "mod"; "and"; "or"; "not"; "-"]%string = true.
Proof.
  destruct c as [[] [] [] [] [] [] [] []]; vm_compute; intros H;
    first [discriminate H | repeat split].
Qed.

Lemma span_app p c s1 s2 :
  p c = false ->
  span p (s1 +:+ String c s2) = (fst (span p s1), snd (span p s1) +:+ String c s2).
Proof.
  intros Hc. induction s1 as [|d s1 IH]; simpl.
  - now rewrite Hc.
  - destruct (p d); [|reflexivity]. rewrite IH. now destruct (span p s1).
Qed.

Lemma span_length p s : (String.length (snd (span p s)) <= String.length s)%nat.
Proof.
  induction s as [|d s IH]; simpl; [lia|].
  destruct (p d); [|simpl; lia]. destruct (span p s). simpl in *. lia.
Qed.

Lemma lit_stops c p : avoids c p = true -> stops_at c (lit p).
Proof.
  intros Hav s1. revert Hav. revert s1.
  induction p as [|x p IH]; intros s1 Hav s2; simpl; [reflexivity|].
  simpl in Hav. apply andb_prop in Hav as [Hx Hp]. apply negb_true_iff in Hx.
  destruct s1 as [|d s1]; simpl.
  - now rewrite Hx.
  - destruct (x =? d)%char; [|reflexivity].
    rewrite (IH s1 Hp). now destruct (lit p s1) as [[t r]|].
Qed.

Lemma lit_length p s t rest :
  lit p s = Some (t, rest) -> String.length s = (String.length p + String.length rest)%nat.
Proof.
  revert s t. induction p as [|x p IH]; intros s t H; simpl in H.
  - now inversion H.
  - destruct s as [|d s]; [discriminate|].
    destruct (x =? d)%char; [|discriminate].
    destruct (lit p s) as [[t' r']|] eqn:E; [|discriminate].
    inversion H; subst. simpl. f_equal. eauto.
Qed.

Lemma lit_consuming x p : consuming (lit (String x p)).
Proof. intros s t rest H. apply lit_length in H. simpl in H. lia. Qed.

Section Unrecognized.
Variable c : ascii.
Hypothesis Hc : recognized c = false.

Lemma number_stops : stops_at c number.
Proof.
  destruct (unrecognized_classes c Hc) as (Hd & Hpd & _ & _ & _ & Hm & _).
  intros s1 s2. destruct s1 as [|d s1]; simpl.
  - now rewrite Hpd, Hm.
  - destruct (is_pos_digit d).
    + rewrite (span_app _ _ _ _ Hd). now destruct (span is_digit s1).
    + destruct (d =? "-")%char; [|reflexivity].
      destruct s1 as [|d' s1]; simpl; [now rewrite Hpd|].
      destruct (is_pos_digit d'); [|reflexivity].
      rewrite (span_app _ _ _ _ Hd). now destruct (span is_digit s1).
Qed.

Lemma ident_stops : stops_at c ident.
Proof.
  destruct (unrecognized_classes c Hc) as (_ & _ & Hl & Hi & _).
  intros s1 s2. destruct s1 as [|d s1]; simpl.
  - now rewrite Hl.
  - destruct (is_lower d); [|reflexivity].
    rewrite (span_app _ _ _ _ Hi). now destruct (span is_id_char s1).
Qed.

Lemma op_char_stops : stops_at c op_char.
Proof.
  destruct (unrecognized_classes c Hc) as (_ & _ & _ & _ & Ho & _).
  intros s1 s2. destruct s1 as [|d s1]; simpl.
  - now rewrite Ho.
  - now destruct (is_op_char d).
Qed.

Lemma alternatives_stop : Forall (stops_at c) alternatives.
Proof.
  destruct (unrecognized_classes c Hc) as (_ & _ & _ & _ & _ & _ & Hav).
  simpl in Hav. repeat (apply andb_prop in Hav as [? Hav]).
  unfold alternatives.
  repeat constructor;
    first [apply number_stops | apply ident_stops | apply op_char_stops
          | now apply lit_stops].
Qed.
End Unrecognized.

Lemma number_consuming : consuming number.
Proof.
  intros s t rest H. destruct s as [|d s]; simpl in H; [discriminate|].
  destruct (is_pos_digit d).
  - pose proof (span_length is_digit s). destruct (span is_digit s).
    inversion H; subst. simpl in *. lia.
  - destruct (d =? "-")%char; [|discriminate].
    destruct s as [|d' s]; [discriminate|].
    destruct (is_pos_digit d'); [|discriminate].
    pose proof (span_length is_digit s). destruct (span is_digit s).
    inversion H; subst. simpl in *. lia.
Qed.

Lemma ident_consuming : consuming ident.
Proof.
  intros s t rest H. destruct s as [|d s]; simpl in H; [discriminate|].
  destruct (is_lower d); [|discriminate].
  pose proof (span_length is_id_char s). destruct (span is_id_char s).
  inversion H; subst. simpl in *. lia.
Qed.

Lemma op_char_consuming : consuming op_char.
Proof.
  intros s t rest H. destruct s as [|d s]; simpl in H; [discriminate|].
  destruct (is_op_char d); [|discriminate]. inversion H; subst. simpl. lia.
Qed.

Lemma alternatives_consuming : Forall consuming alternatives.
Proof.
  unfold alternatives.
  repeat constructor;
    first [apply number_consuming | apply ident_consuming | apply op_char_consuming
          | apply lit_consuming].
Qed.

Lemma first_match_stops c alts s1 s2 :
  Forall (stops_at c) alts ->
  first_match alts (s1 +:+ String c s2) = shift (String c s2) (first_match alts s1).
Proof.
  induction 1 as [|m alts Hm _ IH]; simpl; [reflexivity|].
  rewrite Hm. destruct (m s1) as [[t r]|]; [reflexivity | exact IH].
Qed.

Lemma first_match_consuming alts s t rest :
  Forall consuming alts ->
  first_match alts s = Some (t, rest) -> (String.length rest < String.length s)%nat.
Proof.
  induction 1 as [|m alts Hm _ IH]; simpl; [discriminate|].
  destruct (m s) as [[t' r']|] eqn:E; [|exact IH].
  intros H. inversion H; subst. eapply Hm; eauto.
Qed.

(** Any fuel that covers the length of the text gives the same tokens. *)
Lemma findall_fuel f : forall g s,
  (String.length s <= f)%nat -> (String.length s <= g)%nat -> findall f s = findall g s.
Proof.
  induction f as [|f IH]; intros g s Hf Hg.
  - destruct s; [|simpl in Hf; lia]. now destruct g.
  - destruct g as [|g]; [destruct s; [reflexivity | simpl in Hg; lia]|].
    cbn [findall]. destruct s as [|d s]; [reflexivity|].
    destruct (first_match alternatives (String d s)) as [[t rest]|] eqn:E.
    + apply first_match_consuming in E; [|apply alternatives_consuming].
      f_equal. apply IH; cbn [String.length] in *; lia.
    + apply IH; cbn [String.length] in *; lia.
Qed.

Lemma length_append s1 s2 :
  String.length (s1 +:+ s2) = (String.length s1 + String.length s2)%nat.
Proof.
  induction s1 as [|d s1 IH]; [reflexivity|].
  change (String d s1 +:+ s2) with (String d (s1 +:+ s2)).
  cbn [String.length Nat.add]. now rewrite IH.
Qed.

Lemma findall_skips c s2 :
  recognized c = false ->
  forall f s1,
    (String.length (s1 +:+ String c s2) <= f)%nat ->
    findall f (s1 +:+ String c s2) = findall (String.length s1) s1 ++ findall (String.length s2) s2.
Proof.
  intros Hc. induction f as [|f IH]; intros s1 Hf.
  - rewrite length_append in Hf. simpl in Hf. lia.
  - pose proof (first_match_stops c alternatives s1 s2 (alternatives_stop c Hc)) as Hfm.
    destruct s1 as [|d s1].
    + change (EmptyString +:+ String c s2) with (String c s2) in *.
      cbn [findall String.length app]. rewrite Hfm. cbn [first_match alternatives shift].
      change (first_match alternatives EmptyString) with (@None (string * string)).
      cbn [shift String.length] in *. apply findall_fuel; lia.
    + change (String d s1 +:+ String c s2) with (String d (s1 +:+ String c s2)) in *.
      cbn [findall String.length]. rewrite Hfm.
      destruct (first_match alternatives (String d s1)) as [[t rest]|] eqn:E; cbn [shift].
      * pose proof (first_match_consuming _ _ _ _ alternatives_consuming E) as Hlt.
        cbn [String.length] in Hlt, Hf. rewrite length_append in Hf. cbn [String.length] in Hf.
        rewrite IH by (rewrite length_append; cbn [String.length]; lia).
        cbn [app]. f_equal. f_equal. apply findall_fuel; lia.
      * cbn [String.length] in Hf. apply IH. lia.
Qed.

(** C3, as the code has it: [tokenize] never fails. A character that occurs
    in no lexeme (such as [$], [A] or [!], and the white space as well) is
    passed over, and the tokens are those of the text before it followed by
    those of the text after it. *)
Theorem tokenize_skips_unrecognized c s1 s2 :
  recognized c = false ->
  tokenize (s1 +:+ String c s2) = tokenize s1 ++ tokenize s2.
Proof. intros Hc. unfold tokenize. now apply findall_skips. Qed.

(** [(print-num 1) $ (print-num 2)] *)
Lemma tokenize_skips_unrecognized_witness :
  tokenize ("(print-num 1) " +:+ String "$" " (print-num 2)")
    = tokenize "(print-num 1) " ++ tokenize " (print-num 2)".
Proof. apply (tokenize_skips_unrecognized "$" "(print-num 1) " " (print-num 2)"). reflexivity. Defined.

(** C3 as the specification states it fails at
    [(print-num 1) $ (print-num 2)]: the [$] is in no
    lexeme, a token stream is produced, and the program runs to its end and
    prints 1 and 2; no syntax error is reported. *)
Lemma unrecognized_char_no_syntax_error :
  recognized "$" = false /\
  tokenize "(print-num 1) $ (print-num 2)"
    = ["("; "print-num"; "1"; ")"; "("; "print-num"; "2"; ")"]%string /\
  exists st, main 3 "(print-num 1) $ (print-num 2)" = Ok tt st /\ out st = ["1"; "2"]%string.
Proof.
  split; [reflexivity|]. split; [reflexivity|].
  eexists. split; [vm_compute; reflexivity | reflexivity].
Qed.

(** ** The AST builder on [define] *)

(** C5, as the code has it: [parse_stmt] checks that a [define] form has
    three elements and parses the third as an expression; the second, the
    name, is stored in the [Def] node as it is, whatever it is. A form of
    another length is the syntax error on [define]. *)
Theorem define_name_unchecked :
  (forall n v,
     parse_stmt (SList [SSym "define"; n; v])
       = let+ v' := parse_exp v in POk (Def n v')) /\
  (forall tl, length tl <> 2%nat ->
     parse_stmt (SList (SSym "define" :: tl)) = PExit "syntax error, unexpected 'define'").
Proof.
  split; [reflexivity|].
  intros tl Hlen. destruct tl as [|a [|b [|c tl]]]; try reflexivity.
  simpl in Hlen. lia.
Qed.

Lemma define_name_unchecked_witness :
  parse_stmt (SList (SSym "define" :: [SSym "x"]))
    = PExit "syntax error, unexpected 'define'".
Proof. apply (proj2 define_name_unchecked [SSym "x"]). simpl. lia. Defined.

(** C5 as the specification states it fails at [(define + 1)] and at
    [(define (a) 1)]: both are
    accepted by the AST builder. The first program then runs ([+] is still
    the operator: 3 is printed); the second ends at evaluation with Python's
    TypeError for an unhashable dict key, not with a syntax error. *)
Lemma define_reserved_name_accepted :
  parse_stmt (SList [SSym "define"; SSym "+"; SInt 1])
    = POk (Def (SSym "+") (Val (CInt 1))) /\
  parse_stmt (SList [SSym "define"; SList [SSym "a"]; SInt 1])
    = POk (Def (SList [SSym "a"]) (Val (CInt 1))) /\
  stdout (main 3 "(define + 1) (print-num (+ 1 2))") = Some ["3"]%string /\
  main 3 "(define (a) 1)" = Raise "TypeError: unhashable type: 'list'" [].
Proof. repeat split; vm_compute; reflexivity. Qed.

(** * Further properties *)

(** ** The nodes the AST builder returns, and what evaluating them keeps *)

Lemma wf_exp_Fun ps body :
  wf_exp (Fun ps body) = match body with [] => false | _ => true end && forallb wf_stmt body.
Proof. reflexivity. Qed.

Lemma wf_exp_stmt n : wf_exp n = true -> wf_stmt n = true.
Proof. destruct n; simpl; auto; discriminate. Qed.

(** Induction on s-expressions, through the lists. *)
Lemma sexp_nested_ind (P : sexp -> Prop) :
  (forall b, P (SBool b)) -> (forall z, P (SInt z)) -> (forall x, P (SSym x)) ->
  (forall l, Forall P l -> P (SList l)) ->
  forall s, P s.
Proof.
  intros Hb Hz Hs Hl.
  fix IH 1. intros [b|z|x|l]; [apply Hb | apply Hz | apply Hs |].
  apply Hl. induction l as [|a l IHl]; constructor; [apply IH | exact IHl].
Qed.

Lemma pbind_POk_inv {A B} (c : presult A) (k : A -> presult B) b :
  pbind c k = POk b -> exists a, c = POk a /\ k a = POk b.
Proof. destruct c; simpl; try discriminate. eauto. Qed.

Lemma error_syntax_not_POk {A} t (a : A) : error_syntax t <> POk a.
Proof. unfold error_syntax. destruct t as [t|]; [destruct (truthy_sexp t)|]; discriminate. Qed.

Lemma parse_exp_SList head tl :
  parse_exp (SList (head :: tl)) =
    if sym_is head "if" then
      match tl with
      | [t; a; b] =>
          let+ t' := parse_exp t in
          let+ a' := parse_exp a in
          let+ b' := parse_exp b in
          POk (If t' a' b')
      | _ => error_syntax (Some head)
      end
    else if sym_is head "fun" then
      match tl with
      | params :: (_ :: _) as body =>
          match params with
          | SList ps => let+ b := parse_stmts body in POk (Fun ps b)
          | _ => error_syntax (Some params)
          end
      | _ => error_syntax (Some head)
      end
    else
      match is_operator head with
      | Some op => let+ args := parse_exps tl in POk (Op op args)
      | None =>
          let+ f := parse_exp head in
          let+ args := parse_exps tl in
          POk (Call f args)
      end.
Proof. reflexivity. Qed.

Lemma mem_operators x :
  mem x ["+"; "-"; "*"; "/"; "mod"; ">"; "<"; "="; "and"; "or"; "not"]%string = mem x operators.
Proof.
  unfold mem, operators. cbn [existsb].
  repeat match goal with
         | |- context [String.eqb x ?s] => destruct (String.eqb x s); cbn [orb]
         end; reflexivity.
Qed.

Lemma is_operator_mem h op : is_operator h = Some op -> mem op operators = true.
Proof.
  destruct h as [| |x|]; cbn [is_operator]; try discriminate.
  destruct (mem x operators) eqn:E; [|discriminate]. now intros [= <-].
Qed.

Lemma parse_exps_wf l ns :
  Forall parses_wf l -> parse_exps l = POk ns -> forallb wf_exp ns = true.
Proof.
  intros IH. revert ns. induction IH as [|x r [Hx _] _ IHr]; intros ns H; simpl in H.
  - now inversion H.
  - apply pbind_POk_inv in H as (n & Hn & H).
    apply pbind_POk_inv in H as (ns' & Hns & H). inversion H; subst.
    simpl. rewrite (Hx _ Hn). now apply IHr.
Qed.

Lemma parse_stmts_wf l ns :
  Forall parses_wf l ->
  parse_stmts l = POk ns -> forallb wf_stmt ns = true /\ length ns = length l.
Proof.
  intros IH. revert ns. induction IH as [|x r [_ Hx] _ IHr]; intros ns H; simpl in H.
  - now inversion H.
  - apply pbind_POk_inv in H as (n & Hn & H).
    apply pbind_POk_inv in H as (ns' & Hns & H). inversion H; subst.
    destruct (IHr _ Hns) as [Hw Hl]. simpl. rewrite (Hx _ Hn), Hl. now split.
Qed.

Lemma parse_wf_both s : parses_wf s.
Proof.
  unfold parses_wf.
  induction s as [b|z|x|l IH] using sexp_nested_ind.
  - split; intros n [= <-]; reflexivity.
  - split; intros n [= <-]; reflexivity.
  - assert (He : forall n, parse_exp (SSym x) = POk n -> wf_exp n = true).
    { intros n. cbn [parse_exp]. rewrite mem_operators.
      destruct (mem x operators) eqn:E.
      - intros H. now apply error_syntax_not_POk in H.
      - intros [= <-]. cbn [wf_exp]. now rewrite E. }
    split; [exact He|]. intros n H. apply wf_exp_stmt, He, H.
  - assert (He : forall n, parse_exp (SList l) = POk n -> wf_exp n = true).
    { intros n H. destruct l as [|head tl]; [exfalso; exact (error_syntax_not_POk None _ H)|].
      rewrite parse_exp_SList in H.
      apply Forall_cons in IH as [[Hhead _] IHtl].
      destruct (sym_is head "if").
      { destruct tl as [|t [|a [|b [|c tl]]]]; try (now apply error_syntax_not_POk in H).
        apply Forall_cons in IHtl as [[Ht _] IHtl].
        apply Forall_cons in IHtl as [[Ha _] IHtl].
        apply Forall_cons in IHtl as [[Hb _] _].
        apply pbind_POk_inv in H as (t' & Et & H).
        apply pbind_POk_inv in H as (a' & Ea & H).
        apply pbind_POk_inv in H as (b' & Eb & H). inversion H; subst.
        simpl. now rewrite (Ht _ Et), (Ha _ Ea), (Hb _ Eb). }
      destruct (sym_is head "fun").
      { destruct tl as [|params [|x body]]; try (now apply error_syntax_not_POk in H).
        apply Forall_cons in IHtl as [_ IHbody].
        destruct params as [| | |ps]; try (now apply error_syntax_not_POk in H).
        apply pbind_POk_inv in H as (b & Eb & H). inversion H; subst.
        destruct (parse_stmts_wf _ _ IHbody Eb) as [Hw Hl].
        rewrite wf_exp_Fun, Hw. destruct b; [discriminate Hl | reflexivity]. }
      destruct (is_operator head) as [op|] eqn:Eop.
      - apply pbind_POk_inv in H as (args & Ea & H). inversion H; subst.
        cbn [wf_exp]. rewrite (is_operator_mem _ _ Eop). exact (parse_exps_wf _ _ IHtl Ea).
      - apply pbind_POk_inv in H as (f & Ef & H).
        apply pbind_POk_inv in H as (args & Ea & H). inversion H; subst.
        simpl. rewrite (Hhead _ Ef). exact (parse_exps_wf _ _ IHtl Ea). }
    split; [exact He|]. intros n H.
    unfold parse_stmt, parse_stmt_with in H.
    destruct l as [|head tl]; [now apply wf_exp_stmt, He|].
    apply Forall_cons in IH as [_ IHtl].
    destruct (sym_is head "define").
    { destruct tl as [|a [|v [|c tl]]]; try (now apply error_syntax_not_POk in H).
      apply Forall_cons in IHtl as [_ IHtl]. apply Forall_cons in IHtl as [[Hv _] _].
      apply pbind_POk_inv in H as (v' & Ev & H). inversion H; subst. simpl. eauto. }
    destruct (sym_is head "print-num").
    { destruct tl as [|v [|c tl]]; try (now apply error_syntax_not_POk in H).
      apply Forall_cons in IHtl as [[Hv _] _].
      apply pbind_POk_inv in H as (v' & Ev & H). inversion H; subst. simpl. eauto. }
    destruct (sym_is head "print-bool").
    { destruct tl as [|v [|c tl]]; try (now apply error_syntax_not_POk in H).
      apply Forall_cons in IHtl as [[Hv _] _].
      apply pbind_POk_inv in H as (v' & Ev & H). inversion H; subst. simpl. eauto. }
    apply wf_exp_stmt, He, H.
Qed.

Lemma untouched_refl st : untouched st st.
Proof. now intros l fr. Qed.

Lemma untouched_trans s1 s2 s3 : untouched s1 s2 -> untouched s2 s3 -> untouched s1 s3.
Proof. intros H1 H2 l fr H. eauto. Qed.

Lemma untouched_kept e st st' : untouched st st' -> kept e st st'.
Proof. intros H l fr Hl. exists fr. split; [eauto|]. split; [done|]. split; done. Qed.

Lemma new_env_untouched p st l st' : new_env p st = Ok l st' -> untouched st st'.
Proof.
  unfold new_env. intros [= <- <-] i fr H. cbn [heap]. now apply lookup_app_l_Some.
Qed.

Lemma new_env_wf p st l st' : wf_state st -> new_env p st = Ok l st' -> wf_state st'.
Proof.
  unfold new_env. intros Hwf [= <- <-] i fr k v H Hk. cbn [heap] in H.
  apply lookup_app_Some in H as [H|[_ H]]; [eauto|].
  apply list_lookup_singleton_Some in H as [_ <-].
  cbn [vars] in Hk. now rewrite lookup_empty in Hk.
Qed.

Lemma print_untouched line st st' : print line st = Ok tt st' -> untouched st st' /\ (wf_state st -> wf_state st').
Proof. unfold print. intros [= <-]. split; [now intros l fr H | intros Hwf l fr k v H Hk; exact (Hwf l fr k v H Hk)]. Qed.

Lemma untouched_below_all n st st' : untouched st st' -> untouched_below n st st'.
Proof. intros H l fr _. apply H. Qed.

Lemma untouched_below_trans n s1 s2 s3 :
  untouched_below n s1 s2 -> untouched_below n s2 s3 -> untouched_below n s1 s3.
Proof. intros H1 H2 l fr Hl H. eauto. Qed.

Lemma set_item_below e k v st st' :
  set_item e k v st = Ok tt st' -> untouched_below e st st'.
Proof.
  unfold set_item. destruct (heap st !! e) as [fr|]; [|discriminate].
  intros [= <-] l fr0 Hl H. cbn [heap]. rewrite list_lookup_insert_ne by lia. exact H.
Qed.

Lemma set_item_wf e k v st st' :
  wf_state st -> wf_value v -> set_item e k v st = Ok tt st' -> wf_state st'.
Proof.
  unfold set_item. destruct (heap st !! e) as [fr|] eqn:E; [|discriminate].
  intros Hwf Hv [= <-] l fr0 k0 v0 H Hk. cbn [heap] in H.
  destruct (decide (l = e)) as [->|Hne].
  - rewrite list_lookup_insert_eq in H by (eapply lookup_lt_Some; eauto).
    inversion H; subst. cbn [vars] in Hk.
    destruct (decide (k = k0)) as [->|Hk0].
    + rewrite lookup_insert_eq in Hk. now inversion Hk; subst.
    + rewrite lookup_insert_ne in Hk by done. eauto.
  - rewrite list_lookup_insert_ne in H by done. eauto.
Qed.

Lemma set_item_kept e k v st st' fr :
  heap st !! e = Some fr -> vars fr !! k = None ->
  set_item e k v st = Ok tt st' -> kept e st st'.
Proof.
  unfold set_item. intros E Hk. rewrite E. intros [= <-] l fr0 H. cbn [heap].
  destruct (decide (l = e)) as [->|Hne].
  - rewrite list_lookup_insert_eq by (eapply lookup_lt_Some; eauto).
    rewrite E in H. inversion H; subst. eexists. split; [reflexivity|]. cbn [par vars].
    split; [done|]. split; [now apply insert_subseteq | done].
  - rewrite list_lookup_insert_ne by done. exists fr0. repeat split; done.
Qed.

Lemma find_value fuel : forall n e st v st',
  find fuel n e st = Ok v st' ->
  st' = st /\ exists l fr, heap st !! l = Some fr /\ vars fr !! inl n = Some v.
Proof.
  induction fuel as [|fuel IH]; intros n e st v st' H; cbn [find] in H; [discriminate|].
  apply bind_Ok_inv in H as (fr & s1 & Hfr & H). minv Hfr.
  destruct (vars fr !! inl n) as [w|] eqn:E.
  - minv H. split; [done|]. eauto.
  - destruct (par fr) as [p|]; [|discriminate].
    apply bind_Ok_inv in H as (pf & s2 & Hpf & H). minv Hpf.
    destruct (truthy pf); [eauto | discriminate].
Qed.

(** A primitive returns an Int, a Bool or [None], never a function. *)
Lemma prim_not_closure op vs st v st' :
  prim op vs st = Ok v st' -> forall ps body ce, v <> VClosure ps body ce.
Proof.
  unfold prim. intros H ps body ce.
  repeat match type of H with
         | (if ?c then _ else _) _ = Ok _ _ => destruct c
         end;
  repeat (first [ progress minv_all | mcase
                | match goal with
                  | H : bind _ _ _ = Ok _ _ |- _ =>
                      apply bind_Ok_inv in H as (? & ? & ? & H)
                  end ]); try discriminate.
Qed.

Lemma kept_trans e s1 s2 s3 : kept e s1 s2 -> kept e s2 s3 -> kept e s1 s3.
Proof.
  intros H1 H2 l fr H. destruct (H1 _ _ H) as (fr1 & Hl1 & Hp1 & Hv1 & He1).
  destruct (H2 _ _ Hl1) as (fr2 & Hl2 & Hp2 & Hv2 & He2).
  exists fr2. split; [done|]. split; [congruence|]. split; [by etrans|].
  intros Hne. rewrite (He2 Hne). auto.
Qed.

Lemma mapM_ok ev l st vs st' :
  exp_ok ev -> wf_state st -> forallb wf_exp l = true ->
  mapM ev l st = Ok vs st' -> wf_state st' /\ untouched st st'.
Proof.
  intros Hev. revert st vs. induction l as [|a l IH]; intros st vs Hwf Hl H; simpl in H.
  - minv H. split; [done | apply untouched_refl].
  - simpl in Hl. apply andb_prop in Hl as [Ha Hl].
    apply bind_Ok_inv in H as (b & s1 & Hb & H).
    apply bind_Ok_inv in H as (bs & s2 & Hbs & H). minv H.
    destruct (Hev _ _ _ _ Hwf Ha Hb) as (_ & Hwf1 & Hu1).
    destruct (IH _ _ Hwf1 Hl Hbs) as (Hwf2 & Hu2).
    split; [done | by eapply untouched_trans].
Qed.

Lemma all_gen_ok ev l st b st' :
  exp_ok ev -> wf_state st -> forallb wf_exp l = true ->
  all_gen (fun a => let* v := ev a in check_bool v) l st = Ok b st' ->
  wf_state st' /\ untouched st st'.
Proof.
  intros Hev. revert st. induction l as [|a l IH]; intros st Hwf Hl H; simpl in H.
  - minv H. split; [done | apply untouched_refl].
  - simpl in Hl. apply andb_prop in Hl as [Ha Hl].
    apply bind_Ok_inv in H as (c & s1 & Hc & H).
    apply bind_Ok_inv in Hc as (w & s2 & Hw & Hc). minv Hc.
    destruct (Hev _ _ _ _ Hwf Ha Hw) as (_ & Hwf1 & Hu1).
    destruct c.
    + destruct (IH _ Hwf1 Hl H) as (Hwf2 & Hu2). split; [done | by eapply untouched_trans].
    + minv H. done.
Qed.

Lemma any_gen_ok ev l st b st' :
  exp_ok ev -> wf_state st -> forallb wf_exp l = true ->
  any_gen (fun a => let* v := ev a in check_bool v) l st = Ok b st' ->
  wf_state st' /\ untouched st st'.
Proof.
  intros Hev. revert st. induction l as [|a l IH]; intros st Hwf Hl H; simpl in H.
  - minv H. split; [done | apply untouched_refl].
  - simpl in Hl. apply andb_prop in Hl as [Ha Hl].
    apply bind_Ok_inv in H as (c & s1 & Hc & H).
    apply bind_Ok_inv in Hc as (w & s2 & Hw & Hc). minv Hc.
    destruct (Hev _ _ _ _ Hwf Ha Hw) as (_ & Hwf1 & Hu1).
    destruct c.
    + minv H. done.
    + destruct (IH _ Hwf1 Hl H) as (Hwf2 & Hu2). split; [done | by eapply untouched_trans].
Qed.

Lemma zip_wf (ps : list sexp) (args : list node) :
  forallb wf_exp args = true -> Forall (fun pa => wf_exp pa.2 = true) (zip ps args).
Proof.
  revert ps. induction args as [|a args IH]; intros ps H; destruct ps as [|p ps]; simpl;
    try constructor.
  - simpl in H. now apply andb_prop in H as [Ha _].
  - simpl in H. apply andb_prop in H as [_ H]. now apply IH.
Qed.

Lemma bind_args_ok ev new_e l st st' :
  exp_ok ev -> wf_state st -> Forall (fun pa => wf_exp pa.2 = true) l ->
  bind_args ev new_e l st = Ok tt st' ->
  wf_state st' /\ untouched_below new_e st st'.
Proof.
  intros Hev. revert st. induction l as [|[n arg] l IH]; intros st Hwf Hl H; simpl in H.
  - minv H. split; [done | now intros i fr _].
  - apply Forall_cons in Hl as [Ha Hl]. simpl in Ha.
    apply bind_Ok_inv in H as (v & s1 & Hv & H).
    destruct (key_of n) as [k|]; [|discriminate].
    apply bind_Ok_inv in H as ([] & s2 & Hset & H).
    destruct (Hev _ _ _ _ Hwf Ha Hv) as (Hwv & Hwf1 & Hu1).
    pose proof (set_item_wf _ _ _ _ _ Hwf1 Hwv Hset) as Hwf2.
    destruct (IH _ Hwf2 Hl H) as (Hwf3 & Hu3).
    split; [done|].
    eapply untouched_below_trans; [apply untouched_below_all; eauto|].
    eapply untouched_below_trans; [eapply set_item_below; eauto | done].
Qed.

Lemma run_body_ok e ev res body st v st' :
  stmt_ok e ev -> wf_state st -> wf_value res -> forallb wf_stmt body = true ->
  run_body ev res body st = Ok v st' ->
  wf_value v /\ wf_state st' /\ kept e st st'.
Proof.
  intros Hev. revert res st.
  induction body as [|s body IH]; intros res st Hwf Hres Hb H; simpl in H.
  - minv H. split; [done|]. split; [done | apply untouched_kept, untouched_refl].
  - simpl in Hb. apply andb_prop in Hb as [Hs Hb].
    apply bind_Ok_inv in H as (w & s1 & Hw & H).
    destruct (Hev _ _ _ _ Hwf Hs Hw) as (Hwv & Hwf1 & Hk1).
    destruct (IH _ _ Hwf1 Hwv Hb H) as (Hv & Hwf2 & Hk2).
    split; [done|]. split; [done | by eapply kept_trans].
Qed.

Lemma eval_wf fuel : forall nd e st v st',
  wf_state st -> wf_stmt nd = true -> eval fuel nd e st = Ok v st' ->
  wf_value v /\ wf_state st' /\ kept e st st' /\ (wf_exp nd = true -> untouched st st').
Proof.
  induction fuel as [|fuel IH]; intros nd e st v st' Hwf Hnd H; [discriminate|].
  assert (IHe : forall e, exp_ok (fun a => eval fuel a e)).
  { intros e0 a s w s' Hs Ha Hw.
    destruct (IH _ _ _ _ _ Hs (wf_exp_stmt _ Ha) Hw) as (? & ? & _ & Hu). auto. }
  assert (IHs : forall e, stmt_ok e (fun a => eval fuel a e)).
  { intros e0 a s w s' Hs Ha Hw.
    destruct (IH _ _ _ _ _ Hs Ha Hw) as (? & ? & ? & _). auto. }
  assert (Hexp : wf_exp nd = true ->
                 wf_value v /\ wf_state st' /\ untouched st st').
  { clear Hnd. intros Hnd. cbn [eval] in H.
    destruct nd as [c|x|n d|t a b|ps body|f args|op args|is_n x]; try discriminate Hnd.
    - minv H. destruct c; split; [done| |done|]; split; [done | apply untouched_refl
                                                       | done | apply untouched_refl].
    - apply find_value in H as (-> & l & fr & Hl & Hx).
      split; [eapply Hwf; eauto|]. split; [done | apply untouched_refl].
    - simpl in Hnd. apply andb_prop in Hnd as [Hnd Hb]. apply andb_prop in Hnd as [Ht Ha].
      apply bind_Ok_inv in H as (c & s1 & Hc & H).
      apply bind_Ok_inv in H as (cb & s2 & Hcb & H). minv Hcb.
      destruct (IHe e _ _ _ _ Hwf Ht Hc) as (_ & Hwf1 & Hu1).
      destruct cb.
      + destruct (IHe e _ _ _ _ Hwf1 Ha H) as (? & ? & ?).
        split; [done|]. split; [done | by eapply untouched_trans].
      + destruct (IHe e _ _ _ _ Hwf1 Hb H) as (? & ? & ?).
        split; [done|]. split; [done | by eapply untouched_trans].
    - minv H. rewrite wf_exp_Fun in Hnd. apply andb_prop in Hnd as [Hne Hb].
      split; [|split; [done | apply untouched_refl]].
      split; [now destruct body | done].
    - simpl in Hnd. apply andb_prop in Hnd as [Hf Hargs].
      apply bind_Ok_inv in H as (fn & s1 & Hfn & H).
      destruct (IHe e _ _ _ _ Hwf Hf Hfn) as (Hwfn & Hwf1 & Hu1).
      destruct fn as [| |ps body cenv|]; try discriminate.
      destruct (negb _); [discriminate|].
      apply bind_Ok_inv in H as (new_e & s2 & Hnew & H).
      apply bind_Ok_inv in H as ([] & s3 & Hargs' & H).
      pose proof (new_env_untouched _ _ _ _ Hnew) as Hu2.
      pose proof (new_env_wf _ _ _ _ Hwf1 Hnew) as Hwf2.
      assert (Hloc : new_e = length (heap s1)) by (unfold new_env in Hnew; now inversion Hnew).
      destruct (bind_args_ok _ _ _ _ _ (IHe e) Hwf2 (zip_wf ps args Hargs) Hargs')
        as (Hwf3 & Hu3).
      destruct Hwfn as [_ Hbody].
      destruct (run_body_ok new_e _ VNone _ _ _ _ (IHs new_e) Hwf3 I Hbody H)
        as (Hv & Hwf4 & Hk4).
      split; [done|]. split; [done|].
      intros l fr Hl.
      assert (Hlt : (l < new_e)%nat).
      { rewrite Hloc. eapply lookup_lt_Some. apply Hu1. exact Hl. }
      apply Hu1, Hu2, (Hu3 _ _ Hlt) in Hl.
      destruct (Hk4 _ _ Hl) as (fr' & Hl' & _ & _ & Heq).
      rewrite Hl'. f_equal. apply Heq. lia.
    - cbn [wf_exp] in Hnd. apply andb_prop in Hnd as [Hop Hargs].
      apply bind_Ok_inv in H as (u & s1 & Har & H).
      apply arity_check_state in Har. subst s1.
      destruct (op =? "and")%string; [|destruct (op =? "or")%string].
      + apply bind_Ok_inv in H as (r & s2 & Hr & H). minv H.
        destruct (all_gen_ok _ _ _ _ _ (IHe e) Hwf Hargs Hr). done.
      + apply bind_Ok_inv in H as (r & s2 & Hr & H). minv H.
        destruct (any_gen_ok _ _ _ _ _ (IHe e) Hwf Hargs Hr). done.
      + apply bind_Ok_inv in H as (vs & s2 & Hvs & H).
        pose proof (prim_not_closure _ _ _ _ _ H) as Hnc.
        apply prim_state in H. subst.
        destruct (mapM_ok _ _ _ _ _ (IHe e) Hwf Hargs Hvs).
        split; [|done]. destruct v; try done. now destruct (Hnc args0 body env). }
  destruct (wf_exp nd) eqn:Ee.
  { destruct (Hexp eq_refl) as (? & ? & ?).
    split; [done|]. split; [done|]. split; [now apply untouched_kept | done]. }
  clear Hexp. cbn [eval] in H.
  destruct nd as [c|x|n d|t a b|ps body|f args|op args|is_n x];
    try (cbv beta iota delta [wf_stmt] in Hnd; congruence).
  - (* Def *)
    simpl in Hnd.
    destruct (key_of n) as [k|]; [|discriminate].
    apply bind_Ok_inv in H as (fr & s1 & Hfr & H). minv Hfr.
    destruct (vars fr !! k) eqn:Ek; [discriminate|].
    apply bind_Ok_inv in H as (r & s2 & Hr & H).
    apply bind_Ok_inv in H as ([] & s3 & Hset & H). minv H.
    destruct (IHe e _ _ _ _ Hwf Hnd Hr) as (Hwr & Hwf2 & Hu2).
    split; [done|]. split; [eapply set_item_wf; eauto|].
    split; [|discriminate].
    eapply kept_trans; [apply untouched_kept; eauto|].
    eapply set_item_kept; eauto.
  - (* Print *)
    simpl in Hnd.
    apply bind_Ok_inv in H as (w & s1 & Hw & H).
    apply bind_Ok_inv in H as (line & s2 & Hline & H).
    apply bind_Ok_inv in H as ([] & s3 & Hpr & H). minv H.
    destruct (IHe e _ _ _ _ Hwf Hnd Hw) as (_ & Hwf1 & Hu1).
    assert (s2 = s1) by (destruct is_n; mauto; reflexivity). subst s2.
    destruct (print_untouched _ _ _ Hpr) as [Hu2 Hwf2].
    split; [done|]. split; [auto|]. split; [|discriminate].
    apply untouched_kept. by eapply untouched_trans.
Qed.

(** ** The output only grows *)

Lemma bind_appends {A B} (c : M A) (k : A -> M B) :
  appends c -> (forall a, appends (k a)) -> appends (bind c k).
Proof.
  intros Hc Hk st o. unfold bind.
  destruct (c st) as [a s1| | | |] eqn:E; intros H.
  - etrans; [apply (Hc st); rewrite E; reflexivity | now apply (Hk a)].
  - apply (Hc st). now rewrite E.
  - apply (Hc st). now rewrite E.
  - discriminate.
  - discriminate.
Qed.

Lemma ret_appends {A} (a : A) : appends (ret a).
Proof. intros st o [= <-]. reflexivity. Qed.

Lemma error_runtime_appends {A} m : appends (@error_runtime A m).
Proof. intros st o [= <-]. now apply prefix_app_r. Qed.

Lemma raise_appends {A} x : appends (@raise A x).
Proof. intros st o [= <-]. reflexivity. Qed.

Lemma out_of_fuel_appends {A} : appends (@out_of_fuel A).
Proof. intros st o H. discriminate. Qed.

Lemma print_appends line : appends (print line).
Proof. intros st o [= <-]. now apply prefix_app_r. Qed.

Lemma get_frame_appends e : appends (get_frame e).
Proof. intros st o. unfold get_frame. destruct (heap st !! e); [now intros [= <-] | discriminate]. Qed.

Lemma set_item_appends e k v : appends (set_item e k v).
Proof. intros st o. unfold set_item. destruct (heap st !! e); [now intros [= <-] | discriminate]. Qed.

Lemma new_env_appends p : appends (new_env p).
Proof. intros st o [= <-]. reflexivity. Qed.

Lemma check_num_appends v : appends (check_num v).
Proof. destruct v; first [apply ret_appends | apply error_runtime_appends]. Qed.

Lemma check_bool_appends v : appends (check_bool v).
Proof. destruct v; first [apply ret_appends | apply error_runtime_appends]. Qed.

Lemma index_appends vs i : appends (index vs i).
Proof. unfold index. destruct (vs !! i); [apply ret_appends | apply raise_appends]. Qed.

(** Closes a goal [appends c] by following the structure of [c]. *)
Ltac appends_step :=
  match goal with
  | |- appends (bind _ _) => apply bind_appends; [|intros ?]
  | |- appends (ret _) => apply ret_appends
  | |- appends (error_runtime _) => apply error_runtime_appends
  | |- appends (raise _) => apply raise_appends
  | |- appends out_of_fuel => apply out_of_fuel_appends
  | |- appends (print _) => apply print_appends
  | |- appends (get_frame _) => apply get_frame_appends
  | |- appends (set_item _ _ _) => apply set_item_appends
  | |- appends (new_env _) => apply new_env_appends
  | |- appends (check_num _) => apply check_num_appends
  | |- appends (check_bool _) => apply check_bool_appends
  | |- appends (index _ _) => apply index_appends
  | |- appends (if ?c then _ else _) => destruct c
  | |- appends (match ?o with Some _ => _ | None => _ end) => destruct o
  end.

Lemma find_appends fuel : forall n e, appends (find fuel n e).
Proof.
  induction fuel as [|fuel IH]; intros n e; cbn [find]; repeat appends_step. apply IH.
Qed.

Lemma sum_nums_appends vs : forall acc, appends (sum_nums acc vs).
Proof. induction vs as [|x vs IH]; intros acc; simpl; repeat appends_step. apply IH. Qed.

Lemma prod_nums_appends vs : forall acc, appends (prod_nums acc vs).
Proof. induction vs as [|x vs IH]; intros acc; simpl; repeat appends_step. apply IH. Qed.

Lemma all_gen_appends {A} (f : A -> M bool) l :
  (forall a, appends (f a)) -> appends (all_gen f l).
Proof. intros Hf. induction l as [|a l IH]; simpl; repeat appends_step; auto. Qed.

Lemma any_gen_appends {A} (f : A -> M bool) l :
  (forall a, appends (f a)) -> appends (any_gen f l).
Proof. intros Hf. induction l as [|a l IH]; simpl; repeat appends_step; auto. Qed.

Lemma mapM_appends {A B} (f : A -> M B) l :
  (forall a, appends (f a)) -> appends (mapM f l).
Proof. intros Hf. induction l as [|a l IH]; simpl; repeat appends_step; auto. Qed.

Lemma bind_args_appends ev new_e l :
  (forall a, appends (ev a)) -> appends (bind_args ev new_e l).
Proof.
  intros Hev. induction l as [|[n arg] l IH]; simpl; repeat appends_step; auto.
Qed.

Lemma run_body_appends ev body :
  (forall a, appends (ev a)) -> forall res, appends (run_body ev res body).
Proof.
  intros Hev. induction body as [|s body IH]; intros res; simpl; repeat appends_step; auto.
Qed.

Lemma arity_check_appends op cnt : appends (arity_check op cnt).
Proof. unfold arity_check. repeat appends_step. Qed.

Lemma prim_appends op vs : appends (prim op vs).
Proof.
  unfold prim.
  repeat first [ appends_step
               | apply sum_nums_appends | apply prod_nums_appends
               | apply all_gen_appends; intros ? ].
Qed.

Lemma eval_appends fuel : forall nd e, appends (eval fuel nd e).
Proof.
  induction fuel as [|fuel IH]; intros nd e; [apply out_of_fuel_appends|].
  destruct nd as [c|x|n d|t a b|ps body|f args|op args|is_n x]; cbn [eval].
  - apply ret_appends.
  - apply find_appends.
  - repeat first [appends_step | apply IH].
  - repeat first [appends_step | apply IH].
  - apply ret_appends.
  - apply bind_appends; [apply IH|]. intros fn.
    destruct fn; repeat first [appends_step | apply IH].
    + apply bind_args_appends. intros ?. apply IH.
    + apply run_body_appends. intros ?. apply IH.
  - apply bind_appends; [apply arity_check_appends|]. intros _.
    repeat first [ appends_step | apply prim_appends
                 | apply all_gen_appends; intros ?
                 | apply any_gen_appends; intros ?
                 | apply mapM_appends; intros ?
                 | apply IH ].
  - repeat first [appends_step | apply IH].
Qed.

Lemma run_nodes_appends fuel nodes : appends (run_nodes fuel nodes).
Proof.
  induction nodes as [|n nodes IH]; simpl; repeat appends_step; [apply eval_appends | apply IH].
Qed.

Lemma run_nodes_app fuel n1 n2 st st1 :
  run_nodes fuel n1 st = Ok tt st1 ->
  run_nodes fuel (n1 ++ n2) st = run_nodes fuel n2 st1.
Proof.
  revert st. induction n1 as [|n n1 IH]; intros st H; simpl in *.
  - now inversion H.
  - apply bind_Ok_inv in H as (v & s1 & Hv & H). rewrite (bind_Ok _ _ _ _ _ Hv). eauto.
Qed.

(** X1: What the first top-level forms have printed is the beginning of
    what the whole program prints, however the rest of it ends (normally,
    with a runtime error or with a Python exception). *)
Theorem output_is_retained fuel n1 n2 st st1 o :
  run_nodes fuel n1 st = Ok tt st1 ->
  final_out (run_nodes fuel (n1 ++ n2) st) = Some o ->
  out st1 `prefix_of` o.
Proof.
  intros H1 H2. rewrite (run_nodes_app _ _ _ _ _ H1) in H2.
  exact (run_nodes_appends fuel n2 st1 o H2).
Qed.

Lemma output_is_retained_witness :
  out {| heap := heap init; out := ["1"%string] |}
    `prefix_of` ["1"; "Error: Division by zero"]%string.
Proof.
  apply (output_is_retained 3 [Print true (Val (CInt 1))]
           [Print true (Op "/" [Val (CInt 1); Val (CInt 0)])] init
           {| heap := heap init; out := ["1"%string] |});
    vm_compute; reflexivity.
Defined.

(** ** Operators: arity, operand types, result types *)

Lemma mem_In s l : mem s l = true <-> In s l.
Proof.
  unfold mem. rewrite existsb_exists. split.
  - intros (x & Hx & E). apply String.eqb_eq in E. now subst.
  - intros H. exists s. split; [done | apply String.eqb_refl].
Qed.

(** X2: The arity check of [Op.eval] comes before any operand is
    evaluated: with fewer than two operands for [+ * = and or], a number
    other than two for [- / mod > <], or other than one for [not], the
    program ends with the matching message and the count it got. *)
Theorem op_arity_errors fuel op args e st :
  (In op ["+"; "*"; "="; "and"; "or"]%string -> (length args < 2)%nat ->
     eval (S fuel) (Op op args) e st = Exit (out st ++ [at_least_2_message (length args)])) /\
  (In op ["-"; "/"; "mod"; ">"; "<"]%string -> length args <> 2%nat ->
     eval (S fuel) (Op op args) e st = Exit (out st ++ [exactly_2_message (length args)])) /\
  (op = "not"%string -> length args <> 1%nat ->
     eval (S fuel) (Op op args) e st = Exit (out st ++ [exactly_1_message (length args)])).
Proof.
  split; [|split].
  - intros Hop Hlen. apply Nat.ltb_lt in Hlen. cbn [eval]. unfold arity_check.
    apply mem_In in Hop. rewrite Hop, Hlen. reflexivity.
  - intros Hop Hlen. apply Nat.eqb_neq in Hlen. cbn [eval]. unfold arity_check.
    assert (H1 : mem op ["+"; "*"; "="; "and"; "or"]%string = false).
    { simpl in Hop. destruct Hop as [<-|[<-|[<-|[<-|[<-|[]]]]]]; reflexivity. }
    apply mem_In in Hop. rewrite H1, Hop, Hlen. reflexivity.
  - intros -> Hlen. apply Nat.eqb_neq in Hlen. cbn [eval]. unfold arity_check.
    simpl mem. cbv iota. rewrite String.eqb_refl, Hlen. reflexivity.
Qed.

Lemma op_arity_errors_witness :
  eval 1 (Op "+" [Print true (Val (CInt 1))]) 0%nat init
    = Exit ["Error: Need at least 2 arguments, but got 1."%string] /\
  eval 1 (Op "mod" [Val (CInt 1); Val (CInt 2); Val (CInt 3)]) 0%nat init
    = Exit ["Error: Need 2 arguments, but got 3."%string] /\
  eval 1 (Op "not" []) 0%nat init
    = Exit ["Error: Need 1 argument, but got 0."%string].
Proof.
  split; [|split].
  - refine (proj1 (op_arity_errors 0 "+" [Print true (Val (CInt 1))] 0%nat init) _ _);
      [simpl; auto | simpl; lia].
  - refine (proj1 (proj2 (op_arity_errors 0 "mod" [Val (CInt 1); Val (CInt 2); Val (CInt 3)]
                            0%nat init)) _ _);
      [simpl; auto | simpl; lia].
  - refine (proj2 (proj2 (op_arity_errors 0 "not" [] 0%nat init)) eq_refl _). simpl; lia.
Defined.

(** [all(check_num(x)==check_num(vs[0]) for x in vs)] on Ints. *)
Lemma eq_gen_ints z zs0 zs st :
  all_gen (fun x => let* a := check_num x in let* v0 := index (map VInt (z :: zs0)) 0 in
                    let* b := check_num v0 in ret (a =? b)) (map VInt zs) st
    = Ok (forallb (fun x => x =? z) zs) st.
Proof.
  induction zs as [|x zs IH]; [reflexivity|].
  cbn [map all_gen forallb]. unfold bind at 1. unfold bind at 1. cbn.
  destruct (x =? z); [exact IH | reflexivity].
Qed.

(** X3: On Int operands [=] is true exactly when every operand equals
    the first one. *)
Theorem eq_on_ints fuel e st st' args z zs :
  mapM (fun a => eval fuel a e) args st = Ok (map VInt (z :: zs)) st' ->
  (2 <= length args)%nat ->
  eval (S fuel) (Op "=" args) e st = Ok (VBool (forallb (fun x => x =? z) zs)) st'.
Proof.
  intros Hvs Hlen.
  rewrite (eval_Op_prim fuel "=" args e st (map VInt (z :: zs)) st');
    [| |reflexivity|reflexivity|exact Hvs].
  - unfold prim. cbn [String.eqb Ascii.eqb Bool.eqb]. cbv iota.
    unfold bind at 1. unfold index at 1. cbn [map lookup list_lookup]. unfold ret at 1.
    unfold bind at 1. unfold index at 1. cbn [map lookup list_lookup].
    destruct zs as [|y zs].
    { apply mapM_length in Hvs. simpl in Hvs. lia. }
    cbn [map lookup list_lookup]. unfold ret at 1.
    rewrite (bind_Ok _ _ _ _ _ (eq_gen_ints z (y :: zs) (z :: y :: zs) st')).
    unfold ret. cbn [forallb]. now rewrite Z.eqb_refl.
  - unfold arity_check. simpl mem. cbv iota.
    apply Nat.ltb_ge in Hlen. now rewrite Hlen.
Qed.

Lemma eq_on_ints_witness :
  eval 2 (Op "=" [Val (CInt 2); Val (CInt 2); Val (CInt 3); Val (CInt 2)]) 0%nat init
    = Ok (VBool false) init.
Proof.
  apply (eq_on_ints 1 0%nat init init
           [Val (CInt 2); Val (CInt 2); Val (CInt 3); Val (CInt 2)] 2 [2; 3; 2]);
    [reflexivity | simpl; lia].
Defined.

Lemma sum_nums_first_bad zs v rest st acc :
  is_int v = false ->
  sum_nums acc (map VInt zs ++ v :: rest) st = Exit (out st ++ [type_error "number" v]).
Proof.
  intros Hv. revert acc. induction zs as [|z zs IH]; intros acc; simpl.
  - destruct v; try discriminate; reflexivity.
  - unfold bind at 1. simpl. apply IH.
Qed.

Lemma prod_nums_first_bad zs v rest st acc :
  is_int v = false ->
  prod_nums acc (map VInt zs ++ v :: rest) st = Exit (out st ++ [type_error "number" v]).
Proof.
  intros Hv. revert acc. induction zs as [|z zs IH]; intros acc; simpl.
  - destruct v; try discriminate; reflexivity.
  - unfold bind at 1. simpl. apply IH.
Qed.

(** X4: [+] and [*] evaluate all their operands first and then check
    them from the left: the type error names the first operand that is not
    an Int, after the output of all the operands. *)
Theorem sum_product_type_error fuel e st st' args zs v rest :
  mapM (fun a => eval fuel a e) args st = Ok (map VInt zs ++ v :: rest) st' ->
  (2 <= length args)%nat ->
  is_int v = false ->
  eval (S fuel) (Op "+" args) e st = Exit (out st' ++ [type_error "number" v]) /\
  eval (S fuel) (Op "*" args) e st = Exit (out st' ++ [type_error "number" v]).
Proof.
  intros Hvs Hlen Hv.
  assert (Har : forall op, mem op ["+"; "*"; "="; "and"; "or"]%string = true ->
                 arity_check op (length args) st = Ok tt st).
  { intros op Hop. unfold arity_check. apply Nat.ltb_ge in Hlen. now rewrite Hop, Hlen. }
  split.
  - rewrite (eval_Op_prim fuel "+" args e st _ st' (Har "+"%string eq_refl) eq_refl eq_refl Hvs).
    unfold prim. simpl. unfold bind. now rewrite sum_nums_first_bad.
  - rewrite (eval_Op_prim fuel "*" args e st _ st' (Har "*"%string eq_refl) eq_refl eq_refl Hvs).
    unfold prim. simpl. unfold bind. now rewrite prod_nums_first_bad.
Qed.

Lemma sum_product_type_error_witness :
  eval 2 (Op "+" [Val (CInt 1); Fun [] [Val (CInt 1)]; Val (CBool true)]) 0%nat init
    = Exit ["Type Error: Expect 'number' but got 'function'."%string] /\
  eval 2 (Op "*" [Val (CInt 1); Fun [] [Val (CInt 1)]; Val (CBool true)]) 0%nat init
    = Exit ["Type Error: Expect 'number' but got 'function'."%string].
Proof.
  apply (sum_product_type_error 1 0%nat init init
           [Val (CInt 1); Fun [] [Val (CInt 1)]; Val (CBool true)] [1]
           (VClosure [] [Val (CInt 1)] 0%nat) [VBool true]);
    [reflexivity | simpl; lia | reflexivity].
Defined.

(** All operands true for [and], all false for [or]. *)
Lemma all_gen_all fuel e l st st' :
  evals_to_bool fuel e true l st st' ->
  all_gen (fun x => let* v := eval fuel x e in check_bool v) l st = Ok true st'.
Proof.
  revert st. induction l as [|a l IH]; intros st H; simpl in *.
  - now subst.
  - destruct H as (s1 & Ha & H). unfold bind at 1. unfold bind at 1. rewrite Ha. simpl. eauto.
Qed.

Lemma any_gen_none fuel e l st st' :
  evals_to_bool fuel e false l st st' ->
  any_gen (fun x => let* v := eval fuel x e in check_bool v) l st = Ok false st'.
Proof.
  revert st. induction l as [|a l IH]; intros st H; simpl in *.
  - now subst.
  - destruct H as (s1 & Ha & H). unfold bind at 1. unfold bind at 1. rewrite Ha. simpl. eauto.
Qed.

(** X5: [and] over operands that are all [#t] evaluates every one of
    them and is [#t]; [or] over operands that are all [#f] evaluates every
    one and is [#f]. *)
Theorem and_or_exhausted fuel e l st st' :
  (2 <= length l)%nat ->
  (evals_to_bool fuel e true l st st' ->
   eval (S fuel) (Op "and" l) e st = Ok (VBool true) st') /\
  (evals_to_bool fuel e false l st st' ->
   eval (S fuel) (Op "or" l) e st = Ok (VBool false) st').
Proof.
  intros Hlen. apply Nat.ltb_ge in Hlen.
  split; intros H; cbn [eval]; unfold arity_check; simpl mem; cbv iota;
    rewrite Hlen; unfold bind at 1; unfold ret at 1; cbn [String.eqb Ascii.eqb Bool.eqb].
  - now rewrite (bind_Ok _ _ _ _ _ (all_gen_all _ _ _ _ _ H)).
  - now rewrite (bind_Ok _ _ _ _ _ (any_gen_none _ _ _ _ _ H)).
Qed.

Lemma and_or_exhausted_witness :
  eval 2 (Op "and" [Val (CBool true); Val (CBool true); Val (CBool true)]) 0%nat init
    = Ok (VBool true) init /\
  eval 2 (Op "or" [Val (CBool false); Val (CBool false)]) 0%nat init
    = Ok (VBool false) init.
Proof.
  split.
  - refine (proj1 (and_or_exhausted 1 0%nat
                     [Val (CBool true); Val (CBool true); Val (CBool true)] init init _) _).
    + simpl; lia.
    + exists init. split; [reflexivity|]. exists init. split; [reflexivity|].
      exists init. split; reflexivity.
  - refine (proj2 (and_or_exhausted 1 0%nat
                     [Val (CBool false); Val (CBool false)] init init _) _).
    + simpl; lia.
    + exists init. split; [reflexivity|]. exists init. split; reflexivity.
Defined.

Lemma prim_result_type op vs st v st' :
  prim op vs st = Ok v st' ->
  (In op ["+"; "-"; "*"; "/"; "mod"]%string -> is_int v = true) /\
  (In op [">"; "<"; "="; "not"]%string -> is_bool v = true).
Proof.
  unfold prim. intros H.
  repeat match type of H with
         | (if (op =? ?s)%string then _ else _) _ = Ok _ _ =>
             let E := fresh "E" in
             destruct (op =? s)%string eqn:E;
             [apply String.eqb_eq in E; subst op|]
         | bind _ _ _ = Ok _ _ => apply bind_Ok_inv in H as (? & ? & ? & H)
         | (if _ then _ else _) _ = Ok _ _ => mcase
         | match _ with Some _ => _ | None => _ end _ = Ok _ _ => mcase
         | match _ with Some _ => _ | None => _ end _ = Ok _ _ => mcase
         end;
  mauto;
  try (split; intros Hin; [try reflexivity | try reflexivity];
       simpl in Hin; intuition discriminate).
  split; intros Hin; simpl in Hin; exfalso;
    intuition (subst; simpl in *; discriminate).
Qed.

(** X6: Whatever its operands, an operator that returns, returns a value
    of its result type: an Int for [+ - * / mod], a Bool for
    [> < = and or not]. *)
Theorem op_result_type fuel op args e st v st' :
  eval (S fuel) (Op op args) e st = Ok v st' ->
  (In op ["+"; "-"; "*"; "/"; "mod"]%string -> is_int v = true) /\
  (In op [">"; "<"; "="; "and"; "or"; "not"]%string -> is_bool v = true).
Proof.
  intros H. cbn [eval] in H.
  apply bind_Ok_inv in H as (u & s1 & _ & H).
  destruct (op =? "and")%string eqn:Eand.
  { apply String.eqb_eq in Eand. subst op.
    apply bind_Ok_inv in H as (r & s2 & _ & H). minv H.
    split; intros Hin; [simpl in Hin; intuition discriminate | reflexivity]. }
  destruct (op =? "or")%string eqn:Eor.
  { apply String.eqb_eq in Eor. subst op.
    apply bind_Ok_inv in H as (r & s2 & _ & H). minv H.
    split; intros Hin; [simpl in Hin; intuition discriminate | reflexivity]. }
  apply bind_Ok_inv in H as (vs & s2 & _ & H).
  destruct (prim_result_type _ _ _ _ _ H) as [Hi Hb].
  split; [exact Hi|]. intros Hin. apply Hb.
  apply String.eqb_neq in Eand, Eor. simpl in Hin |- *. intuition congruence.
Qed.

Lemma op_result_type_witness :
  is_int (VInt 3) = true /\ is_bool (VBool false) = true.
Proof.
  split.
  - refine (proj1 (op_result_type 1 "+" [Val (CInt 1); Val (CInt 2)] 0%nat init
                     (VInt 3) init eq_refl) _). simpl; auto.
  - refine (proj2 (op_result_type 1 ">" [Val (CInt 1); Val (CInt 2)] 0%nat init
                     (VBool false) init eq_refl) _). simpl; auto.
Defined.

(** ** Division and remainder on all operands *)

Lemma quotient_exponent_le_log2 n d :
  0 < n -> 0 < d -> PyNum.quotient_exponent n d <= Z.log2 n.
Proof.
  intros Hn Hd. unfold PyNum.quotient_exponent.
  pose proof (Z.log2_nonneg d). destruct (if 0 <=? _ then _ else _); lia.
Qed.

(** The rounded quotient of a dividend below [2 ^ 1023] is in the range of
    binary64. *)
Lemma round_scaled_in_range n d s :
  0 < n < 2 ^ 1023 -> 0 < d ->
  s = Z.max (PyNum.quotient_exponent n d - 52) (-1074) -> 0 <= s ->
  PyNum.round_scaled n d s * 2 ^ s < PyNum.max_float_bound.
Proof.
  intros [Hn Hb] Hd Es Hs.
  pose proof (quotient_exponent_le_log2 n d Hn Hd) as Hex.
  pose proof (log2_bounds n Hn) as [Hlog _].
  assert (HP : 0 < 2 ^ s) by (apply Z.pow_pos_nonneg; lia).
  assert (Hsn : 2 ^ s <= n).
  { etrans; [|exact Hlog]. apply Z.pow_le_mono_r; lia. }
  unfold PyNum.round_scaled. apply Z.leb_le in Hs. rewrite Hs.
  destruct (round_half_even_bounds n (d * 2 ^ s) ltac:(nia)) as [[_ Hm] _].
  assert (Hq : n / (d * 2 ^ s) * 2 ^ s <= n).
  { pose proof (Z.mul_div_le n (d * 2 ^ s) ltac:(nia)).
    assert (0 <= n / (d * 2 ^ s)) by (apply Z.div_pos; nia). nia. }
  unfold PyNum.max_float_bound. change (2 ^ 1024) with (2 * 2 ^ 1023). nia.
Qed.

Lemma int_of_float_sign sg m s :
  (sg = 1 \/ sg = -1) -> 0 <= m ->
  let q := PyNum.int_of_float (PyNum.Float (sg * m) s) in
  q = 0 \/ Z.sgn q = sg.
Proof.
  intros Hsg Hm. unfold PyNum.int_of_float. cbn [PyNum.mant PyNum.expo].
  destruct (0 <=? s) eqn:Es.
  - apply Z.leb_le in Es.
    assert (HP : 0 < 2 ^ s) by (apply Z.pow_pos_nonneg; lia).
    cbv zeta. destruct (Z.eq_dec m 0) as [->|Hne]; [left; lia|right].
    destruct Hsg as [-> | ->]; [apply Z.sgn_pos | apply Z.sgn_neg]; nia.
  - apply Z.leb_gt in Es.
    assert (HP : 0 < 2 ^ (- s)) by (apply Z.pow_pos_nonneg; lia).
    cbv zeta. pose proof (Z.div_pos m (2 ^ (- s)) Hm HP) as Hq.
    destruct Hsg as [-> | ->].
    + rewrite Z.mul_1_l, Z.quot_div_nonneg by lia.
      destruct (Z.eq_dec (m / 2 ^ (- s)) 0) as [->|Hne]; [now left | right].
      apply Z.sgn_pos. lia.
    + replace (-1 * m) with (- m) by lia.
      rewrite Z.quot_opp_l, Z.quot_div_nonneg by lia.
      destruct (Z.eq_dec (m / 2 ^ (- s)) 0) as [->|Hne]; [now left | right].
      apply Z.sgn_neg. lia.
Qed.

(** X7: [/] by a divisor other than zero returns an Int for every
    dividend below [2 ^ 1023] in magnitude (no [OverflowError]); the result
    is zero or has the sign of the exact quotient. *)
Theorem div_returns_int a b st :
  Z.abs a < 2 ^ 1023 -> b <> 0 ->
  exists q, prim "/" [VInt a; VInt b] st = Ok (VInt q) st /\
            (q = 0 \/ Z.sgn q = Z.sgn a * Z.sgn b).
Proof.
  intros Ha Hb.
  assert (Hx : exists x, PyNum.truediv a b = Some x /\
                 (PyNum.int_of_float x = 0 \/
                  Z.sgn (PyNum.int_of_float x) = Z.sgn a * Z.sgn b)).
  { unfold PyNum.truediv. destruct (a =? 0) eqn:Ea.
    - eexists. split; [reflexivity | now left].
    - apply Z.eqb_neq in Ea. cbv zeta.
      set (s := Z.max (PyNum.quotient_exponent (Z.abs a) (Z.abs b) - 52) (-1074)).
      set (m := PyNum.round_scaled (Z.abs a) (Z.abs b) s).
      assert (Hm : 0 <= m).
      { unfold m, PyNum.round_scaled.
        destruct (0 <=? s) eqn:Es.
        - apply Z.leb_le in Es. apply round_half_even_nonneg; [lia|].
          assert (0 < 2 ^ s) by (apply Z.pow_pos_nonneg; lia). nia.
        - apply round_half_even_nonneg; [|lia].
          apply Z.mul_nonneg_nonneg; [lia | apply Z.pow_nonneg; lia]. }
      assert (Hov : (0 <=? s) && (PyNum.max_float_bound <=? m * 2 ^ s) = false).
      { destruct (0 <=? s) eqn:Es; [|reflexivity]. apply Z.leb_le in Es.
        apply Z.leb_gt. apply round_scaled_in_range; [lia | lia | reflexivity | exact Es]. }
      rewrite Hov. eexists. split; [reflexivity|].
      apply int_of_float_sign; [|exact Hm].
      destruct a, b; simpl; try lia; contradiction. }
  destruct Hx as (x & Hx & Hsgn).
  exists (PyNum.int_of_float x). split; [|exact Hsgn].
  unfold prim. simpl. unfold bind, ret. simpl.
  apply Z.eqb_neq in Hb. now rewrite Hb, Hx.
Qed.

Lemma div_returns_int_witness :
  exists q, prim "/" [VInt (-9223372036854775808); VInt 3] init = Ok (VInt q) init /\
            (q = 0 \/ Z.sgn q = Z.sgn (-9223372036854775808) * Z.sgn 3).
Proof.
  apply (div_returns_int (-9223372036854775808) 3 init); [|lia].
  apply Z.ltb_lt. vm_compute. reflexivity.
Defined.

(** [float(a)] is defined (no [OverflowError]) below [2 ^ 1023]. *)
Lemma float_of_int_defined a :
  Z.abs a < 2 ^ 1023 -> exists x, PyNum.float_of_int a = Some x.
Proof.
  intros Ha. destruct (PyNum.float_of_int a) as [x|] eqn:E; [eauto|].
  exfalso. revert E. unfold PyNum.float_of_int.
  destruct (Z.abs a <? 2 ^ 53) eqn:E53; [discriminate|]. apply Z.ltb_ge in E53.
  destruct (PyNum.max_float_bound <=? _) eqn:Eo; [|discriminate]. intros _.
  apply Z.leb_le in Eo.
  set (n := Z.abs a) in *. set (s := Z.log2 n - 52) in *.
  assert (Hn : 0 < n) by lia.
  pose proof (log2_bounds n Hn) as [Hlog _].
  destruct (Z_lt_le_dec s 0) as [Hs|Hs].
  - rewrite (Z.pow_neg_r 2 s Hs) in Eo. rewrite Z.mul_0_r in Eo.
    unfold PyNum.max_float_bound in Eo. assert (0 < 2 ^ 1024) by (apply Z.pow_pos_nonneg; lia). lia.
  - assert (HP : 0 < 2 ^ s) by (apply Z.pow_pos_nonneg; lia).
    assert (Hsn : 2 ^ s <= n).
    { etrans; [|exact Hlog]. apply Z.pow_le_mono_r; unfold s; lia. }
    destruct (round_half_even_bounds n (2 ^ s) HP) as [[_ Hm] _].
    pose proof (Z.mul_div_le n (2 ^ s) HP).
    unfold PyNum.max_float_bound in Eo. change (2 ^ 1024) with (2 * 2 ^ 1023) in Eo. nia.
Qed.



(** X9: Below [2 ^ 53] in magnitude [/] and [mod] are the quotient and
    the remainder of the division truncated toward zero: they fit together
    as [a = b * q + r], with [r] smaller than the divisor and zero or of the
    sign of the dividend. *)
Theorem div_mod_small_operands a b st :
  Z.abs a < 2 ^ 53 -> Z.abs b < 2 ^ 53 -> b <> 0 ->
  exists q r,
    prim "/" [VInt a; VInt b] st = Ok (VInt q) st /\
    prim "mod" [VInt a; VInt b] st = Ok (VInt r) st /\
    a = b * q + r /\ Z.abs r < Z.abs b /\ (r = 0 \/ Z.sgn r = Z.sgn a).
Proof.
  intros Ha Hb Hnz. exists (Z.quot a b), (Z.rem a b).
  split; [now apply div_small|]. split; [now apply mod_small|].
  split; [apply Z.quot_rem'; exact Hnz|]. split; [now apply Z.rem_bound_abs|].
  destruct (Z.eq_dec (Z.rem a b) 0) as [|Hr]; [now left | right].
  now apply Z.rem_sign_nz.
Qed.

Lemma div_mod_small_operands_witness :
  exists q r,
    prim "/" [VInt (-7); VInt 2] init = Ok (VInt q) init /\
    prim "mod" [VInt (-7); VInt 2] init = Ok (VInt r) init /\
    -7 = 2 * q + r /\ Z.abs r < Z.abs 2 /\ (r = 0 \/ Z.sgn r = Z.sgn (-7)).
Proof.
  apply (div_mod_small_operands (-7) 2 init); [reflexivity | reflexivity | lia].
Defined.

(** X10: [mod] by a divisor other than zero returns an Int that is zero
    or has the sign of the dividend, for operands below [2 ^ 1023] in
    magnitude. *)
Theorem mod_returns_int a b st :
  Z.abs a < 2 ^ 1023 -> Z.abs b < 2 ^ 1023 -> b <> 0 ->
  exists r, prim "mod" [VInt a; VInt b] st = Ok (VInt r) st /\
            (r = 0 \/ Z.sgn r = Z.sgn a).
Proof.
  intros Ha Hb Hnz.
  destruct (float_of_int_defined a Ha) as (x & Hx).
  destruct (float_of_int_defined b Hb) as (y & Hy).
  assert (Hy0 : y <> 0).
  { intros ->. apply float_of_int_sgn in Hy. destruct b; simpl in Hy; congruence. }
  assert (E : prim "mod" [VInt a; VInt b] st = Ok (VInt (PyNum.fmod x y)) st).
  { unfold prim. simpl. unfold bind, ret. simpl. rewrite Hx, Hy.
    apply Z.eqb_neq in Hy0. now rewrite Hy0. }
  eexists. split; [exact E|]. exact (mod_sign _ _ _ _ _ E).
Qed.

Lemma mod_returns_int_witness :
  exists r, prim "mod" [VInt (-9223372036854775807); VInt 10] init = Ok (VInt r) init /\
            (r = 0 \/ Z.sgn r = Z.sgn (-9223372036854775807)).
Proof.
  apply (mod_returns_int (-9223372036854775807) 10 init); [reflexivity | reflexivity | lia].
Defined.

(** ** Tokens are lexemes *)

Lemma append_cons d s1 s2 : String d s1 +:+ s2 = String d (s1 +:+ s2).
Proof. reflexivity. Qed.

Lemma span_spec p s :
  s = fst (span p s) +:+ snd (span p s) /\
  forallb p (list_ascii_of_string (fst (span p s))) = true /\
  span p (fst (span p s)) = (fst (span p s), EmptyString).
Proof.
  induction s as [|d s (IH1 & IH2 & IH3)]; simpl; [done|].
  destruct (p d) eqn:E; [|done].
  destruct (span p s) as [a b]. simpl in *.
  rewrite append_cons, <- IH1, E, IH2, IH3. done.
Qed.

Lemma lit_spec p s t rest : lit p s = Some (t, rest) -> t = p /\ s = p +:+ rest.
Proof.
  revert s t. induction p as [|x p IH]; intros s t H; simpl in H.
  - now inversion H.
  - destruct s as [|d s]; [discriminate|].
    destruct (x =? d)%char eqn:E; [|discriminate]. apply Ascii.eqb_eq in E. subst d.
    destruct (lit p s) as [[t' r']|] eqn:El; [|discriminate].
    inversion H; subst. destruct (IH _ _ El) as [-> ->]. now rewrite append_cons.
Qed.

Lemma lit_self p : lit p p = Some (p, EmptyString).
Proof. induction p as [|x p IH]; simpl; [done|]. now rewrite Ascii.eqb_refl, IH. Qed.

Lemma lit_prefix_None p t rest : lit p (t +:+ rest) = None -> lit p t = None.
Proof.
  revert t. induction p as [|x p IH]; intros t H; simpl in *; [discriminate|].
  destruct t as [|d t]; [done|]. rewrite append_cons in H.
  destruct (x =? d)%char; [|done].
  destruct (lit p (t +:+ rest)) as [[t' r']|] eqn:E; [discriminate|].
  now rewrite (IH _ E).
Qed.

Lemma lit_sound p : p <> EmptyString -> all_recognized p = true -> sound (lit p).
Proof.
  intros Hne Hrec. split.
  - intros s t rest H. destruct (lit_spec _ _ _ _ H) as [-> ->].
    repeat split; [done | done | apply lit_self].
  - apply lit_prefix_None.
Qed.

Lemma classes_recognized c :
  (is_digit c = true -> recognized c = true) /\
  (is_pos_digit c = true -> recognized c = true) /\
  (is_lower c = true -> recognized c = true) /\
  (is_id_char c = true -> recognized c = true) /\
  (is_op_char c = true -> recognized c = true).
Proof.
  destruct c as [[] [] [] [] [] [] [] []]; vm_compute; repeat split; auto.
Qed.

Lemma forallb_weaken {A} (p q : A -> bool) l :
  (forall x, p x = true -> q x = true) -> forallb p l = true -> forallb q l = true.
Proof. intros Hpq. rewrite !forallb_forall. auto. Qed.

Lemma number_sound : sound number.
Proof.
  split.
  - intros s t rest H. destruct s as [|c r]; [discriminate|]. cbn [number] in H.
    destruct (is_pos_digit c) eqn:Ec.
    + destruct (span_spec is_digit r) as (E1 & E2 & E3).
      destruct (span is_digit r) as [ds rs]. cbn [fst snd] in *. inversion H; subst t rest.
      split; [now rewrite append_cons, <- E1|]. split; [done|]. split.
      * unfold all_recognized. cbn [list_ascii_of_string forallb].
        rewrite (proj1 (proj2 (classes_recognized c)) Ec).
        apply (forallb_weaken is_digit); [apply classes_recognized | exact E2].
      * cbn [number]. now rewrite Ec, E3.
    + destruct (c =? "-")%char eqn:Em; [|discriminate].
      apply Ascii.eqb_eq in Em. subst c.
      destruct r as [|d r']; [discriminate|].
      destruct (is_pos_digit d) eqn:Ed; [|discriminate].
      destruct (span_spec is_digit r') as (E1 & E2 & E3).
      destruct (span is_digit r') as [ds rs]. cbn [fst snd] in *. inversion H; subst t rest.
      split; [now rewrite !append_cons, <- E1|]. split; [done|]. split.
      * unfold all_recognized. cbn [list_ascii_of_string forallb].
        rewrite (proj1 (proj2 (classes_recognized d)) Ed).
        change (recognized "-") with true. cbn [andb].
        apply (forallb_weaken is_digit); [apply classes_recognized | exact E2].
      * cbn [number]. change (is_pos_digit "-") with false. cbv iota.
        change ("-" =? "-")%char with true. cbv iota. now rewrite Ed, E3.
  - intros t rest H. destruct t as [|c t]; [done|]. rewrite append_cons in H.
    cbn [number] in *. destruct (is_pos_digit c).
    + now destruct (span is_digit (t +:+ rest)).
    + destruct (c =? "-")%char; [|done].
      destruct t as [|d t]; [done|]. rewrite append_cons in H.
      destruct (is_pos_digit d); [|done].
      now destruct (span is_digit (t +:+ rest)).
Qed.

Lemma ident_sound : sound ident.
Proof.
  split.
  - intros s t rest H. destruct s as [|c r]; [discriminate|]. cbn [ident] in H.
    destruct (is_lower c) eqn:Ec; [|discriminate].
    destruct (span_spec is_id_char r) as (E1 & E2 & E3).
    destruct (span is_id_char r) as [cs rs]. cbn [fst snd] in *. inversion H; subst t rest.
    split; [now rewrite append_cons, <- E1|]. split; [done|]. split.
    + unfold all_recognized. cbn [list_ascii_of_string forallb].
      rewrite (proj1 (proj2 (proj2 (classes_recognized c))) Ec).
      apply (forallb_weaken is_id_char); [apply classes_recognized | exact E2].
    + cbn [ident]. now rewrite Ec, E3.
  - intros t rest H. destruct t as [|c t]; [done|]. rewrite append_cons in H.
    cbn [ident] in *. destruct (is_lower c); [|done].
    now destruct (span is_id_char (t +:+ rest)).
Qed.

Lemma op_char_sound : sound op_char.
Proof.
  split.
  - intros s t rest H. destruct s as [|c r]; [discriminate|]. cbn [op_char] in H.
    destruct (is_op_char c) eqn:Ec; [|discriminate]. inversion H; subst t rest.
    split; [done|]. split; [done|]. split.
    + unfold all_recognized. cbn [list_ascii_of_string forallb].
      now rewrite (proj2 (proj2 (proj2 (proj2 (classes_recognized c)))) Ec).
    + cbn [op_char]. now rewrite Ec.
  - intros t rest H. destruct t as [|c t]; [done|]. rewrite append_cons in H.
    cbn [op_char] in *. now destruct (is_op_char c).
Qed.

Lemma alternatives_sound : Forall sound alternatives.
Proof.
  unfold alternatives.
  repeat (apply List.Forall_cons;
          [first [apply number_sound | apply ident_sound | apply op_char_sound
                 | apply lit_sound; [discriminate | reflexivity]]|]).
  apply List.Forall_nil.
Qed.

Lemma first_match_sound alts s t rest :
  Forall sound alts ->
  first_match alts s = Some (t, rest) ->
  s = t +:+ rest /\ t <> EmptyString /\ all_recognized t = true /\
  first_match alts t = Some (t, EmptyString).
Proof.
  induction 1 as [|m alts [Hm1 Hm2] _ IH]; cbn [first_match]; [discriminate|].
  destruct (m s) as [[t' r']|] eqn:E.
  - intros [= -> ->]. destruct (Hm1 _ _ _ E) as (? & ? & ? & Ht). now rewrite Ht.
  - intros H. destruct (IH H) as (Hs & ? & ? & Ht). subst s.
    now rewrite (Hm2 _ _ E).
Qed.

Lemma findall_lexemes f : forall s, Forall lexeme (findall f s).
Proof.
  induction f as [|f IH]; intros s; cbn [findall]; [constructor|].
  destruct s as [|d s]; [constructor|].
  destruct (first_match alternatives (String d s)) as [[t rest]|] eqn:E; [|apply IH].
  constructor; [|apply IH].
  destruct (first_match_sound _ _ _ _ alternatives_sound E) as (_ & ? & ? & ?).
  done.
Qed.

Lemma tokenize_lexeme t : lexeme t -> tokenize t = [t].
Proof.
  intros (Hne & _ & Hfm). unfold tokenize.
  destruct t as [|d t]; [done|]. cbn [String.length findall]. rewrite Hfm.
  now destruct (String.length t).
Qed.

Lemma tokenize_unwords l : Forall lexeme l -> tokenize (unwords l) = l.
Proof.
  induction 1 as [|t l Ht _ IH]; [reflexivity|].
  cbn [unwords]. unfold tokenize.
  rewrite (findall_skips " " (unwords l) eq_refl _ t (Nat.le_refl _)).
  fold (tokenize t). fold (tokenize (unwords l)). now rewrite (tokenize_lexeme _ Ht), IH.
Qed.

(** X11: Every token that [tokenize] returns is a lexeme: it is not empty, it is
    made of characters of the token pattern only, and lexed alone it is one
    token, itself. So the tokens written out with blanks between them lex to
    the same tokens: [tokenize] loses nothing but what lies between lexemes. *)
Theorem tokens_are_lexemes s :
  Forall (fun t => t <> EmptyString /\ all_recognized t = true /\ tokenize t = [t])
         (tokenize s) /\
  tokenize (unwords (tokenize s)) = tokenize s.
Proof.
  pose proof (findall_lexemes (String.length s) s) as H. fold (tokenize s) in H.
  split; [|now apply tokenize_unwords].
  eapply Forall_impl; [exact H|]. intros t Ht. cbv beta.
  split; [apply Ht|]. split; [apply Ht|]. now apply tokenize_lexeme.
Qed.

(** ** How parsing ends *)

Lemma error_syntax_message {A} t :
  exists msg, @error_syntax A t = PExit msg /\ syntax_message msg.
Proof.
  unfold error_syntax. destruct t as [t|]; [destruct (truthy_sexp t)|];
    eexists; (split; [reflexivity|]); [right; eauto | now left | now left].
Qed.

Lemma parse_outcome_error {A} toks (P : A -> Prop) t : parse_outcome toks P (error_syntax t).
Proof. destruct (@error_syntax_message A t) as (msg & -> & H). exact H. Qed.

Lemma read_spec f :
  (forall toks, (2 * length toks + 1 <= f)%nat ->
     parse_outcome toks (consumed toks) (read_sexp f toks)) /\
  (forall L toks, (2 * length toks + 2 <= f)%nat ->
     parse_outcome toks (consumed toks) (read_list f L toks)).
Proof.
  induction f as [|f [IHs IHl]]; [split; intros; lia|].
  split.
  - intros toks Hf. cbn [read_sexp].
    destruct toks as [|t toks]; [apply parse_outcome_error|].
    cbn [length] in Hf.
    destruct (t =? "(")%string.
    { specialize (IHl [] toks ltac:(lia)).
      destruct (read_list f [] toks) as [[s rest]| | |]; cbn in *; try done.
      - destruct IHl as (used & _ & ->). exists (t :: used). done.
      - destruct IHl as (x & ? & ?). exists x. split; [now right | done]. }
    destruct (t =? ")")%string; [apply parse_outcome_error|].
    destruct (t =? "#t")%string; [exists [t]; done|].
    destruct (t =? "#f")%string; [exists [t]; done|].
    destruct (is_int_token t) eqn:Ei; [|exists [t]; done].
    destruct (int_of_token t) eqn:Ez; [exists [t]; done|].
    exists t. split; [now left | done].
  - intros L toks Hf. cbn [read_list].
    destruct toks as [|t rest]; [apply parse_outcome_error|].
    cbn [length] in Hf.
    destruct (t =? ")")%string; [exists [t]; done|].
    specialize (IHs (t :: rest) ltac:(cbn [length]; lia)).
    destruct (read_sexp f (t :: rest)) as [[s rest']| | |]; cbn in *; try done.
    destruct IHs as (used & Hne & Hused). cbn in Hused.
    assert (Hlen : (length rest' < length (t :: rest))%nat).
    { rewrite Hused, length_app. destruct used; [done | simpl; lia]. }
    cbn [length] in Hlen.
    specialize (IHl (L ++ [s]) rest' ltac:(lia)).
    destruct (read_list f (L ++ [s]) rest') as [[s2 rest2]| | |]; cbn in *; try done.
    + destruct IHl as (used2 & _ & ->). exists (used ++ used2).
      split; [now destruct used | now rewrite Hused, app_assoc].
    + destruct IHl as (x & Hx & ?). exists x. split; [|done].
      change (In x (t :: rest)). rewrite Hused. apply in_or_app. now right.
Qed.

Lemma builds_error t : builds (error_syntax t).
Proof. destruct (@error_syntax_message node t) as (msg & -> & H). exact H. Qed.

Lemma parse_exps_builds l :
  Forall (fun s => builds (parse_exp s)) l -> builds_list (parse_exps l).
Proof.
  induction 1 as [|x r Hx _ IH]; cbn [parse_exps]; [done|].
  destruct (parse_exp x); cbn in *; try done.
  destruct (parse_exps r); cbn in *; done.
Qed.

Lemma parse_stmts_builds l :
  Forall (fun s => builds (parse_stmt s)) l -> builds_list (parse_stmts l).
Proof.
  induction 1 as [|x r Hx _ IH]; cbn [parse_stmts]; [done|].
  destruct (parse_stmt x); cbn in *; try done.
  destruct (parse_stmts r); cbn in *; done.
Qed.

Lemma parse_builds s : builds (parse_exp s) /\ builds (parse_stmt s).
Proof.
  induction s as [b|z|x|l IH] using sexp_nested_ind.
  - split; exact I.
  - split; exact I.
  - assert (He : builds (parse_exp (SSym x))).
    { cbn [parse_exp]. destruct (mem x _); [apply builds_error | exact I]. }
    split; exact He.
  - assert (He : builds (parse_exp (SList l))).
    { destruct l as [|head tl]; [apply (builds_error None)|].
      rewrite parse_exp_SList.
      apply Forall_cons in IH as [[Hhead _] IHtl].
      assert (Hexps : builds_list (parse_exps tl)).
      { apply parse_exps_builds. eapply Forall_impl; [exact IHtl|]. now intros s [? _]. }
      destruct (sym_is head "if").
      { destruct tl as [|t [|a [|b [|c tl]]]]; try apply builds_error.
        apply Forall_cons in IHtl as [[Ht _] IHtl].
        apply Forall_cons in IHtl as [[Ha _] IHtl].
        apply Forall_cons in IHtl as [[Hb _] _].
        destruct (parse_exp t); cbn in *; try done.
        destruct (parse_exp a); cbn in *; try done.
        destruct (parse_exp b); cbn in *; done. }
      destruct (sym_is head "fun").
      { destruct tl as [|params [|x body]]; try apply builds_error.
        apply Forall_cons in IHtl as [_ IHbody].
        destruct params as [| | |ps]; try apply builds_error.
        assert (Hb : builds_list (parse_stmts (x :: body))).
        { apply parse_stmts_builds. eapply Forall_impl; [exact IHbody|]. now intros s [_ ?]. }
        destruct (parse_stmts (x :: body)); cbn in *; done. }
      destruct (is_operator head).
      - destruct (parse_exps tl); cbn in *; done.
      - destruct (parse_exp head); cbn in *; try done.
        destruct (parse_exps tl); cbn in *; done. }
    split; [exact He|].
    unfold parse_stmt, parse_stmt_with.
    destruct l as [|head tl]; [exact He|].
    apply Forall_cons in IH as [_ IHtl].
    destruct (sym_is head "define").
    { destruct tl as [|a [|v [|c tl]]]; try apply builds_error.
      apply Forall_cons in IHtl as [_ IHtl]. apply Forall_cons in IHtl as [[Hv _] _].
      destruct (parse_exp v); cbn in *; done. }
    destruct (sym_is head "print-num").
    { destruct tl as [|v [|c tl]]; try apply builds_error.
      apply Forall_cons in IHtl as [[Hv _] _].
      destruct (parse_exp v); cbn in *; done. }
    destruct (sym_is head "print-bool").
    { destruct tl as [|v [|c tl]]; try apply builds_error.
      apply Forall_cons in IHtl as [[Hv _] _].
      destruct (parse_exp v); cbn in *; done. }
    exact He.
Qed.

Lemma pos_digit_facts c :
  is_pos_digit c = true ->
  is_digit c = true /\ (c =? "-")%char = false /\ (c =? "0")%char = false.
Proof. destruct c as [[] [] [] [] [] [] [] []]; vm_compute; intros H; first [discriminate H | done]. Qed.

(** On a lexeme, [int] does not fail. *)
Lemma lexeme_int_token t :
  lexeme t -> is_int_token t = true -> exists z, int_of_token t = Some z.
Proof.
  intros (_ & _ & Hfm) Hi. destruct t as [|c r]; [discriminate|].
  cbn [is_int_token] in Hi. cbn [int_of_token].
  destruct (c =? "0")%char eqn:E0.
  - apply Ascii.eqb_eq in E0. subst c.
    assert (r = EmptyString) by (cbv in Hfm; congruence). subst r.
    now exists 0.
  - destruct (is_pos_digit c) eqn:Ep.
    + destruct (pos_digit_facts c Ep) as (Hd & Hm & _).
      rewrite Hm. cbn [andb]. unfold all_digits in *.
      cbn [list_ascii_of_string forallb]. rewrite Hd, Hi. eauto.
    + destruct (c =? "-")%char; [|discriminate].
      destruct r as [|d r']; [discriminate|].
      apply andb_prop in Hi as [Hd Hr]. destruct (pos_digit_facts d Hd) as (Hd' & _).
      cbn [andb negb String.eqb]. unfold all_digits in *.
      cbn [list_ascii_of_string forallb]. rewrite Hd', Hr. eauto.
Qed.

Lemma parse_prog_from_spec f : forall toks,
  (length toks < f)%nat ->
  parse_outcome toks (fun nodes => forallb wf_stmt nodes = true) (parse_prog_from f toks).
Proof.
  induction f as [|f IH]; intros toks Hf; [lia|].
  cbn [parse_prog_from]. destruct toks as [|t toks]; [reflexivity|].
  set (tokens := t :: toks) in *.
  pose proof (proj1 (read_spec (2 * length tokens + 2)) tokens ltac:(lia)) as Hr.
  destruct (read_sexp (2 * length tokens + 2) tokens) as [[s rest]| | |]; cbn in *; try done.
  destruct Hr as (used & Hne & Hused). cbn in Hused.
  assert (Hlen : (length rest < length tokens)%nat).
  { rewrite Hused, length_app. destruct used; [done | simpl; lia]. }
  pose proof (proj2 (parse_builds s)) as Hb.
  pose proof (proj2 (parse_wf_both s)) as Hw.
  destruct (parse_stmt s) as [n| | |]; cbn in *; try done.
  specialize (IH rest ltac:(lia)).
  destruct (parse_prog_from f rest) as [ns| | |]; cbn in *; try done.
  - now rewrite (Hw n eq_refl), IH.
  - destruct IH as (x & Hx & ?). exists x. split; [|done].
    change (In x tokens). rewrite Hused. apply in_or_app. now right.
Qed.

(** X12: The nodes [parse_prog] returns are well formed: [Def] and [Print]
    nodes stand only at top level or directly in a [fun] body, an [Op] node
    holds one of the eleven operators, a [Var] is not an operator, and a
    [fun] has a body. *)
Theorem parse_prog_well_formed toks nodes :
  parse_prog toks = POk nodes -> forallb wf_stmt nodes = true.
Proof.
  intros H. pose proof (parse_prog_from_spec (S (length toks)) toks ltac:(lia)) as Hs.
  unfold parse_prog in H. now rewrite H in Hs.
Qed.

Lemma parse_prog_well_formed_witness :
  forallb wf_stmt [Def (SSym "f") (Fun [SSym "a"] [Def (SSym "b") (Var "a"); Var "b"])] = true.
Proof.
  apply (parse_prog_well_formed (tokenize "(define f (fun (a) (define b a) b))")).
  vm_compute. reflexivity.
Defined.

(** X13: On every source text the parsing phase of the main program ends, either
    with the AST, which is then run, or with one line of output that is one
    of the two forms of [error_syntax]. *)
Theorem parsing_ends src :
  (exists nodes, parse_prog (tokenize src) = POk nodes /\
                 forall fuel, main fuel src = run_nodes fuel nodes init) \/
  (exists msg, syntax_message msg /\ forall fuel, main fuel src = Exit [msg]).
Proof.
  pose proof (parse_prog_from_spec (S (length (tokenize src))) (tokenize src) ltac:(lia)) as Hs.
  unfold main. fold (parse_prog (tokenize src)) in Hs.
  destruct (parse_prog (tokenize src)) as [nodes|msg|x|]; cbn [parse_outcome] in Hs.
  - left. eauto.
  - right. eauto.
  - right. exists "syntax error"%string. split; [now left | done].
  - destruct Hs.
Qed.

(** ** What the reader consumes *)

Lemma read_consumes_both f :
  (forall toks s rest, read_sexp f toks = POk (s, rest) ->
     exists used, used <> [] /\ toks = used ++ rest) /\
  (forall L toks s rest, read_list f L toks = POk (s, rest) ->
     exists used, In ")"%string used /\ toks = used ++ rest).
Proof.
  induction f as [|f [IHs IHl]]; [split; intros; discriminate|].
  split.
  - intros toks s rest H. cbn [read_sexp] in H.
    destruct toks as [|t toks]; [now apply error_syntax_not_POk in H|].
    destruct (t =? "(")%string.
    { destruct (IHl _ _ _ _ H) as (used & _ & ->). now exists (t :: used). }
    destruct (t =? ")")%string; [now apply error_syntax_not_POk in H|].
    destruct (t =? "#t")%string; [inversion H; subst; now exists [t]|].
    destruct (t =? "#f")%string; [inversion H; subst; now exists [t]|].
    destruct (is_int_token t); [|inversion H; subst; now exists [t]].
    destruct (int_of_token t); [|discriminate]. inversion H; subst. now exists [t].
  - intros L toks s rest H. cbn [read_list] in H.
    destruct toks as [|t toks]; [now apply error_syntax_not_POk in H|].
    destruct (t =? ")")%string eqn:E.
    { apply String.eqb_eq in E. subst t. inversion H; subst. exists [")"%string].
      split; [now left | done]. }
    apply pbind_POk_inv in H as ([s1 r1] & H1 & H). cbn [fst snd] in H.
    destruct (IHs _ _ _ H1) as (u1 & _ & E1).
    destruct (IHl _ _ _ _ H) as (u2 & Hin & E2).
    exists (u1 ++ u2). split; [apply in_or_app; now right|].
    now rewrite E1, E2, app_assoc.
Qed.

(** X14: When [read_sexp] returns, it has taken at least one token
    from the front of the list and left the tokens after those it took; a
    list is read up to and including a closing parenthesis. *)
Theorem read_sexp_consumes f toks s rest :
  read_sexp f toks = POk (s, rest) ->
  exists used, used <> [] /\ toks = used ++ rest /\
               (forall l, s = SList l -> In ")"%string used).
Proof.
  intros H. destruct (proj1 (read_consumes_both f) _ _ _ H) as (used & Hne & E).
  destruct f as [|f]; [discriminate|]. cbn [read_sexp] in H.
  destruct toks as [|t toks]; [now apply error_syntax_not_POk in H|].
  destruct (t =? "(")%string.
  { destruct (proj2 (read_consumes_both f) _ _ _ _ H) as (u & Hin & ->).
    exists (t :: u). split; [done|]. split; [done|]. intros _ _. now right. }
  exists used. split; [done|]. split; [done|]. intros l ->.
  destruct (t =? ")")%string; [now apply error_syntax_not_POk in H|].
  destruct (t =? "#t")%string; [discriminate|].
  destruct (t =? "#f")%string; [discriminate|].
  destruct (is_int_token t); [|discriminate].
  destruct (int_of_token t); discriminate.
Qed.

Lemma read_sexp_consumes_witness :
  exists used, used <> [] /\
    ["("; "+"; "1"; ")"; "x"]%string = used ++ ["x"%string] /\
    (forall l, SList [SSym "+"; SInt 1] = SList l -> In ")"%string used).
Proof.
  apply (read_sexp_consumes 5 ["("; "+"; "1"; ")"; "x"]%string
           (SList [SSym "+"; SInt 1]) ["x"%string]).
  reflexivity.
Defined.

(** Tokens without a closing parenthesis: an atom is read alone, a list
    is never closed. *)
Lemma read_unclosed f :
  (forall t rest, Forall lexeme (t :: rest) -> ~ In ")"%string (t :: rest) ->
     (2 * length (t :: rest) + 1 <= f)%nat ->
     read_sexp f (t :: rest) = PExit "syntax error" \/
     exists a, read_sexp f (t :: rest) = POk (a, rest)) /\
  (forall L toks, Forall lexeme toks -> ~ In ")"%string toks ->
     (2 * length toks + 2 <= f)%nat ->
     read_list f L toks = PExit "syntax error").
Proof.
  induction f as [|f [IHs IHl]]; [split; intros; lia|].
  split.
  - intros t rest Hlex Hno Hf. cbn [length] in Hf. cbn [read_sexp].
    apply Forall_cons in Hlex as [Ht Hrest].
    assert (Hno' : ~ In ")"%string rest) by (intros Hin; apply Hno; now right).
    destruct (t =? "(")%string.
    { left. apply IHl; [done | done | lia]. }
    destruct (t =? ")")%string eqn:E.
    { apply String.eqb_eq in E. subst t. destruct Hno. now left. }
    right. destruct (t =? "#t")%string; [eauto|].
    destruct (t =? "#f")%string; [eauto|].
    destruct (is_int_token t) eqn:Ei; [|eauto].
    destruct (lexeme_int_token t Ht Ei) as (z & ->). eauto.
  - intros L toks Hlex Hno Hf. cbn [read_list].
    destruct toks as [|t rest]; [reflexivity|]. cbn [length] in Hf.
    destruct (t =? ")")%string eqn:E.
    { apply String.eqb_eq in E. subst t. destruct Hno. now left. }
    destruct (IHs t rest Hlex Hno ltac:(cbn [length]; lia)) as [->|(a & ->)]; [reflexivity|].
    cbn [pbind fst snd]. apply Forall_cons in Hlex as [_ Hrest].
    apply IHl; [done | intros Hin; apply Hno; now right | lia].
Qed.

(** X15: A source text whose first token is an opening parenthesis and which
    holds no closing one ends with the line [syntax error]: the list is never
    closed, and nothing of the program is evaluated. *)
Theorem unclosed_list_is_syntax_error src toks fuel :
  tokenize src = ("("%string :: toks) -> ~ In ")"%string toks ->
  main fuel src = Exit ["syntax error"%string].
Proof.
  intros Htok Hno.
  pose proof (findall_lexemes (String.length src) src) as Hlex.
  fold (tokenize src) in Hlex. rewrite Htok in Hlex.
  apply Forall_cons in Hlex as [_ Hlex].
  unfold main, parse_prog. rewrite Htok. cbn [parse_prog_from length].
  replace (read_sexp _ _) with (@PExit (sexp * list string) "syntax error"); [reflexivity|].
  symmetry. 
  remember (2 * S (length toks) + 2)%nat as f eqn:Ef.
  destruct f as [|f]; [lia|]. cbn [read_sexp]. cbn [String.eqb Ascii.eqb Bool.eqb].
  apply (proj2 (read_unclosed f)); [done | done | lia].
Qed.

Lemma unclosed_list_is_syntax_error_witness :
  main 0 "(print-num (+ 1 2" = Exit ["syntax error"%string].
Proof.
  apply (unclosed_list_is_syntax_error "(print-num (+ 1 2"
           ["print-num"; "("; "+"; "1"; "2"]%string 0).
  - reflexivity.
  - intros H. repeat (destruct H as [H|H]; [discriminate H|]). exact H.
Defined.

(** ** Printed integers are read back *)

Lemma decimal_from_acc d : forall p,
  decimal_from (Z.pos p) (digits d) = Z.pos (Pos.of_uint_acc d p).
Proof.
  unfold decimal_from, digits.
  induction d; intros p; cbn [NilEmpty.string_of_uint list_ascii_of_string fold_left Pos.of_uint_acc];
    [reflexivity|..];
    rewrite <- IHd; f_equal;
    match goal with |- context [digit_val ?c] =>
      let v := eval vm_compute in (digit_val c) in change (digit_val c) with v end; lia.
Qed.

Lemma decimal_digits d : decimal (digits d) = Z.of_N (Pos.of_uint d).
Proof.
  unfold decimal. change (fold_left _ (list_ascii_of_string ?s) ?a) with (decimal_from a s).
  induction d; cbn [Pos.of_uint Z.of_N]; [reflexivity | exact IHd | ..];
    rewrite <- decimal_from_acc; reflexivity.
Qed.

Lemma span_digits d : span is_digit (digits d) = (digits d, EmptyString).
Proof.
  unfold digits.
  induction d; cbn [NilEmpty.string_of_uint span]; [reflexivity|..];
    match goal with |- context [is_digit ?c] => change (is_digit c) with true end;
    cbv iota; now rewrite IHd.
Qed.

Lemma all_digits_digits d : all_digits (digits d) = true.
Proof.
  unfold all_digits, digits.
  induction d; cbn [NilEmpty.string_of_uint list_ascii_of_string forallb]; [reflexivity|..];
    match goal with |- context [is_digit ?c] => change (is_digit c) with true end;
    exact IHd.
Qed.

Lemma to_uint_head p :
  match Pos.to_uint p with Decimal.Nil | Decimal.D0 _ => False | _ => True end.
Proof.
  pose proof (Unsigned.to_of (Pos.to_uint p)) as H. rewrite Unsigned.of_to in H.
  cbn [N.to_uint] in H.
  pose proof (Unsigned.to_uint_nonzero p) as Hz.
  pose proof (nzhead_nonzero (Pos.to_uint p)) as Hh.
  unfold Decimal.unorm in H. destruct (Decimal.nzhead (Pos.to_uint p)) eqn:E; rewrite H; try exact I.
  - now apply Hz.
  - now apply (Hh u).
Qed.

(** The decimal numeral of a positive number, as a lexeme and as a literal. *)
Lemma pos_numeral p :
  let t := digits (Pos.to_uint p) in
  number t = Some (t, EmptyString) /\
  first_match alternatives t = Some (t, EmptyString) /\
  number (String "-" t) = Some (String "-" t, EmptyString) /\
  first_match alternatives (String "-" t) = Some (String "-" t, EmptyString) /\
  is_int_token t = true /\ is_int_token (String "-" t) = true /\
  int_of_token t = Some (Z.pos p) /\ int_of_token (String "-" t) = Some (Z.neg p) /\
  t <> EmptyString /\ all_recognized t = true /\
  (forall f rest, read_sexp (S f) (t :: rest) = POk (SInt (Z.pos p), rest)) /\
  (forall f rest, read_sexp (S f) (String "-" t :: rest) = POk (SInt (Z.neg p), rest)).
Proof.
  cbv zeta.
  pose proof (to_uint_head p) as Hh.
  pose proof (decimal_digits (Pos.to_uint p)) as Hd. rewrite Unsigned.of_to in Hd.
  pose proof (all_digits_digits (Pos.to_uint p)) as Ha.
  assert (Hr : all_recognized (digits (Pos.to_uint p)) = true).
  { unfold all_recognized. apply (forallb_weaken is_digit); [apply classes_recognized | exact Ha]. }
  destruct (Pos.to_uint p) as [|u|u|u|u|u|u|u|u|u|u]; try contradiction;
    unfold digits in *; cbn [NilEmpty.string_of_uint] in *; fold (digits u) in *;
    (assert (Hu : all_digits (digits u) = true) by apply all_digits_digits);
    unfold alternatives; cbn [first_match lit number is_int_token int_of_token read_sexp String.eqb];
    cbn [Ascii.eqb Bool.eqb is_pos_digit]; 
    rewrite ?span_digits, ?Hu, ?Ha, ?Hd; cbn; rewrite ?span_digits, ?Hu, ?Ha, ?Hd;
    repeat split; try done.
Qed.

Lemma str_of_int_cases z :
  PyNum.str_of_int z =
  match z with
  | 0 => "0"%string
  | Z.pos p => digits (Pos.to_uint p)
  | Z.neg p => String "-" (digits (Pos.to_uint p))
  end.
Proof.
  unfold PyNum.str_of_int, digits. destruct z as [|p|p]; [reflexivity|..];
    cbn [Z.to_int NilZero.string_of_int NilZero.string_of_uint];
    pose proof (to_uint_head p) as H; now destruct (Pos.to_uint p).
Qed.

Lemma str_of_int_lexeme z : lexeme (PyNum.str_of_int z).
Proof.
  rewrite str_of_int_cases. destruct z as [|p|p]; [now vm_compute|..];
    destruct (pos_numeral p) as (_ & H1 & _ & H2 & _ & _ & _ & _ & Hne & Hr & _).
  - done.
  - repeat split; [done | | done]. unfold all_recognized in *.
    cbn [list_ascii_of_string forallb]. now rewrite Hr.
Qed.

Lemma read_str_of_int z f rest :
  read_sexp (S f) (PyNum.str_of_int z :: rest) = POk (SInt z, rest).
Proof.
  rewrite str_of_int_cases. destruct z as [|p|p]; [reflexivity|..];
    destruct (pos_numeral p) as (_ & _ & _ & _ & _ & _ & _ & _ & _ & _ & H1 & H2); auto.
Qed.

Lemma read_print_form s a f :
  (forall f rest, read_sexp (S f) (s :: rest) = POk (a, rest)) ->
  read_sexp (S (S (S (S f)))) ["("; "print-num"; s; ")"]%string
  = POk (SList [SSym "print-num"; a], []).
Proof.
  intros H.
  assert (Hs : (s =? ")")%string = false).
  { destruct (s =? ")")%string eqn:E; [|reflexivity]. apply String.eqb_eq in E. subst s.
    specialize (H 0%nat []). discriminate. }
  change (read_sexp (S (S (S (S f)))) ["("; "print-num"; s; ")"]%string)
    with (let+ r := POk (SSym "print-num", [s; ")"]%string) in
          read_list (S (S f)) ([] ++ [fst r]) (snd r)).
  cbn [pbind fst snd app]. cbn [read_list]. rewrite Hs, H. cbn [pbind fst snd app].
  reflexivity.
Qed.

(** X16: What [print-num] writes for an integer is read back as that integer:
    the text is one token, [read_sexp] makes it the [int], and the program
    that prints that literal writes the same text. The bound is the 4300
    digits to which CPython limits the conversions between [int] and [str]. *)
Theorem printed_int_reads_back z :
  Z.abs z < 10 ^ 4300 ->
  tokenize (PyNum.str_of_int z) = [PyNum.str_of_int z] /\
  (forall f rest, read_sexp (S f) (PyNum.str_of_int z :: rest) = POk (SInt z, rest)) /\
  forall fuel,
    stdout (main (S (S fuel)) (unwords ["("; "print-num"; PyNum.str_of_int z; ")"]%string))
    = Some [PyNum.str_of_int z].
Proof.
  intros _.
  pose proof (str_of_int_lexeme z) as Hl.
  split; [now apply tokenize_lexeme|]. split; [intros; apply read_str_of_int|].
  intros fuel. unfold main.
  rewrite tokenize_unwords.
  2:{ repeat (apply List.Forall_cons; [first [exact Hl | now vm_compute]|]). apply List.Forall_nil. }
  unfold parse_prog. cbn [length parse_prog_from Nat.mul Nat.add].
  rewrite (read_print_form _ (SInt z)); [|intros; apply read_str_of_int].
  reflexivity.
Qed.

Lemma printed_int_reads_back_witness :
  tokenize (PyNum.str_of_int (-42)) = [PyNum.str_of_int (-42)] /\
  (forall f rest, read_sexp (S f) (PyNum.str_of_int (-42) :: rest) = POk (SInt (-42), rest)) /\
  forall fuel,
    stdout (main (S (S fuel)) (unwords ["("; "print-num"; PyNum.str_of_int (-42); ")"]%string))
    = Some [PyNum.str_of_int (-42)].
Proof. apply (printed_int_reads_back (-42)). reflexivity. Defined.

(** ** Frames and output over the run of a program *)

Lemma wf_state_init : wf_state init.
Proof.
  intros l fr k v H Hk. destruct l as [|l]; [|discriminate].
  cbn in H. inversion H; subst fr. cbn [vars] in Hk. now rewrite lookup_empty in Hk.
Qed.

Lemma kept_refl e st : kept e st st.
Proof. apply untouched_kept, untouched_refl. Qed.

Lemma run_nodes_wf fuel nodes : forall st st',
  wf_state st -> forallb wf_stmt nodes = true ->
  run_nodes fuel nodes st = Ok tt st' ->
  wf_state st' /\ kept 0 st st'.
Proof.
  induction nodes as [|n nodes IH]; intros st st' Hwf Hn H; cbn [run_nodes] in H.
  - inversion H; subst. split; [done | apply kept_refl].
  - cbn [forallb] in Hn. apply andb_prop in Hn as [Hn Hns].
    apply bind_Ok_inv in H as (v & s1 & Hv & H).
    destruct (eval_wf _ _ _ _ _ _ Hwf Hn Hv) as (_ & Hwf1 & Hk1 & _).
    destruct (IH _ _ Hwf1 Hns H) as (Hwf2 & Hk2).
    split; [done | by eapply kept_trans].
Qed.

(** X17: Evaluating an expression of a parsed program leaves every
    existing frame as it is: an expression binds nothing, and what a call
    binds goes into the frame that the call creates. *)
Theorem expression_leaves_frames fuel nd e st v st' :
  wf_state st -> wf_exp nd = true ->
  eval fuel nd e st = Ok v st' ->
  untouched st st'.
Proof.
  intros Hwf Hnd H.
  destruct (eval_wf _ _ _ _ _ _ Hwf (wf_exp_stmt _ Hnd) H) as (_ & _ & _ & Hu). auto.
Qed.

Lemma expression_leaves_frames_witness :
  exists v st',
    eval 5 (Call (Fun [SSym "a"] [Def (SSym "b") (Var "a"); Var "b"]) [Val (CInt 2)])
         0%nat init = Ok v st' /\
    untouched init st'.
Proof.
  eexists. eexists. split; [vm_compute; reflexivity|].
  eapply (expression_leaves_frames 5
            (Call (Fun [SSym "a"] [Def (SSym "b") (Var "a"); Var "b"]) [Val (CInt 2)])
            0%nat init);
    [exact wf_state_init | reflexivity | vm_compute; reflexivity].
Defined.

(** X18: In a run of a parsed program a binding, once made, is never
    changed or removed: after more top-level forms every frame is still there
    with its parent and its bindings, and every frame but the global one is
    as it was. *)
Theorem bindings_never_change toks n1 n2 fuel st1 st2 :
  parse_prog toks = POk (n1 ++ n2) ->
  run_nodes fuel n1 init = Ok tt st1 ->
  run_nodes fuel (n1 ++ n2) init = Ok tt st2 ->
  kept 0 st1 st2.
Proof.
  intros Hp H1 H2.
  pose proof (parse_prog_from_spec (S (length toks)) toks ltac:(lia)) as Hs.
  fold (parse_prog toks) in Hs. rewrite Hp in Hs. cbn [parse_outcome] in Hs.
  rewrite forallb_app in Hs. apply andb_prop in Hs as [Hw1 Hw2].
  rewrite (run_nodes_app _ _ _ _ _ H1) in H2.
  destruct (run_nodes_wf _ _ _ _ wf_state_init Hw1 H1) as (Hwf1 & _).
  now destruct (run_nodes_wf _ _ _ _ Hwf1 Hw2 H2).
Qed.

Lemma bindings_never_change_witness :
  exists st1 st2,
    run_nodes 5 [Def (SSym "x") (Val (CInt 1));
                 Def (SSym "f") (Fun [SSym "a"] [Def (SSym "b") (Var "a"); Var "b"])]
              init = Ok tt st1 /\
    run_nodes 5 ([Def (SSym "x") (Val (CInt 1));
                  Def (SSym "f") (Fun [SSym "a"] [Def (SSym "b") (Var "a"); Var "b"])] ++
                 [Def (SSym "y") (Call (Var "f") [Var "x"])])
              init = Ok tt st2 /\
    kept 0 st1 st2.
Proof.
  eexists. eexists. split; [vm_compute; reflexivity|]. split; [vm_compute; reflexivity|].
  eapply (bindings_never_change
            (tokenize "(define x 1) (define f (fun (a) (define b a) b)) (define y (f x))")
            [Def (SSym "x") (Val (CInt 1));
             Def (SSym "f") (Fun [SSym "a"] [Def (SSym "b") (Var "a"); Var "b"])]
            [Def (SSym "y") (Call (Var "f") [Var "x"])] 5);
    vm_compute; reflexivity.
Defined.

(** X19: A runtime error or a Python exception in a top-level form ends
    the run there: the forms after it are not evaluated, and what was printed
    before it stays. *)
Theorem error_ends_program fuel n1 n n2 st st1 :
  run_nodes fuel n1 st = Ok tt st1 ->
  (forall o, eval fuel n 0%nat st1 = Exit o ->
     run_nodes fuel (n1 ++ n :: n2) st = Exit o /\ out st1 `prefix_of` o) /\
  (forall x o, eval fuel n 0%nat st1 = Raise x o ->
     run_nodes fuel (n1 ++ n :: n2) st = Raise x o /\ out st1 `prefix_of` o).
Proof.
  intros H1. rewrite (run_nodes_app _ _ _ _ _ H1). cbn [run_nodes]. unfold bind.
  split.
  - intros o H. rewrite H. split; [reflexivity|].
    apply (eval_appends fuel n 0%nat st1 o). now rewrite H.
  - intros x o H. rewrite H. split; [reflexivity|].
    apply (eval_appends fuel n 0%nat st1 o). now rewrite H.
Qed.

Lemma error_ends_program_witness :
  run_nodes 3 ([Print true (Val (CInt 1))] ++
               Print true (Op "/" [Val (CInt 1); Val (CInt 0)]) :: [Print true (Val (CInt 2))])
            init = Exit ["1"; "Error: Division by zero"]%string /\
  out {| heap := heap init; out := ["1"%string] |}
    `prefix_of` ["1"; "Error: Division by zero"]%string.
Proof.
  refine (proj1 (error_ends_program 3 [Print true (Val (CInt 1))]
           (Print true (Op "/" [Val (CInt 1); Val (CInt 0)])) [Print true (Val (CInt 2))]
           init {| heap := heap init; out := ["1"%string] |} _) _ _);
    vm_compute; reflexivity.
Defined.
